(** * Deconvolution (ImageStack): a shallow embedding of [Deconvolution.cpp]

    The development follows the source file top to bottom:
    - samples are an abstract arithmetic ([Scalar]) with two instances, IEEE-754
      binary32 (C's [float], every operation rounded to nearest-even) and the
      real numbers (the exact arithmetic the comments of the source reason in);
    - [int] values are integers; the sizes are those of images that fit in
      memory, where no [int] operation of the file overflows;
    - an [Image] is a dense buffer addressed through strides, as the row
      [memcpy] calls of [applyPadding] require;
    - file writes and failed assertions are the effects; they are threaded
      through a small monad that keeps the list of files written; a store
      outside an allocation, which C++ leaves undefined, ends a run with no
      result;
    - the build is the one with FFTW linked (the [#else] branch of both
      solvers). *)

From Stdlib Require Import ZArith List Bool String Lia Floats.SpecFloat QArith Qabs.
From Stdlib Require Import Reals RealField Ring FunctionalExtensionality.
Import ListNotations.
Local Open Scope Z_scope.

(* ===================================================================== *)
(** ** Sample arithmetic *)
(* ===================================================================== *)

(** The operations the source applies to [float] values.  [of_int] is the
    implicit conversion of an [int] operand, [fltb a b] is [a < b] and
    [fleb a b] is [a <= b]. *)
Class Scalar (F : Type) : Type := {
  of_int : Z -> F;
  fadd : F -> F -> F;
  fsub : F -> F -> F;
  fmul : F -> F -> F;
  fdiv : F -> F -> F;
  fopp : F -> F;
  fabs : F -> F;
  fltb : F -> F -> bool;
  fleb : F -> F -> bool
}.

Declare Scope sc_scope.
Delimit Scope sc_scope with sc.
Infix "+" := fadd : sc_scope.
Infix "-" := fsub : sc_scope.
Infix "*" := fmul : sc_scope.
Infix "/" := fdiv : sc_scope.
Notation "- x" := (fopp x) : sc_scope.

(** [a > b] and [a >= b] of the source. *)
Definition fgtb {F} `{Scalar F} (a b : F) : bool := fltb b a.
Definition fgeb {F} `{Scalar F} (a b : F) : bool := fleb b a.

(** A decimal literal [n/d] written in the source ([0.1f] is [lit 1 10]).
    Numerator and denominator of every literal of the file are below 2^24, so
    both convert exactly and the correctly rounded quotient is the [float]
    nearest to the decimal. *)
Definition lit {F} `{Scalar F} (n d : Z) : F := (of_int n / of_int d)%sc.

(** *** binary32 *)

Definition float32 : Type := spec_float.

Definition f32_prec : Z := 24.
Definition f32_emax : Z := 128.

#[export] Instance float32_scalar : Scalar float32 := {
  of_int z := binary_normalize f32_prec f32_emax z 0 false;
  fadd := SFadd f32_prec f32_emax;
  fsub := SFsub f32_prec f32_emax;
  fmul := SFmul f32_prec f32_emax;
  fdiv := SFdiv f32_prec f32_emax;
  fopp := SFopp;
  fabs := SFabs;
  fltb := SFltb;
  fleb := SFleb
}.

(** The rational value of a finite binary32 number (zero for the others). *)
Definition f32_to_Q (x : float32) : Q :=
  match x with
  | S754_finite s m e =>
      let v := if 0 <=? e
               then inject_Z (Z.pos m * 2 ^ e)
               else Qmake (Z.pos m) (Z.to_pos (2 ^ (- e))) in
      if s then Qopp v else v
  | _ => 0%Q
  end.

Definition f32_is_finite (x : float32) : bool :=
  match x with
  | S754_finite _ _ _ | S754_zero _ => true
  | _ => false
  end.

Definition f32_is_zero (x : float32) : bool :=
  match x with S754_zero _ => true | _ => false end.

(** *** exact arithmetic *)

Definition Rltb (a b : R) : bool := if Rlt_dec a b then true else false.
Definition Rleb (a b : R) : bool := if Rle_dec a b then true else false.

#[export] Instance real_scalar : Scalar R := {
  of_int := IZR;
  fadd := Rplus;
  fsub := Rminus;
  fmul := Rmult;
  fdiv := Rdiv;
  fopp := Ropp;
  fabs := Rabs;
  fltb := Rltb;
  fleb := Rleb
}.

(* ===================================================================== *)
(** ** Counted loops *)
(* ===================================================================== *)

(** [for (int i = lo; i < hi; i++) s = body i s]. *)
Fixpoint for_from {S : Type} (n : nat) (i : Z) (body : Z -> S -> S) (s : S) : S :=
  match n with
  | O => s
  | Datatypes.S n' => for_from n' (i + 1) body (body i s)
  end.

Definition for_loop {S : Type} (lo hi : Z) (body : Z -> S -> S) (s : S) : S :=
  for_from (Z.to_nat (hi - lo)) lo body s.

(** A counted loop whose body may have no result: the loop then has none. *)
Definition for_loopO {S : Type} (lo hi : Z) (body : Z -> S -> option S) (s : S) : option S :=
  for_loop lo hi (fun i acc => match acc with Some s' => body i s' | None => None end)
           (Some s).

(* ===================================================================== *)
(** ** Images *)
(* ===================================================================== *)

(** Modelled from the spec: the pixel container ([Image], [Window]) is declared
    outside this translation unit.  It is a dense 4-dimensional array (width x
    height x frames x channels) of samples; [im(x, y, t)] yields a pointer to
    the channels of one pixel, and the rows are contiguous with the channels
    innermost, which is what [memcpy (ret(x, y, t), ..., sizeof(float) *
    channels * width)] in [applyPadding] relies on.  The buffer is a total
    function of the flat index; an access outside the allocation (undefined in
    C++) reads or writes the cell of that index. *)
Record Image (F : Type) : Type := mkImage {
  width : Z;
  height : Z;
  frames : Z;
  channels : Z;
  data : Z -> F
}.
Arguments mkImage {F} _ _ _ _ _.
Arguments width {F} _.
Arguments height {F} _.
Arguments frames {F} _.
Arguments channels {F} _.
Arguments data {F} _ _.

Definition xstride {F} (im : Image F) : Z := channels im.
Definition ystride {F} (im : Image F) : Z := width im * xstride im.
Definition tstride {F} (im : Image F) : Z := height im * ystride im.

(** The pointer [im(x, y, t)], as an index into the buffer. *)
Definition at3 {F} (im : Image F) (x y t : Z) : Z :=
  x * xstride im + y * ystride im + t * tstride im.

(** [im(x, y)] is [im(x, y, 0)]. *)
Definition at2 {F} (im : Image F) (x y : Z) : Z := at3 im x y 0.

(** [im(x, y, t)[c]] read. *)
Definition px {F} (im : Image F) (x y t c : Z) : F := data im (at3 im x y t + c).

Definition with_data {F} (im : Image F) (d : Z -> F) : Image F :=
  mkImage (width im) (height im) (frames im) (channels im) d.

(** One store [buf[i] = v]. *)
Definition upd {F} (d : Z -> F) (i : Z) (v : F) : Z -> F :=
  fun j => if j =? i then v else d j.

Definition in_range (lo hi v : Z) : bool := (lo <=? v) && (v <? hi).

(** Whether [(x, y, t)[c]] is a sample of [im]. *)
Definition has_px {F} (im : Image F) (x y t c : Z) : bool :=
  in_range 0 (width im) x && in_range 0 (height im) y &&
  in_range 0 (frames im) t && in_range 0 (channels im) c.

(** [im(x, y, t)[c] = v] at coordinates that are not bounded by a loop over
    the image.  The container does not check them: a store outside the
    allocation is undefined behaviour in C++, and has no result here. *)
Definition set_px {F} (im : Image F) (x y t c : Z) (v : F) : option (Image F) :=
  if has_px im x y t c
  then Some (with_data im (upd (data im) (at3 im x y t + c) v))
  else None.

(** Sequencing of steps that may have no result. *)
Declare Scope opt_scope.
Delimit Scope opt_scope with opt.
Notation "x <- m ;; k" :=
  (match m with Some x => k | None => None end)
  (at level 61, m at next level, right associativity) : opt_scope.

(** [memcpy (buf + dst, buf + src, n * sizeof(float))] on one buffer; the
    source and destination ranges of every call in the file are disjoint. *)
Definition memcpy {F} (d : Z -> F) (dst src n : Z) : Z -> F :=
  fun j => if (dst <=? j) && (j <? dst + n) then d (src + (j - dst)) else d j.

(** [Image (w, h, f, c)]: a fresh buffer of zeros. *)
Definition new_image {F} `{Scalar F} (w h f c : Z) : Image F :=
  mkImage w h f c (fun _ => of_int 0).

(** [im.copy ()]. *)
Definition copy {F} (im : Image F) : Image F := im.

(** Coordinates of a flat index of a [w] x [h] x frames x [c] buffer. *)
Definition chan_of (c j : Z) : Z := j mod c.
Definition col_of (w c j : Z) : Z := (j / c) mod w.
Definition row_of (w h c j : Z) : Z := (j / c / w) mod h.
Definition frame_of (w h c j : Z) : Z := j / c / w / h.

(** The flat index of a coordinate, the inverse of the four above. *)
Definition flat (w h c x y t k : Z) : Z := ((t * h + y) * w + x) * c + k.
(* ===================================================================== *)
(** ** Collaborators *)
(* ===================================================================== *)

(** [Convolve::BoundaryCondition], as far as the file names it. *)
Inductive BoundaryCondition : Type := Clamp | Wrap.

(** The operations of other translation units whose results the file only
    passes on.  The in-place transforms ([FFT::apply], [IFFT::apply]) keep the
    shape of their argument, so only the new buffer is a parameter;
    [crop_fill im x y t c] is the sample [Crop::apply] stores for a source
    coordinate outside [im]. *)
Class Collab (F : Type) : Type := {
  crop_fill : Image F -> Z -> Z -> Z -> Z -> F;
  fft_data : bool -> bool -> bool -> Image F -> Z -> F;
  ifft_data : bool -> bool -> bool -> Image F -> Z -> F;
  enlarge_kernel_data : Image F -> Z -> Z -> Z -> F;
  luma_data : Image F -> Z -> F;
  convolve_image : Image F -> Image F -> BoundaryCondition -> Image F
}.

Section Operations.
Context {F : Type} {SF : Scalar F} {CO : Collab F}.

(** [FFT::apply (im, x, y, t)] and [IFFT::apply (im, x, y, t)], in place. *)
Definition FFT (im : Image F) (tx ty tt : bool) : Image F :=
  with_data im (fft_data tx ty tt im).
Definition IFFT (im : Image F) (tx ty tt : bool) : Image F :=
  with_data im (ifft_data tx ty tt im).

(** The macros [FourierTransform(X)] and [InverseFourierTransform(X)]. *)
Definition FourierTransform (im : Image F) : Image F := FFT im true true false.
Definition InverseFourierTransform (im : Image F) : Image F := IFFT im true true false.

(** Modelled from the spec: [KernelEstimation::EnlargeKernel (K, w, h)], the
    kernel enlarged into a zero-padded image of canvas size, ready for the
    (complex, two-channel) forward transform. *)
Definition EnlargeKernel (K : Image F) (w h : Z) : Image F :=
  mkImage w h 1 2 (enlarge_kernel_data K w h).

(** Modelled from the spec: [ColorConvert::apply (B, "rgb", "y")], the
    single-channel luma of a 3-channel image. *)
Definition ColorConvert_rgb_y (B : Image F) : Image F :=
  mkImage (width B) (height B) (frames B) 1 (luma_data B).

(** Modelled from the spec: [Crop::apply (im, minX, minY, minT, w, h, f)], the
    crop/pad-with-offset of the container: a fresh [w] x [h] x [f] image with
    the channels of [im] whose sample at [(x, y, t)] is that of [im] at
    [(x + minX, y + minY, t + minT)], and [crop_fill] where that falls outside
    [im]. *)
Definition Crop (im : Image F) (minX minY minT w h f : Z) : Image F :=
  let c := channels im in
  mkImage w h f c (fun j =>
    let x := col_of w c j + minX in
    let y := row_of w h c j + minY in
    let t := frame_of w h c j + minT in
    let k := chan_of c j in
    if in_range 0 (width im) x && in_range 0 (height im) y && in_range 0 (frames im) t
    then px im x y t k
    else crop_fill im x y t k).

(** Modelled from the spec: [Crop::apply (im, minX, minY, w, h)], the crop
    in the plane; all frames are kept. *)
Definition Crop4 (im : Image F) (minX minY w h : Z) : Image F :=
  Crop im minX minY 0 w h (frames im).

(** Modelled from the spec: [Transpose::apply (im, 'c', 't')] exchanges the
    channel and the frame axes. *)
Definition Transpose_c_t (im : Image F) : Image F :=
  let w := width im in
  let h := height im in
  let c' := frames im in
  mkImage w h (channels im) c' (fun j =>
    px im (col_of w c' j) (row_of w h c' j) (chan_of c' j) (frame_of w h c' j)).

(** Modelled from the spec: [RealComplex::apply] interleaves a zero imaginary
    part after every sample; [ComplexReal::apply] keeps the real parts. *)
Definition RealComplex (im : Image F) : Image F :=
  mkImage (width im) (height im) (frames im) (2 * channels im)
    (fun j => if Z.even j then data im (j / 2) else of_int 0).

Definition ComplexReal (im : Image F) : Image F :=
  mkImage (width im) (height im) (frames im) (channels im / 2)
    (fun j => data im (2 * j)).

(** Complex numbers are pairs (real, imaginary) of adjacent samples. *)
Definition cplx : Type := (F * F)%type.

Definition cmul (a b : cplx) : cplx :=
  ((fst a * fst b - snd a * snd b)%sc, (fst a * snd b + snd a * fst b)%sc).
Definition cconj (a : cplx) : cplx := (fst a, (- snd a)%sc).
Definition cdiv (a b : cplx) : cplx :=
  let n := cmul a (cconj b) in
  let d := (fst b * fst b + snd b * snd b)%sc in
  ((fst n / d)%sc, (snd n / d)%sc).
Definition cadd (a b : cplx) : cplx := ((fst a + fst b)%sc, (snd a + snd b)%sc).
Definition cscale (w : F) (a : cplx) : cplx := ((fst a * w)%sc, (snd a * w)%sc).

(** The complex sample that holds flat index [j], and the part [j] is. *)
Definition cplx_at (d : Z -> F) (j : Z) : cplx :=
  let r := 2 * (j / 2) in (d r, d (r + 1)).
Definition part (j : Z) (z : cplx) : F := if Z.even j then fst z else snd z.

(** Modelled from the spec: the elementwise complex operations of the
    container ([ComplexMultiply::apply (a, b, conj)], [ComplexDivide::apply],
    [ComplexConjugate::apply]), in place on their first argument; the product
    is the one the source writes out in the last loop of [applyCho2009]. *)
Definition ComplexMultiply (a b : Image F) (conj : bool) : Image F :=
  with_data a (fun j =>
    let z := cplx_at (data b) j in
    part j (cmul (cplx_at (data a) j) (if conj then cconj z else z))).

Definition ComplexDivide (a b : Image F) (conj : bool) : Image F :=
  with_data a (fun j =>
    let z := cplx_at (data b) j in
    part j (cdiv (cplx_at (data a) j) (if conj then cconj z else z))).

Definition ComplexConjugate (a : Image F) : Image F :=
  with_data a (fun j => part j (cconj (cplx_at (data a) j))).

(** Modelled from the spec: the elementwise arithmetic of the container, in
    place on the first argument: [Add::apply (a, b)], its weighted form
    [Add::apply (a, b, w)], [Subtract::apply], [Scale::apply],
    [Offset::apply], [Multiply::apply (a, b, Elementwise)] and
    [Threshold::apply]. *)
Definition Add (a b : Image F) : Image F :=
  with_data a (fun j => (data a j + data b j)%sc).
Definition AddScaled (a b : Image F) (w : F) : Image F :=
  with_data a (fun j => (data a j + data b j * w)%sc).
Definition Subtract (a b : Image F) : Image F :=
  with_data a (fun j => (data a j - data b j)%sc).
Definition Scale (a : Image F) (w : F) : Image F :=
  with_data a (fun j => (data a j * w)%sc).
Definition Offset (a : Image F) (w : F) : Image F :=
  with_data a (fun j => (data a j + w)%sc).
Definition Multiply_elementwise (a b : Image F) : Image F :=
  with_data a (fun j => (data a j * data b j)%sc).
Definition Threshold (a : Image F) (v : F) : Image F :=
  with_data a (fun j => if fgtb (data a j) v then of_int 1 else of_int 0).

(** [Convolve::apply (im, filter, b)]. *)
Definition Convolve (im filter : Image F) (b : BoundaryCondition) : Image F :=
  convolve_image im filter b.

End Operations.

(* ===================================================================== *)
(** ** [Deconvolution::applyPadding] *)
(* ===================================================================== *)

Section Padding.
Context {F : Type} {SF : Scalar F} {CO : Collab F}.

(** The margin size: [alpha], [x_padding] and [y_padding] after the four
    conditional assignments (C's [/] on [int] truncates: [Z.quot]). *)
Definition padding_alpha (B : Image F) : Z :=
  let alpha := 1 in
  let alpha := if width B ÷ 3 <? alpha then width B ÷ 3 else alpha in
  let alpha := if height B ÷ 3 <? alpha then height B ÷ 3 else alpha in
  alpha.

Definition padding_x (B : Image F) : Z :=
  let alpha := padding_alpha B in
  let x_padding := width B ÷ 2 in
  if x_padding <? alpha * 3 then alpha * 3 else x_padding.

Definition padding_y (B : Image F) : Z :=
  let alpha := padding_alpha B in
  let y_padding := height B ÷ 2 in
  if y_padding <? alpha * 3 then alpha * 3 else y_padding.

(** The enlarged canvas [ret] as allocated. *)
Definition padding_canvas (B : Image F) : Image F :=
  Crop B (- padding_x B) (- padding_y B) 0
       (width B + padding_x B * 2) (height B + padding_y B * 2) (frames B).

(** The locals the passes update: the buffer of [ret] and the scratch row
    [prev] ([new float[B.channels]], written before it is read). *)
Record PadState : Type := mkPad { ret_buf : Z -> F; prev_buf : Z -> F }.

Definition set_ret (st : PadState) (i : Z) (v : F) : PadState :=
  mkPad (upd (ret_buf st) i v) (prev_buf st).
Definition set_prev (st : PadState) (c : Z) (v : F) : PadState :=
  mkPad (ret_buf st) (upd (prev_buf st) c v).
Definition copy_ret (st : PadState) (dst src n : Z) : PadState :=
  mkPad (memcpy (ret_buf st) dst src n) (prev_buf st).

(** [wing] of the two blur passes, for margin [pad] at position [i]:
    [0.1f + 0.2f * (1.f - fabs (pad * 0.5f - i) / (pad * 0.5f))]. *)
Definition blur_wing (pad i : Z) : F :=
  (lit 1 10 + lit 2 10 *
     (of_int 1 - fabs (of_int pad * lit 5 10 - of_int i) / (of_int pad * lit 5 10)))%sc.

Section Passes.
Variable B : Image F.
Variable cv : Image F.
Variables alpha x_padding y_padding : Z.
Variable t : Z.

Let W := width B.
Let H := height B.
Let C := channels B.
Let p (x y : Z) : Z := at3 cv x y t.

(** Populate the top 'A' region. *)
Definition pad_top_copy (st : PadState) : PadState :=
  for_loop 0 alpha (fun y st =>
    let realy := y in
    let st := copy_ret st (p x_padding realy)
                (p x_padding (y - alpha + H + y_padding)) (C * W) in
    copy_ret st (p x_padding (y_padding - alpha + realy))
             (p x_padding (y + y_padding)) (C * W)) st.

Definition pad_top_blend (st : PadState) : PadState :=
  for_loop alpha (y_padding - alpha) (fun y st =>
    (* interpolate towards the bottom boundary. *)
    let weight := (of_int 1 / of_int (y_padding - alpha - (y - 1)))%sc in
    let st :=
      for_loop x_padding (x_padding + W) (fun x st =>
        for_loop 0 C (fun c st =>
          set_ret st (p x y + c)
            (ret_buf st (p x (y - 1) + c) * (of_int 1 - weight)
             + ret_buf st (p x (y_padding - alpha) + c) * weight)%sc) st) st in
    (* Blur with neighbors, more increasingly at the center. *)
    let st := for_loop 0 C (fun c st =>
                set_prev st c (ret_buf st (p x_padding y + c))) st in
    let wing := blur_wing y_padding y in
    let center := (of_int 1 - wing * of_int 2)%sc in
    for_loop x_padding (x_padding + W - 1) (fun x st =>
      for_loop 0 C (fun c st =>
        let tmp := ret_buf st (p x y + c) in
        let st := set_ret st (p x y + c)
                    (prev_buf st c * wing + ret_buf st (p (x + 1) y + c) * wing
                     + tmp * center)%sc in
        set_prev st c tmp) st) st) st.

(** Populate the left 'C-B-C' region. *)
Definition pad_left_copy (st : PadState) : PadState :=
  for_loop 0 (H + y_padding * 2) (fun y st =>
    for_loop 0 alpha (fun x st =>
      let realx := x in
      for_loop 0 C (fun c st =>
        let st := set_ret st (p realx y + c)
                    (ret_buf st (p (W + x_padding - alpha + x) y + c)) in
        set_ret st (p (x_padding - alpha + realx) y + c)
                (ret_buf st (p (x_padding + x) y + c))) st) st) st.

Definition pad_left_blend (st : PadState) : PadState :=
  for_loop alpha (x_padding - alpha) (fun x st =>
    (* interpolate towards the right boundary. *)
    let weight := (of_int 1 / of_int (x_padding - alpha - (x - 1)))%sc in
    let st :=
      for_loop 0 (H + y_padding * 2) (fun y st =>
        for_loop 0 C (fun c st =>
          set_ret st (p x y + c)
            (ret_buf st (p (x - 1) y + c) * (of_int 1 - weight)
             + ret_buf st (p (x_padding - alpha) y + c) * weight)%sc) st) st in
    (* Blur with neighbors, more increasingly at the center. *)
    let st := for_loop 0 C (fun c st =>
                set_prev st c (ret_buf st (p x 0 + c))) st in
    let wing := blur_wing x_padding x in
    let center := (of_int 1 - wing * of_int 2)%sc in
    for_loop 0 (H + y_padding * 2 - 1) (fun y st =>
      for_loop 0 C (fun c st =>
        let tmp := ret_buf st (p x y + c) in
        let st := set_ret st (p x y + c)
                    (prev_buf st c * wing + ret_buf st (p x (y + 1) + c) * wing
                     + tmp * center)%sc in
        set_prev st c tmp) st) st) st.

(** Populate the right 'C-B-C' region. *)
Definition pad_right_copy (st : PadState) : PadState :=
  for_loop 0 (H + y_padding * 2) (fun y st =>
    copy_ret st (p (W + x_padding) y) (p 0 y) (C * x_padding)) st.

(** Populate the bottom 'A' region.  The brace opened by this loop closes
    after the right-hand copy, so the three column passes are part of its
    body. *)
Definition pad_bottom (st : PadState) : PadState :=
  for_loop 0 y_padding (fun y st =>
    let st := copy_ret st (p x_padding (y + H + y_padding)) (p x_padding y) (C * W) in
    let st := pad_left_copy st in
    let st := pad_left_blend st in
    pad_right_copy st) st.

(** The body of [for (int t = 0; t < B.frames; t++)]. *)
Definition pad_frame (st : PadState) : PadState :=
  pad_bottom (pad_top_blend (pad_top_copy st)).

End Passes.

(** [ret] after the loop over the frames, before the final crop. *)
Definition padding_filled (B : Image F) : Image F :=
  let alpha := padding_alpha B in
  let x_padding := padding_x B in
  let y_padding := padding_y B in
  let ret := padding_canvas B in
  let st := for_loop 0 (frames B)
              (fun t st => pad_frame B ret alpha x_padding y_padding t st)
              (mkPad (data ret) (fun _ => of_int 0)) in
  with_data ret (ret_buf st).

Definition applyPadding (B : Image F) : Image F :=
  let x_padding := padding_x B in
  let y_padding := padding_y B in
  let ret := padding_filled B in
  Crop ret (x_padding ÷ 2) (y_padding ÷ 2) 0
       (width B + x_padding) (height B + y_padding) (frames B).

(** Where the samples of [B] lie in [applyPadding B]: the canvas holds them at
    [(x_padding, y_padding)], and the final crop starts at half of that. *)
Definition padding_origin_x (B : Image F) : Z := padding_x B - padding_x B ÷ 2.
Definition padding_origin_y (B : Image F) : Z := padding_y B - padding_y B ÷ 2.

(** The margin as the specification words it. *)
Definition spec_alpha (W H : Z) : Z := Z.min (Z.min (W ÷ 3) (H ÷ 3)) 1.
Definition spec_pad (W H n : Z) : Z := Z.max (n ÷ 2) (3 * spec_alpha W H).

End Padding.

Arguments PadState : clear implicits.

(* ===================================================================== *)
(** ** Effects: failed assertions and files written *)
(* ===================================================================== *)

(** A run either finishes with a value, or stops at a failed [assert] (or
    [panic]), or reaches a store outside an allocation, from where C++ leaves
    its behaviour undefined; in each case it leaves the list of files written
    so far. *)
Inductive outcome (A : Type) : Type :=
| Done (a : A)
| Panic (msg : string)
| Undefined.
Arguments Done {A} _.
Arguments Panic {A} _.
Arguments Undefined {A}.

Definition Run (A : Type) : Type := list string -> outcome A * list string.

Definition ret {A} (a : A) : Run A := fun files => (Done a, files).

Definition bind {A B} (m : Run A) (k : A -> Run B) : Run B :=
  fun files =>
    match m files with
    | (Done a, files') => k a files'
    | (Panic msg, files') => (Panic msg, files')
    | (Undefined, files') => (Undefined, files')
    end.

Declare Scope run_scope.
Delimit Scope run_scope with run.
Notation "x <- m ;; k" := (bind m (fun x => k))
  (at level 61, m at next level, right associativity) : run_scope.
Notation "m ;; k" := (bind m (fun _ => k))
  (at level 61, right associativity) : run_scope.

(** Modelled from the spec: [assert (cond, msg)] of the code base, which
    stops the operation with a fatal error when [cond] is false. *)
Definition assert_ (cond : bool) (msg : string) : Run unit :=
  fun files => if cond then (Done tt, files) else (Panic msg, files).

(** A step that may have no result, within a run. *)
Definition defined {A} (o : option A) : Run A :=
  fun files =>
    match o with
    | Some a => (Done a, files)
    | None => (Undefined, files)
    end.

(** Modelled from the spec: [FileTMP::save (im, filename, type)], the
    checkpoint write of the file collaborator; only the name is recorded. *)
Definition FileTMP_save {F} (im : Image F) (filename type : string) : Run unit :=
  fun files => (Done tt, files ++ [filename]).

Fixpoint for_fromM {S : Type} (n : nat) (i : Z) (body : Z -> S -> Run S) (s : S) : Run S :=
  match n with
  | O => ret s
  | Datatypes.S n' => bind (body i s) (fun s' => for_fromM n' (i + 1) body s')
  end.

(** A counted loop whose body has effects. *)
Definition for_loopM {S : Type} (lo hi : Z) (body : Z -> S -> Run S) (s : S) : Run S :=
  for_fromM (Z.to_nat (hi - lo)) lo body s.

(** [sprintf (buf, "%02d", n)] for [0 <= n < 100]. *)
Definition digit (n : Z) : Ascii.ascii := Ascii.ascii_of_nat (48 + Z.to_nat n).
Definition fmt_02d (n : Z) : string :=
  String (digit (n / 10)) (String (digit (n mod 10)) EmptyString).

(** C's [a % b] on [int]. *)
Definition c_mod (a b : Z) : Z := Z.rem a b.

(** The two messages, without their line breaks. *)
Definition msg_shape : string :=
  "The kernel must be single-channel, and both the kernel and blurred image must be single-framed.".
Definition msg_odd : string := "The kernel dimensions must be odd.".

(** What both solvers require of their arguments. *)
Definition kernel_is_odd {F} (K : Image F) : bool :=
  (c_mod (width K) 2 =? 1) && (c_mod (height K) 2 =? 1).
Definition single_framed {F} (B K : Image F) : bool :=
  (channels K =? 1) && (frames K =? 1) && (frames B =? 1).

(* ===================================================================== *)
(** ** The derivative filter bank *)
(* ===================================================================== *)

Section Bank.
Context {F : Type} {SF : Scalar F}.
Local Open Scope opt_scope.

(** The [switch (i)] of [applyShan2008]: the weight [w_i] and the stencil
    written into the fresh image [FDeriv[i]]; no result when a tap falls outside
    the image. *)
Definition shan_stencil (i : Z) (FDeriv : Image F) : option (F * Image F) :=
  match i with
  | 0 => (* Original *)
      let w_i := of_int 50 in
      FDeriv <- set_px FDeriv 0 0 0 0 (of_int 1) ;;
      Some (w_i, FDeriv)
  | 1 => (* dx *)
      let w_i := of_int 25 in
      FDeriv <- set_px FDeriv 0 0 0 0 (- of_int 1)%sc ;;
      FDeriv <- set_px FDeriv 1 0 0 0 (of_int 1) ;;
      Some (w_i, FDeriv)
  | 2 => (* dxx *)
      let w_i := lit 125 10 in
      FDeriv <- set_px FDeriv 0 0 0 0 (of_int 1) ;;
      FDeriv <- set_px FDeriv 1 0 0 0 (- of_int 2)%sc ;;
      FDeriv <- set_px FDeriv 2 0 0 0 (of_int 1) ;;
      Some (w_i, FDeriv)
  | 3 => (* dy *)
      let w_i := of_int 25 in
      FDeriv <- set_px FDeriv 0 0 0 0 (- of_int 1)%sc ;;
      FDeriv <- set_px FDeriv 0 1 0 0 (of_int 1) ;;
      Some (w_i, FDeriv)
  | 4 => (* dyy *)
      let w_i := lit 125 10 in
      FDeriv <- set_px FDeriv 0 0 0 0 (of_int 1) ;;
      FDeriv <- set_px FDeriv 0 1 0 0 (- of_int 2)%sc ;;
      FDeriv <- set_px FDeriv 0 2 0 0 (of_int 1) ;;
      Some (w_i, FDeriv)
  | 5 => (* dxy *)
      let w_i := lit 125 10 in
      FDeriv <- set_px FDeriv 0 0 0 0 (of_int 1) ;;
      FDeriv <- set_px FDeriv 1 0 0 0 (of_int (-1)) ;;
      FDeriv <- set_px FDeriv 0 1 0 0 (of_int (-1)) ;;
      FDeriv <- set_px FDeriv 1 1 0 0 (of_int 1) ;;
      Some (w_i, FDeriv)
  | _ => Some (of_int 0, FDeriv)
  end.

(** The [switch (i)] of [applyCho2009]. *)
Definition cho_stencil (i : Z) (FDeriv : Image F) : option (F * Image F) :=
  match i with
  | 0 => (* Original *)
      let w_i := of_int 50 in
      FDeriv <- set_px FDeriv 0 0 0 0 (of_int 1) ;;
      Some (w_i, FDeriv)
  | 1 => (* dx *)
      let w_i := of_int 25 in
      FDeriv <- set_px FDeriv 0 0 0 0 (- of_int 1)%sc ;;
      FDeriv <- set_px FDeriv 1 0 0 0 (of_int 1) ;;
      Some (w_i, FDeriv)
  | 2 => (* dxx *)
      let w_i := lit 125 10 in
      FDeriv <- set_px FDeriv 0 0 0 0 (of_int 1) ;;
      FDeriv <- set_px FDeriv 1 0 0 0 (- of_int 2)%sc ;;
      FDeriv <- set_px FDeriv 2 0 0 0 (of_int 1) ;;
      Some (w_i, FDeriv)
  | 3 => (* dy *)
      let w_i := of_int 25 in
      FDeriv <- set_px FDeriv 0 0 0 0 (- of_int 1)%sc ;;
      FDeriv <- set_px FDeriv 0 1 0 0 (of_int 1) ;;
      Some (w_i, FDeriv)
  | 4 => (* dyy *)
      let w_i := lit 125 10 in
      FDeriv <- set_px FDeriv 0 0 0 0 (of_int 1) ;;
      FDeriv <- set_px FDeriv 0 1 0 0 (- of_int 2)%sc ;;
      FDeriv <- set_px FDeriv 0 2 0 0 (of_int 1) ;;
      Some (w_i, FDeriv)
  | 5 => (* dxy *)
      let w_i := lit 125 10 in
      FDeriv <- set_px FDeriv 0 0 0 0 (of_int 1) ;;
      FDeriv <- set_px FDeriv 1 0 0 0 (of_int (-1)) ;;
      FDeriv <- set_px FDeriv 0 1 0 0 (of_int (-1)) ;;
      FDeriv <- set_px FDeriv 1 1 0 0 (of_int 1) ;;
      Some (w_i, FDeriv)
  | _ => Some (of_int 0, FDeriv)
  end.

(** The bank as the specification tabulates it: for each index the taps
    (column, row, integer coefficient) in the order they are stored, and the
    weight as a fraction. *)
Definition bank_taps (i : Z) : list (Z * Z * Z) :=
  match i with
  | 0 => [(0, 0, 1)]
  | 1 => [(0, 0, -1); (1, 0, 1)]
  | 2 => [(0, 0, 1); (1, 0, -2); (2, 0, 1)]
  | 3 => [(0, 0, -1); (0, 1, 1)]
  | 4 => [(0, 0, 1); (0, 1, -2); (0, 2, 1)]
  | 5 => [(0, 0, 1); (1, 0, -1); (0, 1, -1); (1, 1, 1)]
  | _ => []
  end.

Definition bank_weight (i : Z) : Z * Z :=
  match i with
  | 0 => (50, 1)
  | 1 => (25, 1)
  | 2 => (25, 2)
  | 3 => (25, 1)
  | 4 => (25, 2)
  | 5 => (25, 2)
  | _ => (0, 1)
  end.

Definition place_taps (taps : list (Z * Z * Z)) (im : Image F) : option (Image F) :=
  fold_left (fun acc tap =>
               match tap with
               | (x, y, v) => im <- acc ;; set_px im x y 0 0 (of_int v)
               end)
            taps (Some im).

Definition bank_entry (i w h : Z) : option (F * Image F) :=
  im <- place_taps (bank_taps i) (new_image w h 1 2) ;;
  Some (lit (fst (bank_weight i)) (snd (bank_weight i)), im).

(** The coefficient the table gives filter [i] at the offset [(x, y)]. *)
Definition tap_at (i x y : Z) : Z :=
  fold_left (fun acc tap =>
               match tap with
               | (tx, ty, v) => if (tx =? x) && (ty =? y) then v else acc
               end)
            (bank_taps i) 0.

(** Filter [i] of the table as a sparse two-channel image on a [w] x [h]
    canvas: the coefficient of each tap in channel 0 of the pixel at its
    offset, zero everywhere else; and its weight. *)
Definition table_stencil (w h i : Z) : Image F :=
  mkImage w h 1 2 (fun j =>
    if (chan_of 2 j =? 0) && (frame_of w h 2 j =? 0)
    then of_int (tap_at i (col_of w 2 j) (row_of w h 2 j))
    else of_int 0).
Definition table_weight (i : Z) : F :=
  lit (fst (bank_weight i)) (snd (bank_weight i)).

End Bank.

(* ===================================================================== *)
(** ** The iterative solver: schedule and Psi update *)
(* ===================================================================== *)

Section PsiUpdate.
Context {F : Type} {SF : Scalar F}.

(** The continuation schedule: [lambda_1], [lambda_2] and [gamma]. *)
Record Schedule : Type := mkSchedule { lambda_1 : F; lambda_2 : F; gamma : F }.

(** [float lambda_1 = 0.1f, lambda_2 = 15.f; ... float gamma = 2.0f;] *)
Definition initial_schedule : Schedule :=
  mkSchedule (lit 1 10) (of_int 15) (of_int 2).

(** [lambda_1 /= 1.2f; lambda_2 /= 1.5f; gamma *= 2.f;] *)
Definition next_schedule (s : Schedule) : Schedule :=
  mkSchedule (lambda_1 s / lit 12 10)%sc (lambda_2 s / lit 15 10)%sc
             (gamma s * of_int 2)%sc.

Definition MAX_ITERATION : Z := 2.

(** The schedule in force when round [n + 1] starts. *)
Fixpoint schedule_after (n : nat) : Schedule :=
  match n with
  | O => initial_schedule
  | Datatypes.S n' => next_schedule (schedule_after n')
  end.

(** Non-linear prior for gradient: [k = 2.7f], [a = 0.00061f], [b = 5.0f],
    [lt = 1.85263f], then [k *= 255.f; a *= 255.f * 255.f; lt /= 255.f]. *)
Definition prior_k : F := (lit 27 10 * of_int 255)%sc.
Definition prior_a : F := (lit 61 100000 * (of_int 255 * of_int 255))%sc.
Definition prior_b : F := of_int 5.
Definition prior_lt : F := (lit 185263 100000 / of_int 255)%sc.

(** The locals [fscore], [ans_x] (or [ans_y]) and [fscore_valid]. *)
Record Choice : Type := mkChoice { fscore : F; ans : F; fscore_valid : bool }.

(** [if (feasible && (!fscore_valid || fscore > tmpscore))
       { fscore = tmpscore; ans = tmp; fscore_valid = true; }] *)
Definition takes (feasible : bool) (tmpscore : F) (s : Choice) : bool :=
  feasible && (negb (fscore_valid s) || fgtb (fscore s) tmpscore).

Definition consider (feasible : bool) (tmp tmpscore : F) (s : Choice) : Choice :=
  if takes feasible tmpscore s then mkChoice tmpscore tmp true else s.

Section Pixel.
Variable sch : Schedule.
Variables dL dI sm : F.

Let gamma := gamma sch.
Let lambda_1 := lambda_1 sch.
Let lambda_2 := lambda_2 sch.
Let k := prior_k.
Let a := prior_a.
Let b := prior_b.
Let lt := prior_lt.

(** The two terms every score starts with. *)
Definition fit (tmp : F) : F :=
  (gamma * (tmp - dL) * (tmp - dL) + lambda_2 * (tmp - dI) * (tmp - dI) * sm)%sc.

(** 1) Quadratic region. *)
Definition quadratic_point : F :=
  ((gamma * dL + lambda_2 * dI * sm) / (gamma + lambda_2 - a * lambda_1))%sc.
Definition quadratic_score : F :=
  let tmp := quadratic_point in
  (fit tmp + lambda_1 * (- (a * tmp * tmp + b)))%sc.
Definition quadratic_feasible : bool := fgtb (fabs quadratic_point) lt.

(** 2) Positive linear region. *)
Definition pos_linear_point : F :=
  ((gamma * dL + lambda_2 * dI * sm + lambda_1 * k) / (gamma + lambda_2))%sc.
Definition pos_linear_score : F :=
  let tmp := pos_linear_point in
  (fit tmp + lambda_1 * (- k * tmp))%sc.
Definition pos_linear_feasible : bool :=
  fgeb pos_linear_point (of_int 0) && fleb pos_linear_point lt.

(** 3) Negative linear region. *)
Definition neg_linear_point : F :=
  ((gamma * dL + lambda_2 * dI * sm - lambda_1 * k) / (gamma + lambda_2))%sc.
Definition neg_linear_score : F :=
  let tmp := neg_linear_point in
  (fit tmp + lambda_1 * (k * tmp))%sc.
Definition neg_linear_feasible : bool :=
  fgeb neg_linear_point (of_int 0) && fleb neg_linear_point lt.

(** 4) Zero, 5) lt, 6) -lt. *)
Definition zero_score : F := fit (of_int 0).
Definition plus_lt_score : F := (fit lt - lambda_1 * (- k * lt))%sc.
Definition minus_lt_score : F := (fit (- lt)%sc - lambda_1 * (k * lt))%sc.

(** The six blocks, in the order of the source. *)
Definition try_quadratic (s : Choice) : Choice :=
  consider quadratic_feasible quadratic_point quadratic_score s.
Definition try_pos_linear (s : Choice) : Choice :=
  consider pos_linear_feasible pos_linear_point pos_linear_score s.
Definition try_neg_linear (s : Choice) : Choice :=
  consider neg_linear_feasible neg_linear_point neg_linear_score s.
Definition try_zero (s : Choice) : Choice :=
  consider true (of_int 0) zero_score s.
Definition try_plus_lt (s : Choice) : Choice :=
  consider true lt plus_lt_score s.
Definition try_minus_lt (s : Choice) : Choice :=
  consider true (- lt)%sc minus_lt_score s.

(** The body of the pixel loop up to the store [Psi (x, y)[0] = ans]; [s]
    holds what the locals were left with by the previous pixel.  The source
    writes this body twice, once on [dLdx], [dIdx] for [Psi_x] and once on
    [dLdy], [dIdy] for [Psi_y], with the same statements. *)
Definition psi_pixel (s : Choice) : Choice :=
  let s := mkChoice (fscore s) (ans s) false in
  try_minus_lt (try_plus_lt (try_zero
    (try_neg_linear (try_pos_linear (try_quadratic s))))).

End Pixel.

(** The state of the locals when the third block is reached. *)
Definition before_neg_linear (sch : Schedule) (dL dI sm : F) (s : Choice) : Choice :=
  try_pos_linear sch dL dI sm
    (try_quadratic sch dL dI sm (mkChoice (fscore s) (ans s) false)).

End PsiUpdate.

Arguments Schedule : clear implicits.
Arguments Choice : clear implicits.

(* ===================================================================== *)
(** ** [Deconvolution::applyCho2009] *)
(* ===================================================================== *)

Section Solvers.
Context {F : Type} {SF : Scalar F} {CO : Collab F}.
Local Open Scope run_scope.

(** The body of [for (int i = 0; i <= 5; i++)]: the running sums are
    [(SumDeriv, SumGrad)]. *)
Definition cho_accumulate (w h : Z) (i : Z) (sums : Image F * Image F)
    : option (Image F * Image F) :=
  let SumDeriv := fst sums in
  let SumGrad := snd sums in
  let FDeriv := new_image w h 1 2 in
  (stencil <- cho_stencil i FDeriv ;;
   let w_i := fst stencil in
   let FDeriv := snd stencil in
   let FDeriv := FFT FDeriv true true false in
   let FDeriv2 := copy FDeriv in
   let FDeriv2 := ComplexMultiply FDeriv2 FDeriv true in
   let SumGrad := if (i =? 1) || (i =? 3) then Add SumGrad FDeriv2 else SumGrad in
   let FDeriv2 := Scale FDeriv2 w_i in
   let SumDeriv := Add SumDeriv FDeriv2 in
   Some (SumDeriv, SumGrad))%opt.

(** [float alpha = 1.f; // TODO] *)
Definition cho_alpha : F := of_int 1.

(** The loops over [t], [y] and [x] that multiply every bin of [FB] by the
    bin of [FK]; [FB] keeps its shape, so the loop state is its buffer.
    [re], [im] are the cells [FB(x, y, t)[0]], [FB(x, y, t)[1]] and [kre],
    [kim] the cells [FK(x, y)[0]], [FK(x, y)[1]]. *)
Definition cho_apply_factor (B FB FK : Image F) : Image F :=
  with_data FB
    (for_loop 0 (channels B) (fun t (d : Z -> F) =>
       for_loop 0 (height B) (fun y (d : Z -> F) =>
         for_loop 0 (width B) (fun x (d : Z -> F) =>
           let re := (at3 FB x y t + 0)%Z in
           let im := (at3 FB x y t + 1)%Z in
           let kre := (at2 FK x y + 0)%Z in
           let kim := (at2 FK x y + 1)%Z in
           let tmp := (d re * data FK kre - d im * data FK kim)%sc in
           let d := upd d im (d re * data FK kim + d im * data FK kre)%sc in
           upd d re tmp) d) d) (data FB)).

(** [FB] as it is handed to the inverse transform. *)
Definition cho_spectrum (B K : Image F) : option (Image F) :=
  let alpha := cho_alpha in
  let FK := EnlargeKernel K (width B) (height B) in
  let FB := RealComplex (Transpose_c_t B) in
  let FK := FFT FK true true false in
  let FB := FFT FB true true false in
  let FK2 := copy FK in
  let FK2 := ComplexMultiply FK2 FK true in
  let SumDeriv := new_image (width B) (height B) 1 2 in
  let SumGrad := new_image (width B) (height B) 1 2 in
  (sums <- for_loopO 0 6 (cho_accumulate (width B) (height B)) (SumDeriv, SumGrad) ;;
   let SumDeriv := fst sums in
   let SumGrad := snd sums in
   let SumGrad := Scale SumGrad alpha in
   let FK := ComplexConjugate FK in
   let FK := ComplexMultiply FK SumDeriv false in
   let FK2 := ComplexMultiply FK2 SumDeriv false in
   let FK2 := Add FK2 SumGrad in
   let FK := ComplexDivide FK FK2 false in (* FK contains the running result. *)
   Some (cho_apply_factor B FB FK))%opt.

Definition applyCho2009 (Blurred K : Image F) : Run (Image F) :=
  assert_ (kernel_is_odd K) msg_odd ;;
  assert_ (single_framed Blurred K) msg_shape ;;
  let B := applyPadding Blurred in
  FileTMP_save B "padded.tmp" "float" ;;
  FB <- defined (cho_spectrum B K) ;;
  let FB := IFFT FB true true false in
  let x_padding := (width B - width Blurred) ÷ 2 in
  let y_padding := (height B - height Blurred) ÷ 2 in
  ret (Crop (Transpose_c_t (ComplexReal FB)) x_padding y_padding 0
            (width Blurred) (height Blurred) (frames Blurred)).

(** *** The closed form as the specification writes it *)

(** One frequency bin of a two-channel image. *)
Definition bin (im : Image F) (x y t : Z) : cplx :=
  (px im x y t 0, px im x y t 1).

(** [|z|^2], kept as a complex number. *)
Definition cnorm2 (z : cplx) : cplx := cmul z (cconj z).

Definition czero : cplx := (of_int 0, of_int 0).

(** [F(deriv_i)] and [w_i] on a [w] x [h] canvas, for the filters and
    weights of the specification's table. *)
Definition bank_spectrum (w h i : Z) : Image F :=
  FFT (table_stencil w h i) true true false.
Definition bank_w (i : Z) : F := table_weight i.

(** [sum_i w_i |F(deriv_i)|^2] and [|F(dx)|^2 + |F(dy)|^2] at one bin. *)
Definition sum_deriv (w h x y : Z) : cplx :=
  fold_left (fun acc i => cadd acc (cscale (bank_w i) (cnorm2 (bin (bank_spectrum w h i) x y 0))))
            [0; 1; 2; 3; 4; 5] czero.
Definition sum_grad (w h x y : Z) : cplx :=
  cadd (cadd czero (cnorm2 (bin (bank_spectrum w h 1) x y 0)))
       (cnorm2 (bin (bank_spectrum w h 3) x y 0)).

(** [F(L)] at bin [(x, y)] of channel [t]:
    [F(K)^T F(B) sum_i w_i |F(deriv_i)|^2] divided by
    [|F(K)|^2 sum_i w_i |F(deriv_i)|^2 + alpha (|F(dx)|^2 + |F(dy)|^2)]. *)
Definition closed_form (B K : Image F) (x y t : Z) : cplx :=
  let alpha := cho_alpha in
  let w := width B in
  let h := height B in
  let FK := bin (FFT (EnlargeKernel K w h) true true false) x y 0 in
  let FB := bin (FFT (RealComplex (Transpose_c_t B)) true true false) x y t in
  let S := sum_deriv w h x y in
  let G := sum_grad w h x y in
  cdiv (cmul (cmul (cconj FK) FB) S)
       (cadd (cmul (cnorm2 FK) S) (cscale alpha G)).

(** The same with the kernel-dependent factor formed first, as the code
    evaluates it. *)
Definition kernel_factor (B K : Image F) (x y : Z) : cplx :=
  let alpha := cho_alpha in
  let w := width B in
  let h := height B in
  let FK := bin (FFT (EnlargeKernel K w h) true true false) x y 0 in
  let S := sum_deriv w h x y in
  let G := sum_grad w h x y in
  cdiv (cmul (cconj FK) S) (cadd (cmul (cnorm2 FK) S) (cscale alpha G)).

End Solvers.

(* ===================================================================== *)
(** ** [Deconvolution::applyShan2008] *)
(* ===================================================================== *)

Section Shan.
Context {F : Type} {SF : Scalar F} {CO : Collab F}.
Local Open Scope run_scope.

(** An [Image] declared without arguments ([Image L, FPsi_x, FPsi_y;]). *)
Definition no_image : Image F := mkImage 0 0 0 0 (fun _ => of_int 0).

(** Compute the smoothness map. *)
Definition shan_smoothness_map (Bgray K B_large : Image F) (x_padding y_padding : Z) : Image F :=
  let filter_x := new_image (width K) 1 1 1 in
  let filter_y := new_image 1 (height K) 1 1 in
  let filter_x := Offset filter_x (of_int 1 / of_int (width K))%sc in
  let filter_y := Offset filter_y (of_int 1 / of_int (height K))%sc in
  let filter_x := if c_mod (width K) 2 =? 0
                  then Crop4 filter_x 0 0 (width K + 1) 1 else filter_x in
  let filter_y := if c_mod (height K) 2 =? 0
                  then Crop4 filter_y 0 0 1 (height K + 1) else filter_y in
  let tmp := Convolve (Convolve Bgray filter_x Clamp) filter_y Clamp in
  let tmp := Multiply_elementwise tmp tmp in
  let smoothness_map := copy Bgray in
  let smoothness_map := Multiply_elementwise smoothness_map smoothness_map in
  let smoothness_map :=
    Convolve (Convolve smoothness_map filter_x Clamp) filter_y Clamp in
  let smoothness_map := Subtract smoothness_map tmp in
  let smoothness_map := Scale smoothness_map (- of_int 1)%sc in
  let smoothness_map :=
    Threshold smoothness_map (- of_int 25 / (of_int 256 * of_int 256))%sc in
  Crop smoothness_map (- x_padding) (- y_padding) 0 (width B_large) (height B_large) 1.

(** What the loop over the six derivative filters leaves behind. *)
Record ShanBank : Type := mkShanBank {
  FDeriv : Z -> Image F;
  denominator_base : Image F;
  numerator_base : Image F
}.

(** The body of [for (int i = 0; i <= 5; i++)]. *)
Definition shan_accumulate (B_large K_large FK2 : Image F) (i : Z) (st : ShanBank)
    : option ShanBank :=
  let FD := new_image (width B_large) (height B_large) 1 2 in
  (stencil <- shan_stencil i FD ;;
   let w_i := fst stencil in
   let FD := snd stencil in
   let FD := FourierTransform FD in
   let tmp := copy FD in
   let FD := ComplexConjugate FD in (* FDeriv[i] = F(deriv_i)^T *)
   let tmp := ComplexMultiply tmp FD false in (* tmp = |F(deriv_i)|^2 *)
   let tmq := copy tmp in
   let tmp := ComplexMultiply tmp FK2 false in
   let tmq := ComplexMultiply tmq K_large false in
   let tmq := ComplexMultiply tmq B_large false in
   Some (mkShanBank (fun j => if j =? i then FD else FDeriv st j)
                    (AddScaled (denominator_base st) tmp w_i)
                    (AddScaled (numerator_base st) tmq w_i)))%opt.

(** The Psi loop of one axis: [dL], [dI] are the derivative images of that
    axis; the state is the buffer of [Psi] and the locals. *)
Definition psi_pass (sch : Schedule F) (B_large dL dI smoothness_map Psi : Image F)
    (s : Choice F) : Image F * Choice F :=
  let r :=
    for_loop 0 (height B_large) (fun y (st : (Z -> F) * Choice F) =>
      for_loop 0 (width B_large) (fun x (st : (Z -> F) * Choice F) =>
        let s := psi_pixel sch (data dL (at2 dL x y + 0))
                   (data dI (at2 dI x y + 0))
                   (data smoothness_map (at2 smoothness_map x y + 0)) (snd st) in
        (upd (fst st) (at2 Psi x y + 0) (ans s), s)) st) (data Psi, s) in
  (with_data Psi (fst r), snd r).

(** Append the variable terms. *)
Definition shan_variable_terms (gamma : F) (B_large FD1 FD3 FPsi_x FPsi_y : Image F)
    (nd : (Z -> F) * (Z -> F)) (numerator denominator : Image F) : (Z -> F) * (Z -> F) :=
  for_loop 0 (height B_large) (fun y (nd : (Z -> F) * (Z -> F)) =>
    for_loop 0 (width B_large) (fun x (nd : (Z -> F) * (Z -> F)) =>
      let num := fst nd in
      let den := snd nd in
      let d1r := data FD1 (at2 FD1 x y + 0) in
      let d1i := data FD1 (at2 FD1 x y + 1) in
      let d3r := data FD3 (at2 FD3 x y + 0) in
      let d3i := data FD3 (at2 FD3 x y + 1) in
      let den := upd den (at2 denominator x y + 0)
                   (den (at2 denominator x y + 0)%Z + gamma * (d1r * d1r + d1i * d1i))%sc in
      let den := upd den (at2 denominator x y + 0)
                   (den (at2 denominator x y + 0)%Z + gamma * (d3r * d3r + d3i * d3i))%sc in
      let num := upd num (at2 numerator x y + 0)
                   (num (at2 numerator x y + 0)%Z
                    + gamma * (d1r * data FPsi_x (at2 FPsi_x x y + 0)
                               - d1i * data FPsi_x (at2 FPsi_x x y + 1)))%sc in
      let num := upd num (at2 numerator x y + 0)
                   (num (at2 numerator x y + 0)%Z
                    + gamma * (d3r * data FPsi_y (at2 FPsi_y x y + 0)
                               - d3i * data FPsi_y (at2 FPsi_y x y + 1)))%sc in
      (num, den)) nd) nd.

(** The variables that live across the rounds. *)
Record ShanState : Type := mkShanState {
  L : Image F;
  Psi_x : Image F;
  Psi_y : Image F;
  schedule : Schedule F
}.

(** The body of [for (int iterations = 1; iterations <= MAX_ITERATION;
    iterations++)].  The locals [ans_x], [ans_y], [fscore] and [fscore_valid]
    are declared, without a value, at the top of the body; the Psi_y loop finds
    [fscore] as the Psi_x loop left it. *)
Definition shan_round (B_large smoothness_map dIdx dIdy : Image F) (bank : ShanBank)
    (iterations : Z) (st : ShanState) : Run ShanState :=
  let sch := schedule st in
  (* Optimize over Psi *)
  let dLdx := Convolve (L st) (Crop4 (FDeriv bank 1) (-1) 0 3 1) Wrap in
  let dLdy := Convolve (L st) (Crop4 (FDeriv bank 3) 0 (-1) 1 3) Wrap in
  let unset := of_int 0 in
  let rx := psi_pass sch B_large dLdx dIdx smoothness_map (Psi_x st)
              (mkChoice unset unset false) in
  let Psi_x := fst rx in
  let ry := psi_pass sch B_large dLdy dIdy smoothness_map (Psi_y st)
              (mkChoice (fscore (snd rx)) unset (fscore_valid (snd rx))) in
  let Psi_y := fst ry in
  let FPsi_x := FourierTransform (copy Psi_x) in
  let FPsi_y := FourierTransform (copy Psi_y) in
  (* Optimize over L *)
  let denominator := copy (denominator_base bank) in
  let numerator := copy (numerator_base bank) in
  let nd := shan_variable_terms (gamma sch) B_large (FDeriv bank 1) (FDeriv bank 3)
              FPsi_x FPsi_y (data numerator, data denominator) numerator denominator in
  let numerator := with_data numerator (fst nd) in
  let denominator := with_data denominator (snd nd) in
  let numerator := ComplexDivide numerator denominator false in
  let numerator := InverseFourierTransform numerator in
  let L := ComplexReal numerator in
  let filename := ("output" ++ fmt_02d iterations ++ ".tmp")%string in
  FileTMP_save L filename "float" ;;
  (* Bookkeeping *)
  ret (mkShanState L Psi_x Psi_y (next_schedule sch)).

(** The working canvas of the iterative solver. *)
Definition shan_gray (B : Image F) : Image F :=
  if channels B =? 3 then ColorConvert_rgb_y B else B.

Definition applyShan2008 (B K : Image F) : Run (Image F) :=
  assert_ (single_framed B K) msg_shape ;;
  assert_ (kernel_is_odd K) msg_odd ;;
  (* Prepare constants and images. *)
  let Bgray := shan_gray B in
  let B_large := applyPadding Bgray in
  let K_large := EnlargeKernel K (width B_large) (height B_large) in
  let x_padding := (width B_large - width B) ÷ 2 in
  let y_padding := (height B_large - height B) ÷ 2 in
  let smoothness_map := shan_smoothness_map Bgray K B_large x_padding y_padding in
  (* Prepare Fourier domain stuff. *)
  let K_large := FourierTransform K_large in (* K_large = F(K). *)
  let FK2 := copy K_large in
  let K_large := ComplexConjugate K_large in (* K_large = F(K)^T. *)
  let FK2 := ComplexMultiply FK2 K_large false in (* FK2 = |F(K)|^2. *)
  let B_large := RealComplex B_large in
  let B_large := FourierTransform B_large in
  let numerator_base := new_image (width B_large) (height B_large) 1 2 in
  let denominator_base := new_image (width B_large) (height B_large) 1 2 in
  bank <- defined (for_loopO 0 6 (shan_accumulate B_large K_large FK2)
                     (mkShanBank (fun _ => no_image) denominator_base numerator_base)) ;;
  let dIdx := Convolve B_large (Crop4 (FDeriv bank 1) (-1) 0 3 1) Wrap in
  let dIdy := Convolve B_large (Crop4 (FDeriv bank 3) 0 (-1) 1 3) Wrap in
  let Psi_x := new_image (width B_large) (height B_large) 1 2 in
  let Psi_y := new_image (width B_large) (height B_large) 1 2 in
  st <- for_loopM 1 (MAX_ITERATION + 1)
          (shan_round B_large smoothness_map dIdx dIdy bank)
          (mkShanState no_image Psi_x Psi_y initial_schedule) ;;
  (* Crop L as before. *)
  let L := Crop4 (L st) x_padding y_padding (width B) (height B) in
  ret L.

(** The canvas the rounds work on. *)
Definition shan_canvas (B : Image F) : Image F := applyPadding (shan_gray B).

End Shan.

Arguments ShanBank : clear implicits.
Arguments ShanState : clear implicits.

(* ===================================================================== *)
(** ** Sample collaborators and inputs *)
(* ===================================================================== *)

(** Stand-ins for the collaborators, used to run the solvers on concrete
    inputs: zero fill, transforms that leave the buffer alone, a kernel
    enlarged to a unit impulse, the first channel as luma, no convolution. *)
Definition sample_collab {F} `{Scalar F} : Collab F := {|
  crop_fill := fun _ _ _ _ _ => of_int 0;
  fft_data := fun _ _ _ im => data im;
  ifft_data := fun _ _ _ im => data im;
  enlarge_kernel_data := fun _ _ _ j => if j =? 0 then of_int 1 else of_int 0;
  luma_data := fun B j => data B (3 * j);
  convolve_image := fun im _ _ => im
|}.

(** A [w] x [h] image with [c] channels whose samples are 1, 2, 3, ... in
    buffer order, and a 1 x 1 kernel of value 1. *)
Definition ramp {F} `{Scalar F} (w h f c : Z) : Image F :=
  mkImage w h f c (fun j => of_int (j + 1)).
Definition unit_kernel {F} `{Scalar F} : Image F :=
  mkImage 1 1 1 1 (fun _ => of_int 1).
(** A 2 x 3 kernel (even width). *)
Definition even_kernel {F} `{Scalar F} : Image F :=
  mkImage 2 3 1 1 (fun _ => of_int 1).

(* ===================================================================== *)
(** ** Reading binary32 results *)
(* ===================================================================== *)

(** [x] is within the relative tolerance [tol] of the decimal [q]. *)
Definition close_to (x : float32) (q tol : Q) : bool :=
  f32_is_finite x && Qle_bool (Qabs (f32_to_Q x - q)) (Qabs q * tol).

(** The tolerance of a value quoted with three significant digits. *)
Definition three_digits : Q := 1 # 1000.

(** The locals before the first pixel of a round. *)
Definition unset_choice : Choice float32 := mkChoice (of_int 0) (of_int 0) false.

(** A pixel of the first round on which the third block wins:
    [dL = 88395.625 = 707165/8], [dI = -11781.48828125 = -3016061/256],
    smoothness 1. *)
Definition steep_dL : float32 := Eval vm_compute in fdiv (of_int 707165) (of_int 8).
Definition steep_dI : float32 := Eval vm_compute in fdiv (of_int (-3016061)) (of_int 256).

(** A derivative for which the third candidate is feasible in the first
    round: [dL = 34.4375 = 551/16], with [dI] and the smoothness 0. *)
Definition gentle_dL : float32 := Eval vm_compute in fdiv (of_int 551) (of_int 16).

(** A one-pixel image holding [v] in every channel, and the Psi pass of one
    axis over a one-pixel canvas whose derivative images hold [dL], [dI] and
    whose smoothness map holds [sm]. *)
Definition one_pixel {F} (c : Z) (v : F) : Image F := mkImage 1 1 1 c (fun _ => v).
Definition psi_pass_one_pixel (sch : Schedule float32) (dL dI sm : float32) : float32 :=
  px (fst (psi_pass sch (one_pixel 2 (of_int 0)) (one_pixel 1 dL) (one_pixel 1 dI)
             (one_pixel 1 sm) (new_image 1 1 1 2) unset_choice)) 0 0 0 0.

(** The arguments both solvers accept: an odd single-channel single-frame
    kernel and a single-frame blurred image. *)
Definition valid_input {F} (Blurred K : Image F) : Prop :=
  0 < width K /\ 0 < height K /\
  Z.odd (width K) = true /\ Z.odd (height K) = true /\
  channels K = 1 /\ frames K = 1 /\ frames Blurred = 1.

(** The arguments the specification says are rejected. *)
Definition rejected_input {F} (Blurred K : Image F) : Prop :=
  Z.even (width K) = true \/ Z.even (height K) = true \/
  1 < channels K \/ 1 < frames K \/ 1 < frames Blurred.


(* ===================================================================== *)
(** ** Predicates used by the proofs *)
(* ===================================================================== *)

(** [f] updates a buffer locally to the cells [own]: it changes no other
    cell, and the new value of an owned cell depends on owned cells only. *)
Definition local_update {F} (own : Z -> Prop) (f : (Z -> F) -> (Z -> F)) : Prop :=
  (forall d j, ~ own j -> f d j = d j) /\
  (forall d d' j, own j -> (forall j', own j' -> d j' = d' j') -> f d j = f d' j).

(** The complex sample number [m] of a buffer of (real, imaginary) pairs. *)
Definition cbin {F} (d : Z -> F) (m : Z) : F * F := (d (2 * m), d (2 * m + 1)).

(** The two cells of bin [(x, y, t)] of a two-channel image. *)
Definition bin_cells {F} (im : Image F) (x y t : Z) (j : Z) : Prop :=
  j = at3 im x y t + 0 \/ j = at3 im x y t + 1.

(** The buffer of [st] agrees with [d0] on every sample of the image [B]
    embedded at [(x_padding, y_padding)] in the canvas [cv]. *)
Definition keeps {F} (B cv : Image F) (x_padding y_padding : Z) (d0 : Z -> F)
    (st : PadState F) : Prop :=
  forall x y t c,
    0 <= x < width B -> 0 <= y < height B -> 0 <= c < channels B ->
    ret_buf st (at3 cv (x_padding + x) (y_padding + y) t + c)
    = d0 (at3 cv (x_padding + x) (y_padding + y) t + c).

(** A coordinate of the canvas that is not one of the embedded image. *)
Definition in_margin {F} (B cv : Image F) (x_padding y_padding : Z) (x y : Z) : Prop :=
  0 <= x < width cv /\ 0 <= y < height cv /\
  (x < x_padding \/ x_padding + width B <= x \/
   y < y_padding \/ y_padding + height B <= y).


(* ===================================================================== *)
(** ** [Deconvolution::parse] *)
(* ===================================================================== *)

Section Parse.
Context {F : Type} {SF : Scalar F} {CO : Collab F}.
Local Open Scope run_scope.

(** The messages of [parse], without their line breaks. *)
Definition msg_args : string := "-deconvolution takes exactly one argument.".
Definition msg_unknown (method : string) : string := ("Unknown method " ++ method)%string.

(** Modelled from the spec: [panic (msg)] of the code base stops the
    operation with a fatal error, as a failed [assert] does. *)
Definition panic {A : Type} (msg : string) : Run A :=
  fun files => (Panic msg, files).

(** Modelled from the spec: the shared ordered stack of images of the
    operation base class.  [stack (n)] is the image [n] places below the one
    pushed most recently (the head of the list) and [push (im)] puts [im] on
    top of it.  What that class does when it is asked for an image the stack
    does not hold is not in this file: it is the parameter [underflow]. *)
Definition stack (underflow : Run (Image F)) (s : list (Image F)) (n : nat)
    : Run (Image F) :=
  match nth_error s n with
  | Some im => ret im
  | None => underflow
  end.

Definition push (im : Image F) (s : list (Image F)) : list (Image F) := im :: s.

(** [parse (args)]: the state is the stack, the result the stack it leaves. *)
Definition parse (underflow : Run (Image F)) (args : list string) (s : list (Image F))
    : Run (list (Image F)) :=
  assert_ (List.length args =? 1)%nat msg_args ;;
  kernel <- stack underflow s 0 ;;
  im <- stack underflow s 1 ;;
  let arg0 := nth 0 args EmptyString in
  if (arg0 =? "cho")%string then
    r <- applyCho2009 im kernel ;; ret (push r s)
  else if (arg0 =? "shan")%string then
    r <- applyShan2008 im kernel ;; ret (push r s)
  else
    panic (msg_unknown arg0).

End Parse.

(* ===================================================================== *)
(** ** The candidates of one pixel, as a list *)
(* ===================================================================== *)

Section Candidates.
Context {F : Type} {SF : Scalar F}.

(** The candidates the six blocks of the Psi update put forward for one
    pixel, each with its score, in the order of the source; a candidate of
    the first three blocks is listed when its feasibility test passes. *)
Definition candidates (sch : Schedule F) (dL dI sm : F) : list (F * F) :=
  (if quadratic_feasible sch dL dI sm
   then [(quadratic_point sch dL dI sm, quadratic_score sch dL dI sm)] else []) ++
  (if pos_linear_feasible sch dL dI sm
   then [(pos_linear_point sch dL dI sm, pos_linear_score sch dL dI sm)] else []) ++
  (if neg_linear_feasible sch dL dI sm
   then [(neg_linear_point sch dL dI sm, neg_linear_score sch dL dI sm)] else []) ++
  [(of_int 0, zero_score sch dL dI sm);
   (prior_lt, plus_lt_score sch dL dI sm);
   ((- prior_lt)%sc, minus_lt_score sch dL dI sm)].

(** One block whose candidate is feasible, on the pair (value, score). *)
Definition offer (s : Choice F) (q : F * F) : Choice F :=
  consider true (fst q) (snd q) s.

End Candidates.

(** [s] holds the first entry of [l] with the least score. *)
Definition first_least (l : list (R * R)) (s : Choice R) : Prop :=
  fscore_valid s = true /\
  exists before after,
    l = before ++ (ans s, fscore s) :: after /\
    (forall q, In q before -> (fscore s < snd q)%R) /\
    (forall q, In q after -> (fscore s <= snd q)%R).

(* ===================================================================== *)
(** ** Predicates on the canvas of [applyPadding] *)
(* ===================================================================== *)

(** [st] holds in the cells [P] of the canvas buffer what [st0] holds. *)
Definition pres {F} (P : Z -> Prop) (st0 st : PadState F) : Prop :=
  forall j, P j -> ret_buf st j = ret_buf st0 j.

(** No sample of the pixels [R] of frame [t] of the canvas [cv] is a cell of
    [P]. *)
Definition avoids {F} (cv : Image F) (P : Z -> Prop) (t : Z) (R : Z -> Z -> Prop) : Prop :=
  forall x y c, R x y -> 0 <= c < channels cv -> ~ P (at3 cv x y t + c).

(** The sample [(x, y, t)[c]] of the canvas [cv] in the state [st]. *)
Definition canvas_at {F} (cv : Image F) (st : PadState F) (x y t c : Z) : F :=
  ret_buf st (at3 cv x y t + c).

(** The pixels of the margins of the canvas around an image [B] embedded at
    [(x_padding, y_padding)]: above and below it, and the full-height bands
    to its left and right. *)
Definition top_margin {F} (B : Image F) (x_padding y_padding : Z) (x y : Z) : Prop :=
  x_padding <= x < x_padding + width B /\ 0 <= y < y_padding.
Definition bottom_margin {F} (B : Image F) (x_padding y_padding : Z) (x y : Z) : Prop :=
  x_padding <= x < x_padding + width B /\
  height B + y_padding <= y < height B + y_padding * 2.
Definition side_margin {F} (B : Image F) (x_padding y_padding : Z) (x y : Z) : Prop :=
  (0 <= x < x_padding \/ width B + x_padding <= x < width B + x_padding * 2) /\
  0 <= y < height B + y_padding * 2.

(** The locals of [applyPadding] after the loop over the frames. *)
Definition padding_state {F} `{Scalar F} `{Collab F} (B : Image F) : PadState F :=
  for_loop 0 (frames B)
    (fun t st => pad_frame B (padding_canvas B) (padding_alpha B)
                   (padding_x B) (padding_y B) t st)
    (mkPad (data (padding_canvas B)) (fun _ => of_int 0)).

(** The canvas of [applyPadding B] holds, in the state [st], the samples of
    [B] where the first crop put them. *)
Definition holds_image {F} `{Scalar F} `{Collab F} (B : Image F) (st : PadState F) : Prop :=
  forall x y t c,
    0 <= x < width B -> 0 <= y < height B -> 0 <= t < frames B -> 0 <= c < channels B ->
    canvas_at (padding_canvas B) st (padding_x B + x) (padding_y B + y) t c = px B x y t c.

(* ===================================================================== *)
(** ** The iterative solver: the L update and the sums it starts from *)
(* ===================================================================== *)

Section ShanSpectrum.
Context {F : Type} {SF : Scalar F} {CO : Collab F}.

(** The statements of a round between the two transforms of Psi and the
    inverse transform: the spectrum [numerator] holds when it is handed to
    [InverseFourierTransform]. *)
Definition shan_L_spectrum (gamma : F) (B_large : Image F) (bank : ShanBank F)
    (FPsi_x FPsi_y : Image F) : Image F :=
  let denominator := copy (denominator_base bank) in
  let numerator := copy (numerator_base bank) in
  (* Append the variable terms. *)
  let nd := shan_variable_terms gamma B_large (FDeriv bank 1) (FDeriv bank 3)
              FPsi_x FPsi_y (data numerator, data denominator) numerator denominator in
  let numerator := with_data numerator (fst nd) in
  let denominator := with_data denominator (snd nd) in
  ComplexDivide numerator denominator false.

(** [F(deriv_i)] on a [w] x [h] canvas, for filter [i] of the table of the
    specification. *)
Definition shan_filter (w h i : Z) : Image F :=
  FourierTransform (table_stencil w h i).

(** The sums the comments of the loop describe, at the complex sample [m]:
    [sum_i w_i |F(K)|^2 |F(deriv_i)|^2] for a sample [fk2] of [|F(K)|^2], and
    [sum_i w_i F(K)^T |F(deriv_i)|^2 F(I)] for samples [fkt] of [F(K)^T] and
    [fi] of [F(I)]; the products are taken in the order of the source. *)
Definition shan_den_base (w h : Z) (fk2 : cplx) (m : Z) : cplx :=
  fold_left (fun acc i =>
               cadd acc (cscale (table_weight i)
                           (cmul (cnorm2 (cbin (data (shan_filter w h i)) m)) fk2)))
            [0; 1; 2; 3; 4; 5] czero.
Definition shan_num_base (w h : Z) (fkt fi : cplx) (m : Z) : cplx :=
  fold_left (fun acc i =>
               cadd acc (cscale (table_weight i)
                           (cmul (cmul (cnorm2 (cbin (data (shan_filter w h i)) m)) fkt) fi)))
            [0; 1; 2; 3; 4; 5] czero.

End ShanSpectrum.
(* ===================================================================== *)
(** ** Loops and buffers: general facts *)
(* ===================================================================== *)

Lemma for_from_inv {S : Type} (P : S -> Prop) (body : Z -> S -> S) :
  forall n i s,
    P s ->
    (forall k s', i <= k < i + Z.of_nat n -> P s' -> P (body k s')) ->
    P (for_from n i body s).
Proof.
  induction n as [|n IH]; intros i s Hs Hstep; simpl.
  - exact Hs.
  - apply IH.
    + apply Hstep; [lia | exact Hs].
    + intros k s' Hk. apply Hstep. lia.
Qed.

(** An invariant kept by every iteration holds after the loop. *)
Lemma for_loop_inv {S : Type} (P : S -> Prop) (lo hi : Z) (body : Z -> S -> S) (s : S) :
  P s ->
  (forall k s', lo <= k < hi -> P s' -> P (body k s')) ->
  P (for_loop lo hi body s).
Proof.
  intros Hs Hstep. unfold for_loop. apply for_from_inv; [exact Hs|].
  intros k s' Hk. apply Hstep. lia.
Qed.

Lemma for_loop_empty {S : Type} (lo hi : Z) (body : Z -> S -> S) (s : S) :
  hi <= lo -> for_loop lo hi body s = s.
Proof.
  intros H. unfold for_loop.
  replace (Z.to_nat (hi - lo)) with O by lia. reflexivity.
Qed.

Lemma upd_other {F} (d : Z -> F) i v j : j <> i -> upd d i v j = d j.
Proof. intros H. unfold upd. destruct (Z.eqb_spec j i); [contradiction | reflexivity]. Qed.

Lemma upd_same {F} (d : Z -> F) i v : upd d i v i = v.
Proof. unfold upd. now rewrite Z.eqb_refl. Qed.

Lemma memcpy_other {F} (d : Z -> F) dst src n j :
  (j < dst \/ dst + n <= j) -> memcpy d dst src n j = d j.
Proof.
  intros H. unfold memcpy.
  destruct (Z.leb_spec dst j), (Z.ltb_spec j (dst + n)); simpl; try reflexivity; lia.
Qed.

(** *** Flat indices and coordinates *)

Lemma chan_of_flat w h c x y t k :
  0 <= x < w -> 0 <= y < h -> 0 <= k < c -> chan_of c (flat w h c x y t k) = k.
Proof.
  intros Hx Hy Hk. unfold chan_of, flat.
  rewrite Z.add_comm, Z.mod_add by lia. apply Z.mod_small; lia.
Qed.

Lemma flat_div_chan w h c x y t k :
  0 <= x < w -> 0 <= y < h -> 0 <= k < c ->
  flat w h c x y t k / c = (t * h + y) * w + x.
Proof.
  intros Hx Hy Hk. unfold flat. rewrite Z.add_comm, Z.div_add by lia.
  rewrite Z.div_small by lia. lia.
Qed.

Lemma col_of_flat w h c x y t k :
  0 <= x < w -> 0 <= y < h -> 0 <= k < c -> col_of w c (flat w h c x y t k) = x.
Proof.
  intros Hx Hy Hk. unfold col_of. rewrite flat_div_chan by assumption.
  rewrite Z.add_comm, Z.mod_add by lia. apply Z.mod_small; lia.
Qed.

Lemma flat_div_col w h c x y t k :
  0 <= x < w -> 0 <= y < h -> 0 <= k < c ->
  flat w h c x y t k / c / w = t * h + y.
Proof.
  intros Hx Hy Hk. rewrite flat_div_chan by assumption.
  rewrite Z.add_comm, Z.div_add by lia.
  rewrite Z.div_small by lia. lia.
Qed.

Lemma row_of_flat w h c x y t k :
  0 <= x < w -> 0 <= y < h -> 0 <= k < c -> row_of w h c (flat w h c x y t k) = y.
Proof.
  intros Hx Hy Hk. unfold row_of. rewrite flat_div_col by assumption.
  rewrite Z.add_comm, Z.mod_add by lia. apply Z.mod_small; lia.
Qed.

Lemma frame_of_flat w h c x y t k :
  0 <= x < w -> 0 <= y < h -> 0 <= k < c -> frame_of w h c (flat w h c x y t k) = t.
Proof.
  intros Hx Hy Hk. unfold frame_of. rewrite flat_div_col by assumption.
  rewrite Z.add_comm, Z.div_add by lia.
  rewrite Z.div_small by lia. lia.
Qed.

Lemma at3_flat {F} (im : Image F) x y t k :
  at3 im x y t + k = flat (width im) (height im) (channels im) x y t k.
Proof. unfold at3, tstride, ystride, xstride, flat. ring. Qed.

(** Two valid coordinates with the same flat index are the same. *)
Lemma flat_inj (w h c x y t k x' y' t' k' : Z) :
  0 <= x < w -> 0 <= y < h -> 0 <= k < c ->
  0 <= x' < w -> 0 <= y' < h -> 0 <= k' < c ->
  flat w h c x y t k = flat w h c x' y' t' k' ->
  x = x' /\ y = y' /\ t = t' /\ k = k'.
Proof.
  intros Hx Hy Hk Hx' Hy' Hk' E.
  pose proof (chan_of_flat w h c x y t k Hx Hy Hk) as A1.
  pose proof (col_of_flat w h c x y t k Hx Hy Hk) as A2.
  pose proof (row_of_flat w h c x y t k Hx Hy Hk) as A3.
  pose proof (frame_of_flat w h c x y t k Hx Hy Hk) as A4.
  rewrite E in A1, A2, A3, A4.
  rewrite (chan_of_flat w h c x' y' t' k') in A1 by assumption.
  rewrite (col_of_flat w h c x' y' t' k') in A2 by assumption.
  rewrite (row_of_flat w h c x' y' t' k') in A3 by assumption.
  rewrite (frame_of_flat w h c x' y' t' k') in A4 by assumption.
  lia.
Qed.

Section CropFacts.
Context {F : Type} {SF : Scalar F} {CO : Collab F}.

Lemma in_range_true lo hi v : lo <= v < hi -> in_range lo hi v = true.
Proof. intros H. unfold in_range. apply andb_true_intro; split; [apply Z.leb_le | apply Z.ltb_lt]; lia. Qed.

(** A sample of a crop whose source coordinate lies inside the source. *)
Lemma px_Crop (im : Image F) (minX minY minT w h f x y t k : Z) :
  0 <= x < w -> 0 <= y < h -> 0 <= k < channels im ->
  0 <= x + minX < width im -> 0 <= y + minY < height im -> 0 <= t + minT < frames im ->
  px (Crop im minX minY minT w h f) x y t k = px im (x + minX) (y + minY) (t + minT) k.
Proof.
  intros Hx Hy Hk Sx Sy St.
  unfold px at 1. rewrite at3_flat. unfold Crop; cbn [data width height channels frames].
  rewrite chan_of_flat, col_of_flat, row_of_flat, frame_of_flat by assumption.
  rewrite !in_range_true by assumption. reflexivity.
Qed.

End CropFacts.

(* ===================================================================== *)
(** ** [applyPadding]: the margins *)
(* ===================================================================== *)

Section PaddingFacts.
Context {F : Type} {SF : Scalar F} {CO : Collab F}.

Lemma padding_alpha_spec (B : Image F) :
  padding_alpha B = spec_alpha (width B) (height B).
Proof.
  unfold padding_alpha, spec_alpha.
  destruct (Z.ltb_spec (width B ÷ 3) 1);
    [destruct (Z.ltb_spec (height B ÷ 3) (width B ÷ 3))
    | destruct (Z.ltb_spec (height B ÷ 3) 1)]; lia.
Qed.

Lemma padding_x_spec (B : Image F) :
  padding_x B = spec_pad (width B) (height B) (width B).
Proof.
  unfold padding_x, spec_pad. rewrite padding_alpha_spec.
  destruct (Z.ltb_spec (width B ÷ 2) (spec_alpha (width B) (height B) * 3)); lia.
Qed.

Lemma padding_y_spec (B : Image F) :
  padding_y B = spec_pad (width B) (height B) (height B).
Proof.
  unfold padding_y, spec_pad. rewrite padding_alpha_spec.
  destruct (Z.ltb_spec (height B ÷ 2) (spec_alpha (width B) (height B) * 3)); lia.
Qed.

Lemma quot_nonneg a b : 0 <= a -> 0 < b -> 0 <= a ÷ b.
Proof. intros. rewrite Z.quot_div_nonneg by lia. apply Z.div_pos; lia. Qed.

(** For an image with at least one pixel the margins are ordered
    [0 <= alpha <= 1], [3 * alpha <= x_padding], [3 * alpha <= y_padding]. *)
Lemma padding_margins (B : Image F) :
  0 <= width B -> 0 <= height B ->
  0 <= padding_alpha B <= 1 /\
  3 * padding_alpha B <= padding_x B /\ 3 * padding_alpha B <= padding_y B.
Proof.
  intros HW HH.
  pose proof (quot_nonneg (width B) 3 HW ltac:(lia)).
  pose proof (quot_nonneg (height B) 3 HH ltac:(lia)).
  rewrite padding_x_spec, padding_y_spec, padding_alpha_spec.
  unfold spec_pad, spec_alpha. lia.
Qed.

End PaddingFacts.

(* ===================================================================== *)
(** ** [applyPadding]: the passes leave the embedded image alone *)
(* ===================================================================== *)

Section PaddingFrame.
Context {F : Type} {SF : Scalar F} {CO : Collab F}.
Variable B : Image F.
Variable cv : Image F.
Variables alpha x_padding y_padding : Z.
Variable d0 : Z -> F.

Hypothesis cv_width : width cv = width B + x_padding * 2.
Hypothesis cv_height : height cv = height B + y_padding * 2.
Hypothesis cv_channels : channels cv = channels B.
Hypothesis alpha_pos : 0 <= alpha.
Hypothesis alpha_x : alpha <= x_padding.
Hypothesis alpha_y : alpha <= y_padding.
Hypothesis W_pos : 0 <= width B.
Hypothesis H_pos : 0 <= height B.

Lemma set_prev_keeps st c v :
  keeps B cv x_padding y_padding d0 st ->
  keeps B cv x_padding y_padding d0 (set_prev st c v).
Proof. intros K. exact K. Qed.

Lemma set_ret_keeps st x y t c v :
  in_margin B cv x_padding y_padding x y -> 0 <= c < channels B ->
  keeps B cv x_padding y_padding d0 st ->
  keeps B cv x_padding y_padding d0
    (set_ret st (at3 cv x y t + c) v).
Proof.
  intros (Hx & Hy & Hout) Hc K x' y' t' c' Hx' Hy' Hc'.
  unfold set_ret; cbn [ret_buf].
  rewrite upd_other; [apply K; assumption|].
  rewrite !at3_flat, cv_channels. intros E.
  apply flat_inj in E; lia.
Qed.

(** A copy into a row segment of [m] pixels from column [x], all of it in
    the margin. *)
Lemma copy_ret_keeps st x y t src m :
  0 <= x -> x + m <= width cv -> 0 <= y < height cv ->
  (x + m <= x_padding \/ x_padding + width B <= x \/
   y < y_padding \/ y_padding + height B <= y) ->
  keeps B cv x_padding y_padding d0 st ->
  keeps B cv x_padding y_padding d0
    (copy_ret st (at3 cv x y t) src (channels B * m)).
Proof.
  intros Hx Hm Hy Hout K x' y' t' c' Hx' Hy' Hc'.
  unfold copy_ret; cbn [ret_buf].
  set (j := at3 cv (x_padding + x') (y_padding + y') t' + c').
  set (dst := at3 cv x y t).
  destruct (Z_lt_dec j dst) as [L|L];
    [rewrite memcpy_other by (left; exact L); apply K; assumption|].
  destruct (Z_le_dec (dst + channels B * m) j) as [U|U];
    [rewrite memcpy_other by (right; exact U); apply K; assumption|].
  exfalso.
  assert (HC : 0 < channels B) by lia.
  pose proof (Z.div_mod (j - dst) (channels B) ltac:(lia)) as D.
  pose proof (Z.mod_pos_bound (j - dst) (channels B) HC) as Hr.
  assert (Hq : 0 <= (j - dst) / channels B < m).
  { split; [apply Z.div_pos; lia|]. apply Z.div_lt_upper_bound; lia. }
  revert D Hr Hq.
  generalize ((j - dst) / channels B) ((j - dst) mod channels B).
  intros q r D Hr Hq.
  assert (E : j = at3 cv (x + q) y t + r).
  { replace (at3 cv (x + q) y t) with (dst + channels B * q)
      by (unfold dst, at3, xstride; rewrite cv_channels; ring).
    lia. }
  unfold j in E. rewrite !at3_flat, cv_channels in E.
  apply flat_inj in E; lia.
Qed.

Ltac margin := first [assumption | unfold in_margin; lia].

Lemma pad_top_copy_keeps t st :
  keeps B cv x_padding y_padding d0 st ->
  keeps B cv x_padding y_padding d0
    (pad_top_copy B cv alpha x_padding y_padding t st).
Proof.
  intros K. unfold pad_top_copy.
  apply for_loop_inv; [exact K | intros y s Hy Ks]. cbv zeta.
  apply copy_ret_keeps; try lia.
  apply copy_ret_keeps; try lia. exact Ks.
Qed.

Lemma pad_top_blend_keeps t st :
  keeps B cv x_padding y_padding d0 st ->
  keeps B cv x_padding y_padding d0
    (pad_top_blend B cv alpha x_padding y_padding t st).
Proof.
  intros K. unfold pad_top_blend.
  apply for_loop_inv; [exact K | intros y s Hy Ks]. cbv zeta.
  apply for_loop_inv.
  - apply for_loop_inv.
    + apply for_loop_inv; [exact Ks | intros x s1 Hx K1].
      apply for_loop_inv; [exact K1 | intros c s2 Hc K2].
      apply set_ret_keeps; margin.
    + intros c s1 Hc K1. apply set_prev_keeps, K1.
  - intros x s1 Hx K1.
    apply for_loop_inv; [exact K1 | intros c s2 Hc K2]. cbv zeta.
    apply set_prev_keeps. apply set_ret_keeps; margin.
Qed.

Lemma pad_left_copy_keeps t st :
  keeps B cv x_padding y_padding d0 st ->
  keeps B cv x_padding y_padding d0
    (pad_left_copy B cv alpha x_padding y_padding t st).
Proof.
  intros K. unfold pad_left_copy.
  apply for_loop_inv; [exact K | intros y s Hy Ks].
  apply for_loop_inv; [exact Ks | intros x s1 Hx K1]. cbv zeta.
  apply for_loop_inv; [exact K1 | intros c s2 Hc K2]. cbv zeta.
  apply set_ret_keeps; [margin | margin |].
  apply set_ret_keeps; margin.
Qed.

Lemma pad_left_blend_keeps t st :
  keeps B cv x_padding y_padding d0 st ->
  keeps B cv x_padding y_padding d0
    (pad_left_blend B cv alpha x_padding y_padding t st).
Proof.
  intros K. unfold pad_left_blend.
  apply for_loop_inv; [exact K | intros x s Hx Ks]. cbv zeta.
  apply for_loop_inv.
  - apply for_loop_inv.
    + apply for_loop_inv; [exact Ks | intros y s1 Hy K1].
      apply for_loop_inv; [exact K1 | intros c s2 Hc K2].
      apply set_ret_keeps; margin.
    + intros c s1 Hc K1. apply set_prev_keeps, K1.
  - intros y s1 Hy K1.
    apply for_loop_inv; [exact K1 | intros c s2 Hc K2]. cbv zeta.
    apply set_prev_keeps. apply set_ret_keeps; margin.
Qed.

Lemma pad_right_copy_keeps t st :
  keeps B cv x_padding y_padding d0 st ->
  keeps B cv x_padding y_padding d0
    (pad_right_copy B cv x_padding y_padding t st).
Proof.
  intros K. unfold pad_right_copy.
  apply for_loop_inv; [exact K | intros y s Hy Ks].
  apply copy_ret_keeps; try lia. exact Ks.
Qed.

Lemma pad_bottom_keeps t st :
  keeps B cv x_padding y_padding d0 st ->
  keeps B cv x_padding y_padding d0
    (pad_bottom B cv alpha x_padding y_padding t st).
Proof.
  intros K. unfold pad_bottom.
  apply for_loop_inv; [exact K | intros y s Hy Ks]. cbv zeta.
  apply pad_right_copy_keeps, pad_left_blend_keeps, pad_left_copy_keeps.
  apply copy_ret_keeps; try lia. exact Ks.
Qed.

Lemma pad_frame_keeps t st :
  keeps B cv x_padding y_padding d0 st ->
  keeps B cv x_padding y_padding d0
    (pad_frame B cv alpha x_padding y_padding t st).
Proof.
  intros K. unfold pad_frame.
  apply pad_bottom_keeps, pad_top_blend_keeps, pad_top_copy_keeps, K.
Qed.

End PaddingFrame.

(* ===================================================================== *)
(** ** [applyPadding]: shape and round trip *)
(* ===================================================================== *)

Section PaddingTheorems.
Context {F : Type} {SF : Scalar F} {CO : Collab F}.

(** The passes do not change a sample of the embedded image: after them the
    canvas still holds [B] at [(x_padding, y_padding)]. *)
Lemma padding_filled_interior (B : Image F) x y t c :
  0 <= x < width B -> 0 <= y < height B -> 0 <= t < frames B ->
  0 <= c < channels B ->
  px (padding_filled B) (padding_x B + x) (padding_y B + y) t c
  = px (padding_canvas B) (padding_x B + x) (padding_y B + y) t c.
Proof.
  intros Hx Hy Ht Hc.
  destruct (padding_margins B ltac:(lia) ltac:(lia)) as (Ha & Hpx & Hpy).
  unfold padding_filled. cbv zeta. unfold px at 1 2.
  cbn [data with_data width height channels frames at3 xstride ystride tstride].
  change (ret_buf
            (for_loop 0 (frames B)
               (fun t0 st => pad_frame B (padding_canvas B) (padding_alpha B)
                               (padding_x B) (padding_y B) t0 st)
               (mkPad (data (padding_canvas B)) (fun _ => of_int 0)))
            (at3 (padding_canvas B) (padding_x B + x) (padding_y B + y) t + c)
          = data (padding_canvas B)
              (at3 (padding_canvas B) (padding_x B + x) (padding_y B + y) t + c)).
  assert (K : keeps B (padding_canvas B) (padding_x B) (padding_y B)
                (data (padding_canvas B))
                (for_loop 0 (frames B)
                   (fun t0 st => pad_frame B (padding_canvas B) (padding_alpha B)
                                   (padding_x B) (padding_y B) t0 st)
                   (mkPad (data (padding_canvas B)) (fun _ => of_int 0)))).
  { apply for_loop_inv.
    - intros x' y' t' c' _ _ _. reflexivity.
    - intros t' s _ Ks.
      apply pad_frame_keeps; try assumption; try reflexivity; lia. }
  apply K; assumption.
Qed.

Lemma padding_canvas_interior (B : Image F) x y t c :
  0 <= x < width B -> 0 <= y < height B -> 0 <= t < frames B ->
  0 <= c < channels B ->
  px (padding_canvas B) (padding_x B + x) (padding_y B + y) t c = px B x y t c.
Proof.
  intros Hx Hy Ht Hc.
  destruct (padding_margins B ltac:(lia) ltac:(lia)) as (Ha & Hpx & Hpy).
  unfold padding_canvas. rewrite px_Crop by lia.
  f_equal; lia.
Qed.

(** C8. For every image [B] of width [W] and height [H], [applyPadding B] is
    [W + x_pad] by [H + y_pad] with [x_pad = max (W/2, 3*alpha)], [y_pad =
    max (H/2, 3*alpha)] and [alpha = min (W/3, H/3, 1)] (integer division);
    the canvas it fills first is larger by the full margin on each side
    ([W + 2*x_pad] by [H + 2*y_pad]), the result is the window of that canvas
    that starts half a margin in (so [x_pad / 2] columns are trimmed on the
    left and the other [x_pad - x_pad / 2] on the right, and likewise for the
    rows), and frames and channels are those of [B]. *)
Theorem applyPadding_dimensions (B : Image F) :
  let W := width B in
  let H := height B in
  let x_pad := spec_pad W H W in
  let y_pad := spec_pad W H H in
  width (padding_canvas B) = W + 2 * x_pad /\
  height (padding_canvas B) = H + 2 * y_pad /\
  width (padding_filled B) = W + 2 * x_pad /\
  height (padding_filled B) = H + 2 * y_pad /\
  applyPadding B
  = Crop (padding_filled B) (x_pad ÷ 2) (y_pad ÷ 2) 0 (W + x_pad) (H + y_pad) (frames B) /\
  width (applyPadding B) = W + x_pad /\
  height (applyPadding B) = H + y_pad /\
  width (padding_canvas B) - (x_pad ÷ 2 + width (applyPadding B)) = x_pad - x_pad ÷ 2 /\
  height (padding_canvas B) - (y_pad ÷ 2 + height (applyPadding B)) = y_pad - y_pad ÷ 2 /\
  frames (applyPadding B) = frames B /\
  channels (applyPadding B) = channels B.
Proof.
  cbv zeta. unfold applyPadding, padding_filled, padding_canvas. cbv zeta.
  rewrite !padding_x_spec, !padding_y_spec.
  cbn [width height frames channels Crop with_data].
  repeat split; lia.
Qed.

(** C7. Cropping [applyPadding B] back to the place and extent of [B] gives
    every sample of [B] again, and no pass of the extrapolator changes a
    sample of the embedded image: the filled canvas agrees with the fresh
    one there. *)
Theorem applyPadding_crop_roundtrip (B : Image F) (x y t c : Z) :
  0 <= x < width B -> 0 <= y < height B -> 0 <= t < frames B ->
  0 <= c < channels B ->
  px (Crop (applyPadding B) (padding_origin_x B) (padding_origin_y B) 0
           (width B) (height B) (frames B)) x y t c
  = px B x y t c /\
  px (padding_filled B) (padding_x B + x) (padding_y B + y) t c
  = px (padding_canvas B) (padding_x B + x) (padding_y B + y) t c.
Proof.
  intros Hx Hy Ht Hc.
  split; [|apply padding_filled_interior; assumption].
  destruct (padding_margins B ltac:(lia) ltac:(lia)) as (Ha & Hpx & Hpy).
  assert (Qx : 0 <= padding_x B ÷ 2 <= padding_x B).
  { rewrite Z.quot_div_nonneg by lia. split; [apply Z.div_pos; lia|].
    apply Z.div_le_upper_bound; lia. }
  assert (Qy : 0 <= padding_y B ÷ 2 <= padding_y B).
  { rewrite Z.quot_div_nonneg by lia. split; [apply Z.div_pos; lia|].
    apply Z.div_le_upper_bound; lia. }
  unfold padding_origin_x, padding_origin_y.
  rewrite px_Crop;
    [ | lia | lia
      | unfold applyPadding, padding_filled, padding_canvas;
        cbn [channels Crop with_data]; lia
      | unfold applyPadding; cbn [width Crop]; lia
      | unfold applyPadding; cbn [height Crop]; lia
      | unfold applyPadding; cbn [frames Crop]; lia ].
  unfold applyPadding at 1. cbv zeta.
  rewrite px_Crop;
    [ | lia | lia
      | unfold padding_filled, padding_canvas; cbn [channels Crop with_data]; lia
      | unfold padding_filled, padding_canvas; cbn [width Crop with_data]; lia
      | unfold padding_filled, padding_canvas; cbn [height Crop with_data]; lia
      | unfold padding_filled, padding_canvas; cbn [frames Crop with_data]; lia ].
  replace (x + (padding_x B - padding_x B ÷ 2) + padding_x B ÷ 2) with (padding_x B + x) by lia.
  replace (y + (padding_y B - padding_y B ÷ 2) + padding_y B ÷ 2) with (padding_y B + y) by lia.
  replace (t + 0 + 0) with t by lia.
  rewrite padding_filled_interior by assumption.
  apply padding_canvas_interior; assumption.
Qed.

End PaddingTheorems.

(* ===================================================================== *)
(** ** The derivative filter banks of the two solvers *)
(* ===================================================================== *)

Lemma stencils_agree {F} `{Scalar F} (i : Z) (im : Image F) :
  shan_stencil i im = cho_stencil i im.
Proof. reflexivity. Qed.

Lemma index_cases (i : Z) :
  0 <= i <= 5 -> i = 0 \/ i = 1 \/ i = 2 \/ i = 3 \/ i = 4 \/ i = 5.
Proof. lia. Qed.

(** C9. For each index [i] in 0..5 the two solvers build the same stencil and
    pair it with the same weight, whatever the sample arithmetic; in binary32
    the stencil holds the integer coefficients of the table (identity, dx =
    [-1, 1], dxx = [1, -2, 1], dy, dyy, dxy) at its offsets and the weight is
    50, 25, 12.5, 25, 12.5, 12.5. *)
Theorem derivative_banks_agree (i w h : Z) :
  0 <= i <= 5 ->
  (forall (F : Type) (SF : Scalar F),
      @shan_stencil F SF i (new_image w h 1 2) = @cho_stencil F SF i (new_image w h 1 2)) /\
  @shan_stencil float32 _ i (new_image w h 1 2) = bank_entry i w h /\
  @cho_stencil float32 _ i (new_image w h 1 2) = bank_entry i w h.
Proof.
  intros Hi. split; [intros; apply stencils_agree|].
  destruct (index_cases i Hi) as [-> | [-> | [-> | [-> | [-> | ->]]]]];
    split;
    unfold bank_entry, place_taps, shan_stencil, cho_stencil, set_px, has_px;
    cbn [bank_taps bank_weight fold_left fst snd width height frames channels
         new_image with_data];
    repeat (match goal with
            | |- context [in_range ?a ?b ?c] => destruct (in_range a b c)
            end; cbv beta iota; cbn [andb width height frames channels with_data]);
    reflexivity.
Qed.

Lemma derivative_banks_agree_witness :
  @shan_stencil float32 _ 5 (new_image 9 9 1 2) = bank_entry 5 9 9.
Proof.
  exact (proj1 (proj2 (derivative_banks_agree 5 9 9 ltac:(lia)))).
Defined.

(* ===================================================================== *)
(** ** Loops that update a buffer cell by cell *)
(* ===================================================================== *)

Lemma for_from_inv_idx {S : Type} (P : Z -> S -> Prop) (body : Z -> S -> S) :
  forall n i s,
    P i s ->
    (forall k s', i <= k < i + Z.of_nat n -> P k s' -> P (k + 1) (body k s')) ->
    P (i + Z.of_nat n) (for_from n i body s).
Proof.
  induction n as [|n IH]; intros i s Hs Hstep.
  - cbn [for_from]. replace (i + Z.of_nat 0) with i by lia. exact Hs.
  - cbn [for_from].
    replace (i + Z.of_nat (Datatypes.S n)) with ((i + 1) + Z.of_nat n) by lia.
    apply IH.
    + apply Hstep; [lia | exact Hs].
    + intros k s' Hk. apply Hstep. lia.
Qed.

Lemma for_loop_inv_idx {S : Type} (P : Z -> S -> Prop) (lo hi : Z) (body : Z -> S -> S) (s : S) :
  lo <= hi ->
  P lo s ->
  (forall k s', lo <= k < hi -> P k s' -> P (k + 1) (body k s')) ->
  P hi (for_loop lo hi body s).
Proof.
  intros Hle Hs Hstep. unfold for_loop.
  replace hi with (lo + Z.of_nat (Z.to_nat (hi - lo))) at 1 by lia.
  apply for_from_inv_idx; [exact Hs|].
  intros k s' Hk. apply Hstep. lia.
Qed.

Section LocalLoops.
Context {F : Type}.
Variable own : Z -> Z -> Prop.
Variable body : Z -> (Z -> F) -> (Z -> F).
Variables lo hi : Z.
Hypothesis body_local : forall k, lo <= k < hi -> local_update (own k) (body k).
Hypothesis own_disjoint :
  forall k k' j, lo <= k < hi -> lo <= k' < hi -> own k j -> own k' j -> k = k'.

(** After the loop a cell owned by iteration [k] holds what [body k] makes
    of the initial buffer, and a cell no iteration owns is unchanged. *)
Lemma for_loop_cells (d0 : Z -> F) :
  (forall k j, lo <= k < hi -> own k j -> for_loop lo hi body d0 j = body k d0 j) /\
  (forall j, (forall k, lo <= k < hi -> ~ own k j) -> for_loop lo hi body d0 j = d0 j).
Proof.
  destruct (Z_lt_le_dec hi lo) as [Hlt | Hle].
  { rewrite for_loop_empty by lia. split; [intros; lia | reflexivity]. }
  pose (P := fun (i : Z) (d : Z -> F) =>
    (forall k j, lo <= k < i -> own k j -> d j = body k d0 j) /\
    (forall j, (forall k, lo <= k < i -> ~ own k j) -> d j = d0 j)).
  assert (H : P hi (for_loop lo hi body d0)).
  { apply for_loop_inv_idx; [exact Hle | |].
    - split; [intros; lia | reflexivity].
    - intros i d Hi (I1 & I2). destruct (body_local i Hi) as (Fr & Lc). split.
      + intros k j Hk Ho.
        destruct (Z.eq_dec k i) as [-> | Hne].
        * apply Lc; [exact Ho|]. intros j' Ho'. apply I2.
          intros k' Hk' Ho''. assert (k' = i) by (apply (own_disjoint k' i j'); auto; lia). lia.
        * rewrite Fr; [apply I1; [lia | exact Ho]|].
          intros Ho'. apply Hne. apply (own_disjoint k i j); auto; lia.
      + intros j Hno. rewrite Fr by (apply Hno; lia).
        apply I2. intros k Hk. apply Hno. lia. }
  exact H.
Qed.

(** The loop as a whole is a local update of the cells its iterations own. *)
Lemma for_loop_local :
  local_update (fun j => exists k, lo <= k < hi /\ own k j) (for_loop lo hi body).
Proof.
  split.
  - intros d j Hno. apply (proj2 (for_loop_cells d)).
    intros k Hk Ho. apply Hno. exists k. auto.
  - intros d d' j (k & Hk & Ho) Hagree.
    rewrite (proj1 (for_loop_cells d) k j Hk Ho), (proj1 (for_loop_cells d') k j Hk Ho).
    apply (proj2 (body_local k Hk)); [exact Ho|].
    intros j' Ho'. apply Hagree. exists k. auto.
Qed.

End LocalLoops.

(* ===================================================================== *)
(** ** The continuation schedule *)
(* ===================================================================== *)

Section ScheduleFacts.
Context {F : Type} {SF : Scalar F} {CO : Collab F}.

Lemma bind_Done {A B} (m : Run A) (k : A -> Run B) files a files' :
  m files = (Done a, files') -> bind m k files = k a files'.
Proof. intros E. unfold bind. now rewrite E. Qed.

(** One round writes its checkpoint and moves the schedule one step. *)
Lemma shan_round_runs (B_large sm dIdx dIdy : Image F) bank it st files :
  exists st',
    shan_round B_large sm dIdx dIdy bank it st files
    = (Done st', files ++ [("output" ++ fmt_02d it ++ ".tmp")%string]) /\
    schedule st' = next_schedule (schedule st) /\
    width (L st') = width (numerator_base bank) /\
    height (L st') = height (numerator_base bank) /\
    frames (L st') = frames (numerator_base bank) /\
    channels (L st') = channels (numerator_base bank) / 2.
Proof.
  unfold shan_round. cbv zeta.
  eexists. split; [reflexivity|]. cbn. repeat split.
Qed.

(** The loop over the rounds runs [MAX_ITERATION] = 2 of them. *)
Lemma shan_rounds_run (B_large sm dIdx dIdy : Image F) bank st files :
  exists st',
    for_loopM 1 (MAX_ITERATION + 1) (shan_round B_large sm dIdx dIdy bank) st files
    = (Done st', files ++ ["output01.tmp"; "output02.tmp"]%string) /\
    schedule st' = next_schedule (next_schedule (schedule st)) /\
    width (L st') = width (numerator_base bank) /\
    height (L st') = height (numerator_base bank) /\
    frames (L st') = frames (numerator_base bank) /\
    channels (L st') = channels (numerator_base bank) / 2.
Proof.
  unfold for_loopM. change (Z.to_nat (MAX_ITERATION + 1 - 1)) with 2%nat.
  cbn [for_fromM].
  destruct (shan_round_runs B_large sm dIdx dIdy bank 1 st files)
    as (st1 & E1 & S1 & _).
  destruct (shan_round_runs B_large sm dIdx dIdy bank (1 + 1) st1
              (files ++ [("output" ++ fmt_02d 1 ++ ".tmp")%string]))
    as (st2 & E2 & S2 & D2).
  exists st2. split.
  - rewrite (bind_Done _ _ _ _ _ E1), (bind_Done _ _ _ _ _ E2).
    unfold ret. rewrite <- app_assoc. reflexivity.
  - rewrite S2, S1. split; [reflexivity | exact D2].
Qed.

End ScheduleFacts.

(** C6. The schedule of the iterative solver starts at [lambda_1 = 0.1],
    [lambda_2 = 15], [gamma = 2]; the loop runs exactly 2 rounds and each
    round ends by dividing [lambda_1] by 1.2, [lambda_2] by 1.5 and doubling
    [gamma]; so [lambda_1] and [lambda_2] strictly decrease, [gamma] strictly
    increases, and after the rounds [lambda_1] is 0.0833 then 0.0694,
    [lambda_2] is 10.0 then 6.67 and [gamma] is 4.0 then 8.0 (binary32
    values, to three significant digits). *)
Theorem continuation_schedule :
  let s0 := @schedule_after float32 _ 0 in
  let s1 := @schedule_after float32 _ 1 in
  let s2 := @schedule_after float32 _ 2 in
  (* start *)
  s0 = initial_schedule /\
  lambda_1 s0 = lit 1 10 /\ lambda_2 s0 = of_int 15 /\ gamma s0 = of_int 2 /\
  close_to (lambda_1 s0) (1 # 10) three_digits = true /\
  (* two rounds, each ending with the update *)
  MAX_ITERATION = 2 /\
  (forall (CO : Collab float32) (B_large sm dIdx dIdy : Image float32)
          (bank : ShanBank float32) (st : ShanState float32) (files : list string),
      exists st' : ShanState float32,
        for_loopM 1 (MAX_ITERATION + 1)
          (@shan_round float32 _ CO B_large sm dIdx dIdy bank) st files
        = (Done st', files ++ ["output01.tmp"; "output02.tmp"]%string) /\
        schedule st' = next_schedule (next_schedule (schedule st))) /\
  (forall s : Schedule float32,
      next_schedule s
      = mkSchedule (fdiv (lambda_1 s) (lit 12 10)) (fdiv (lambda_2 s) (lit 15 10))
                   (fmul (gamma s) (of_int 2))) /\
  close_to (lit 12 10) (12 # 10) three_digits = true /\
  Qeq_bool (f32_to_Q (lit 15 10)) (15 # 10) = true /\
  (* monotone *)
  fltb (lambda_1 s1) (lambda_1 s0) = true /\ fltb (lambda_1 s2) (lambda_1 s1) = true /\
  fltb (lambda_2 s1) (lambda_2 s0) = true /\ fltb (lambda_2 s2) (lambda_2 s1) = true /\
  fltb (gamma s0) (gamma s1) = true /\ fltb (gamma s1) (gamma s2) = true /\
  (* the values after round 1 and after round 2 *)
  close_to (lambda_1 s1) (833 # 10000) three_digits = true /\
  close_to (lambda_1 s2) (694 # 10000) three_digits = true /\
  close_to (lambda_2 s1) 10 three_digits = true /\
  close_to (lambda_2 s2) (667 # 100) three_digits = true /\
  gamma s1 = of_int 4 /\ gamma s2 = of_int 8.
Proof.
  cbv zeta.
  split; [reflexivity|]. split; [reflexivity|]. split; [reflexivity|].
  split; [reflexivity|]. split; [vm_compute; reflexivity|].
  split; [reflexivity|].
  split.
  { intros CO B_large sm dIdx dIdy bank st files.
    destruct (shan_rounds_run B_large sm dIdx dIdy bank st files) as (st' & E & S & _).
    exists st'. split; assumption. }
  split; [intros s; reflexivity|].
  repeat split; vm_compute; reflexivity.
Qed.

(* ===================================================================== *)
(** ** The Psi pass over the canvas *)
(* ===================================================================== *)

Section PsiPass.
Context {F : Type} {SF : Scalar F} {CO : Collab F}.

(** The zero candidate is always feasible, so what a pixel is given does not
    depend on what the locals held before it. *)
Lemma psi_pixel_locals_irrelevant (sch : Schedule F) (dL dI sm : F) (s s' : Choice F) :
  psi_pixel sch dL dI sm s = psi_pixel sch dL dI sm s'.
Proof.
  unfold psi_pixel. cbv zeta. do 2 f_equal.
  unfold try_zero, try_neg_linear, try_pos_linear, try_quadratic, consider, takes.
  cbn [fscore_valid negb orb]. rewrite !andb_true_r.
  destruct (quadratic_feasible sch dL dI sm); cbn [fscore_valid fscore negb orb andb];
    destruct (pos_linear_feasible sch dL dI sm); cbn [fscore_valid fscore negb orb andb];
    destruct (neg_linear_feasible sch dL dI sm); cbn [fscore_valid fscore negb orb andb];
    reflexivity.
Qed.

Lemma for_from_fst {A S : Type} (body : Z -> A * S -> A * S) (g : Z -> A -> A) :
  (forall k st, fst (body k st) = g k (fst st)) ->
  forall n i st, fst (for_from n i body st) = for_from n i g (fst st).
Proof.
  intros Hb. induction n as [|n IH]; intros i st; cbn [for_from].
  - reflexivity.
  - rewrite IH, Hb. reflexivity.
Qed.

(** A loop that carries locals along a buffer, when the buffer does not
    depend on them. *)
Lemma for_loop_fst {A S : Type} (body : Z -> A * S -> A * S) (g : Z -> A -> A) lo hi st :
  (forall k st, fst (body k st) = g k (fst st)) ->
  fst (for_loop lo hi body st) = for_loop lo hi g (fst st).
Proof. intros Hb. unfold for_loop. apply for_from_fst, Hb. Qed.

Section Pass.
Variable sch : Schedule F.
Variables B_large dL dI smoothness_map Psi : Image F.
Hypothesis Psi_width : width Psi = width B_large.
Hypothesis Psi_height : height Psi = height B_large.
Hypothesis Psi_channels : 0 < channels Psi.

Let unset : Choice F := mkChoice (of_int 0) (of_int 0) false.

Let chosen (x y : Z) : F :=
  ans (psi_pixel sch (data dL (at2 dL x y + 0)) (data dI (at2 dI x y + 0))
         (data smoothness_map (at2 smoothness_map x y + 0)) unset).

Let store_x (y x : Z) (d : Z -> F) : Z -> F := upd d (at2 Psi x y + 0) (chosen x y).
Let store_y (y : Z) (d : Z -> F) : Z -> F := for_loop 0 (width B_large) (store_x y) d.

Lemma psi_cell_inj x y x' y' :
  0 <= x < width B_large -> 0 <= y < height B_large ->
  0 <= x' < width B_large -> 0 <= y' < height B_large ->
  at2 Psi x y + 0 = at2 Psi x' y' + 0 -> x = x' /\ y = y'.
Proof.
  intros Hx Hy Hx' Hy' E. unfold at2 in E. rewrite !at3_flat in E.
  rewrite Psi_width, Psi_height in E.
  apply flat_inj in E; lia.
Qed.

Lemma store_x_local y x : local_update (fun j => j = at2 Psi x y + 0) (store_x y x).
Proof.
  unfold store_x. split.
  - intros d j Hno. apply upd_other, Hno.
  - intros d d' j -> _. rewrite !upd_same. reflexivity.
Qed.

Lemma store_y_local y :
  0 <= y < height B_large ->
  local_update (fun j => exists x, 0 <= x < width B_large /\ j = at2 Psi x y + 0)
               (store_y y).
Proof.
  intros Hy. unfold store_y.
  apply (for_loop_local (fun x j => j = at2 Psi x y + 0)).
  - intros x _. apply store_x_local.
  - intros x x' j Hx Hx' -> E.
    apply (psi_cell_inj x y x' y Hx Hy Hx' Hy) in E as (E & _). exact E.
Qed.

(** After the pass every pixel of [Psi] holds the value chosen for it. *)
Lemma psi_pass_stores (s : Choice F) (x y : Z) :
  0 <= x < width B_large -> 0 <= y < height B_large ->
  px (fst (psi_pass sch B_large dL dI smoothness_map Psi s)) x y 0 0 = chosen x y.
Proof.
  intros Hx Hy. unfold psi_pass. cbv zeta. cbn [fst]. unfold px.
  cbn [data with_data]. change (at3 (with_data Psi ?d) x y 0) with (at2 Psi x y).
  rewrite (for_loop_fst _ store_y).
  2:{ intros k st. rewrite (for_loop_fst _ (store_x k)); [reflexivity|].
      intros k' st'. cbn [fst]. unfold store_x, chosen. f_equal. f_equal.
      apply psi_pixel_locals_irrelevant. }
  cbn [fst].
  rewrite (proj1 (for_loop_cells
                    (fun y j => exists x, 0 <= x < width B_large /\ j = at2 Psi x y + 0)
                    store_y 0 (height B_large)
                    (fun k Hk => store_y_local k Hk)
                    (fun k k' j Hk Hk' O1 O2 =>
                       match O1, O2 with
                       | ex_intro _ x1 (conj Hx1 P1), ex_intro _ x2 (conj Hx2 P2) =>
                           proj2 (psi_cell_inj x1 k x2 k' Hx1 Hk Hx2 Hk'
                                    (eq_trans (eq_sym P1) P2))
                       end) (data Psi)) y (at2 Psi x y + 0) Hy)
    by (exists x; split; [exact Hx | reflexivity]).
  unfold store_y.
  rewrite (proj1 (for_loop_cells (fun x j => j = at2 Psi x y + 0) (store_x y)
                    0 (width B_large)
                    (fun k _ => store_x_local y k)
                    (fun k k' j Hk Hk' O1 O2 =>
                       proj1 (psi_cell_inj k y k' y Hk Hy Hk' Hy (eq_trans (eq_sym O1) O2)))
                    (data Psi)) x (at2 Psi x y + 0) Hx eq_refl).
  unfold store_x. apply upd_same.
Qed.

End Pass.

End PsiPass.

(** The same, for derivative and smoothness images read at the pixel. *)
Lemma psi_pass_pixel {F : Type} {SF : Scalar F}
    (sch : Schedule F) (B_large dL dI smoothness_map Psi : Image F) (s : Choice F) (x y : Z) :
  width Psi = width B_large -> height Psi = height B_large -> 0 < channels Psi ->
  0 <= x < width B_large -> 0 <= y < height B_large ->
  px (fst (psi_pass sch B_large dL dI smoothness_map Psi s)) x y 0 0
  = ans (psi_pixel sch (px dL x y 0 0) (px dI x y 0 0) (px smoothness_map x y 0 0) s).
Proof.
  intros Pw Ph Pc Hx Hy.
  rewrite (psi_pass_stores sch B_large dL dI smoothness_map Psi Pw Ph Pc s x y Hx Hy).
  f_equal. apply psi_pixel_locals_irrelevant.
Qed.

(* ===================================================================== *)
(** ** The Psi update of one pixel *)
(* ===================================================================== *)

Section ChoiceFacts.
Context {F : Type} {SF : Scalar F}.

(** A candidate replaces the incumbent only on a strictly lower score. *)
Lemma consider_tie (feasible : bool) (tmp tmpscore : F) (s : Choice F) :
  fscore_valid s = true -> fgtb (fscore s) tmpscore = false ->
  consider feasible tmp tmpscore s = s.
Proof.
  intros V T. unfold consider, takes. rewrite V, T.
  now rewrite andb_false_r.
Qed.

Lemma consider_taken (feasible : bool) (tmp tmpscore : F) (s : Choice F) :
  takes feasible tmpscore s = true ->
  consider feasible tmp tmpscore s = mkChoice tmpscore tmp true.
Proof. intros T. unfold consider. now rewrite T. Qed.

Lemma consider_passed (feasible : bool) (tmp tmpscore : F) (s : Choice F) :
  takes feasible tmpscore s = false -> consider feasible tmp tmpscore s = s.
Proof. intros T. unfold consider. now rewrite T. Qed.

End ChoiceFacts.

(** What the six blocks leave on a pixel whose [dL], [dI] and smoothness are
    zero, in either round: the quadratic and the two linear candidates are
    infeasible, the zero candidate is taken with score 0, and block 6, which
    subtracts the prior term that its mirror block 5 adds, scores [-lt]
    below 0 and replaces it.  A later candidate replaces the incumbent only
    when its score is strictly lower, so on a tie the earlier one stays. *)
Lemma psi_zero_inputs_select_minus_lt (n : nat) (dL dI sm : float32) (s : Choice float32) :
  (n < 2)%nat ->
  f32_is_zero dL = true -> f32_is_zero dI = true -> f32_is_zero sm = true ->
  let sch := schedule_after n in
  quadratic_feasible sch dL dI sm = false /\
  pos_linear_feasible sch dL dI sm = false /\
  neg_linear_feasible sch dL dI sm = false /\
  ans (try_zero sch dL dI sm (before_neg_linear sch dL dI sm s)) = of_int 0 /\
  f32_is_zero (zero_score sch dL dI sm) = true /\
  fltb (minus_lt_score sch dL dI sm) (zero_score sch dL dI sm) = true /\
  ans (psi_pixel sch dL dI sm s) = fopp prior_lt /\
  (forall (B_large dLd dId smoothness_map Psi : Image float32) (x y : Z),
      width Psi = width B_large -> height Psi = height B_large -> 0 < channels Psi ->
      0 <= x < width B_large -> 0 <= y < height B_large ->
      px dLd x y 0 0 = dL -> px dId x y 0 0 = dI -> px smoothness_map x y 0 0 = sm ->
      px (fst (psi_pass sch B_large dLd dId smoothness_map Psi s)) x y 0 0
      = fopp prior_lt) /\
  (forall feasible tmp tmpscore (c : Choice float32),
      fscore_valid c = true -> fgtb (fscore c) tmpscore = false ->
      consider feasible tmp tmpscore c = c).
Proof.
  intros Hn HL HI Hs.
  assert (Hn' : n = 0%nat \/ n = 1%nat) by lia.
  destruct dL as [bl | | |]; try discriminate HL.
  destruct dI as [bi | | |]; try discriminate HI.
  destruct sm as [bs | | |]; try discriminate Hs.
  cbv zeta.
  assert (Final : ans (psi_pixel (schedule_after n) (S754_zero bl) (S754_zero bi)
                         (S754_zero bs) s) = fopp prior_lt).
  { destruct Hn' as [-> | ->]; destruct bl, bi, bs; vm_compute; reflexivity. }
  repeat match goal with |- _ /\ _ => split end;
    try exact Final;
    try (intros; apply consider_tie; assumption);
    try (intros B_large dLd dId smm Psi x y Pw Ph Pc Hx Hy EL EI ES;
         rewrite psi_pass_pixel by assumption; rewrite EL, EI, ES; exact Final);
    destruct Hn' as [-> | ->]; destruct bl, bi, bs; vm_compute; reflexivity.
Qed.

Lemma psi_zero_inputs_select_minus_lt_witness :
  ans (psi_pixel (schedule_after 0) (of_int 0) (of_int 0) (of_int 0) unset_choice)
  = fopp prior_lt.
Proof.
  exact (proj1 (proj2 (proj2 (proj2 (proj2 (proj2 (proj2
    (psi_zero_inputs_select_minus_lt 0 (of_int 0) (of_int 0) (of_int 0) unset_choice
       ltac:(lia) eq_refl eq_refl eq_refl)))))))).
Defined.

(** C2. The all-zero pixel of the first round ([lambda_1 = 0.1],
    [lambda_2 = 15], [gamma = 2]; [dL = dI = 0], smoothness 0), where the
    claim says 0 is selected.  The zero candidate scores 0.  The candidates
    [lt] and [-lt] are mirror images and the objective is even there: their
    fit terms are equal; but block 5 (line 229) subtracts
    [lambda_1 * (-k * lt)] and block 6 (line 237) subtracts
    [lambda_1 * (k * lt)], so [lt] scores about +0.5003, above the zero
    candidate, and [-lt] about -0.5001, below it.  Block 6 replaces the zero
    candidate and the value stored in Psi is [-lt], not 0. *)
Theorem psi_zero_inputs_not_zero :
  let sch := @schedule_after float32 _ 0 in
  let z := @of_int float32 _ 0 in
  f32_is_zero (zero_score sch z z z) = true /\
  fit sch z z z prior_lt = fit sch z z z (fopp prior_lt) /\
  close_to (plus_lt_score sch z z z) (5003 # 10000) three_digits = true /\
  close_to (minus_lt_score sch z z z) (- 5001 # 10000) three_digits = true /\
  fltb (zero_score sch z z z) (plus_lt_score sch z z z) = true /\
  fltb (zero_score sch z z z) (minus_lt_score sch z z z) = false /\
  fltb (minus_lt_score sch z z z) (zero_score sch z z z) = true /\
  ans (try_plus_lt sch z z z (try_zero sch z z z (before_neg_linear sch z z z unset_choice)))
  = of_int 0 /\
  ans (psi_pixel sch z z z unset_choice) = fopp prior_lt /\
  f32_is_zero (ans (psi_pixel sch z z z unset_choice)) = false /\
  psi_pass_one_pixel sch z z z = fopp prior_lt /\
  f32_is_zero (psi_pass_one_pixel sch z z z) = false.
Proof. vm_compute. repeat split. Qed.

(** C3, as the code has it.  The third candidate is the stationary point of
    the negative-linear branch, [(gamma dL + lambda_2 dI sm - lambda_1 k) /
    (gamma + lambda_2)]; it is feasible exactly when that point lies in
    [[0, lt]]; and when the block takes it, the value kept in [ans] is that
    point itself, with its score.  If no later block takes its candidate,
    that point is the value the pass stores in the pixel of Psi. *)
Theorem neg_linear_stores_point {F : Type} {SF : Scalar F}
    (sch : Schedule F) (dL dI sm : F) (s : Choice F) :
  let p := neg_linear_point sch dL dI sm in
  let s3 := try_neg_linear sch dL dI sm s in
  takes (neg_linear_feasible sch dL dI sm) (neg_linear_score sch dL dI sm) s = true ->
  p = ((gamma sch * dL + lambda_2 sch * dI * sm - lambda_1 sch * prior_k)
       / (gamma sch + lambda_2 sch))%sc /\
  neg_linear_feasible sch dL dI sm = fleb (of_int 0) p && fleb p prior_lt /\
  neg_linear_feasible sch dL dI sm = true /\
  ans s3 = p /\ fscore s3 = neg_linear_score sch dL dI sm /\ fscore_valid s3 = true /\
  (takes true (zero_score sch dL dI sm) s3 = false ->
   takes true (plus_lt_score sch dL dI sm) s3 = false ->
   takes true (minus_lt_score sch dL dI sm) s3 = false ->
   ans (try_minus_lt sch dL dI sm (try_plus_lt sch dL dI sm (try_zero sch dL dI sm s3))) = p /\
   forall (s0 : Choice F) (B_large dLd dId smoothness_map Psi : Image F) (x y : Z),
     s = before_neg_linear sch dL dI sm s0 ->
     width Psi = width B_large -> height Psi = height B_large -> 0 < channels Psi ->
     0 <= x < width B_large -> 0 <= y < height B_large ->
     px dLd x y 0 0 = dL -> px dId x y 0 0 = dI -> px smoothness_map x y 0 0 = sm ->
     px (fst (psi_pass sch B_large dLd dId smoothness_map Psi s0)) x y 0 0 = p).
Proof.
  cbv zeta. intros T.
  split; [reflexivity|]. split; [reflexivity|].
  split; [unfold takes in T; apply andb_prop in T; exact (proj1 T)|].
  unfold try_neg_linear at 1 2 3 4 5 6 7. rewrite (consider_taken _ _ _ _ T).
  cbn [ans fscore fscore_valid].
  split; [reflexivity|]. split; [reflexivity|]. split; [reflexivity|].
  intros T4 T5 T6.
  assert (Final : ans (try_minus_lt sch dL dI sm (try_plus_lt sch dL dI sm
                    (try_zero sch dL dI sm
                       (mkChoice (neg_linear_score sch dL dI sm)
                                 (neg_linear_point sch dL dI sm) true))))
                  = neg_linear_point sch dL dI sm).
  { unfold try_zero, try_plus_lt, try_minus_lt.
    rewrite (consider_passed _ _ _ _ T4), (consider_passed _ _ _ _ T5),
      (consider_passed _ _ _ _ T6). reflexivity. }
  split; [exact Final|].
  intros s0 B_large dLd dId smm Psi x y Es Pw Ph Pc Hx Hy EL EI ES.
  rewrite psi_pass_pixel by assumption. rewrite EL, EI, ES.
  unfold psi_pixel. cbv zeta.
  change (try_neg_linear sch dL dI sm
            (try_pos_linear sch dL dI sm
               (try_quadratic sch dL dI sm (mkChoice (fscore s0) (ans s0) false))))
    with (try_neg_linear sch dL dI sm (before_neg_linear sch dL dI sm s0)).
  rewrite <- Es. unfold try_neg_linear at 1. rewrite (consider_taken _ _ _ _ T).
  exact Final.
Qed.

Lemma neg_linear_stores_point_witness :
  let sch := @schedule_after float32 _ 0 in
  ans (try_neg_linear sch steep_dL steep_dI (of_int 1)
         (before_neg_linear sch steep_dL steep_dI (of_int 1) unset_choice))
  = neg_linear_point sch steep_dL steep_dI (of_int 1).
Proof.
  exact (proj1 (proj2 (proj2 (proj2
    (neg_linear_stores_point (schedule_after 0) steep_dL steep_dI (of_int 1)
       (before_neg_linear (schedule_after 0) steep_dL steep_dI (of_int 1) unset_choice)
       eq_refl))))).
Defined.

(** C3 as stated fails.  Entered with no incumbent, the third block keeps
    its stationary point as it is: for [dL = 34.4375] and no data term the point
    is about 0.0015, feasible, taken, and [ans] is that positive value.  And on
    a whole pixel: for [dL = 88395.625], [dI = -11781.48828125], smoothness 1 in
    the first round the quadratic candidate is taken first with the binary32
    score 8647278 * 2^11, the third block then takes its candidate, whose score
    rounds one unit lower, no later block replaces it, and the value stored in
    Psi is the stationary point (about 0.0042), not its negation. *)
Lemma neg_linear_not_negated :
  let sch := @schedule_after float32 _ 0 in
  let zero := @of_int float32 _ 0 in
  let one := @of_int float32 _ 1 in
  let q := neg_linear_point sch gentle_dL zero zero in
  let p := neg_linear_point sch steep_dL steep_dI one in
  (* the block alone *)
  takes (neg_linear_feasible sch gentle_dL zero zero)
        (neg_linear_score sch gentle_dL zero zero) unset_choice = true /\
  fltb zero q = true /\
  ans (try_neg_linear sch gentle_dL zero zero unset_choice) = q /\
  ans (try_neg_linear sch gentle_dL zero zero unset_choice) <> fopp q /\
  (* a whole pixel *)
  takes (neg_linear_feasible sch steep_dL steep_dI one)
        (neg_linear_score sch steep_dL steep_dI one)
        (before_neg_linear sch steep_dL steep_dI one unset_choice) = true /\
  quadratic_score sch steep_dL steep_dI one = S754_finite false 8647278 11 /\
  neg_linear_score sch steep_dL steep_dI one = S754_finite false 8647277 11 /\
  p = S754_finite false 9079627 (-31) /\
  ans (psi_pixel sch steep_dL steep_dI one unset_choice) = p /\
  ans (psi_pixel sch steep_dL steep_dI one unset_choice) <> fopp p /\
  psi_pass_one_pixel sch steep_dL steep_dI one = p /\
  psi_pass_one_pixel sch steep_dL steep_dI one <> fopp p.
Proof.
  vm_compute. repeat split; discriminate.
Qed.

(* ===================================================================== *)
(** ** Validation, files written and shapes *)
(* ===================================================================== *)

Section ShapeFacts.
Context {F : Type} {SF : Scalar F} {CO : Collab F}.

Lemma rem2_even (w : Z) : Z.even w = true -> c_mod w 2 = 0.
Proof.
  intros E. apply Z.even_spec in E. destruct E as [m ->].
  unfold c_mod. rewrite Z.mul_comm. apply Z.rem_mul. lia.
Qed.

Lemma rem2_odd (w : Z) : 0 < w -> Z.odd w = true -> c_mod w 2 = 1.
Proof.
  intros P O. apply Z.odd_spec in O. destruct O as [m ->].
  unfold c_mod. rewrite Z.rem_mod_nonneg by lia.
  rewrite Z.add_comm, Z.mul_comm, Z.mod_add by lia. reflexivity.
Qed.

Lemma valid_input_accepted (Blurred K : Image F) :
  valid_input Blurred K -> kernel_is_odd K = true /\ single_framed Blurred K = true.
Proof.
  intros (Pw & Ph & Ow & Oh & Ck & Fk & Fb).
  unfold kernel_is_odd, single_framed.
  rewrite (rem2_odd _ Pw Ow), (rem2_odd _ Ph Oh), Ck, Fk, Fb. split; reflexivity.
Qed.

Lemma rejected_input_refused (Blurred K : Image F) :
  rejected_input Blurred K -> kernel_is_odd K = false \/ single_framed Blurred K = false.
Proof.
  unfold kernel_is_odd, single_framed.
  intros [E | [E | [E | [E | E]]]].
  - left. rewrite (rem2_even _ E). reflexivity.
  - left. rewrite (rem2_even _ E). apply andb_false_r.
  - right. replace (channels K =? 1) with false; [reflexivity|].
    symmetry. apply Z.eqb_neq. lia.
  - right. replace (frames K =? 1) with false;
      [now rewrite andb_false_r | symmetry; apply Z.eqb_neq; lia].
  - right. replace (frames Blurred =? 1) with false;
      [now rewrite andb_false_r | symmetry; apply Z.eqb_neq; lia].
Qed.

(** *** The stores of the filter bank *)

Lemma has_px_true (im : Image F) x y t c :
  0 <= x < width im -> 0 <= y < height im -> 0 <= t < frames im -> 0 <= c < channels im ->
  has_px im x y t c = true.
Proof.
  intros Hx Hy Ht Hc. unfold has_px, in_range.
  repeat (apply andb_true_intro; split); try apply Z.leb_le; try apply Z.ltb_lt; lia.
Qed.

Lemma set_px_inside (im : Image F) x y t c v :
  0 <= x < width im -> 0 <= y < height im -> 0 <= t < frames im -> 0 <= c < channels im ->
  set_px im x y t c v = Some (with_data im (upd (data im) (at3 im x y t + c) v)).
Proof. intros Hx Hy Ht Hc. unfold set_px. now rewrite has_px_true. Qed.

(** A store outside the image has no result. *)
Lemma set_px_outside (im : Image F) x y t c v :
  x < 0 \/ width im <= x \/ y < 0 \/ height im <= y \/
  t < 0 \/ frames im <= t \/ c < 0 \/ channels im <= c ->
  set_px im x y t c v = None.
Proof.
  intros Out. unfold set_px, has_px, in_range.
  destruct (Z.leb_spec 0 x), (Z.ltb_spec x (width im)), (Z.leb_spec 0 y),
    (Z.ltb_spec y (height im)), (Z.leb_spec 0 t), (Z.ltb_spec t (frames im)),
    (Z.leb_spec 0 c), (Z.ltb_spec c (channels im)); cbn [andb]; try reflexivity; lia.
Qed.

(** On a canvas at least 3 x 3 every tap of the six filters lies inside the
    image: the [switch] has a result, an image of the extent of the canvas. *)
Lemma stencil_defined (w h i : Z) :
  3 <= w -> 3 <= h -> 0 <= i <= 5 ->
  exists (w_i : F) (FDeriv : Image F),
    cho_stencil i (new_image w h 1 2) = Some (w_i, FDeriv) /\
    width FDeriv = w /\ height FDeriv = h /\ frames FDeriv = 1 /\ channels FDeriv = 2.
Proof.
  intros Hw Hh Hi.
  destruct (index_cases i Hi) as [-> | [-> | [-> | [-> | [-> | ->]]]]];
    unfold cho_stencil; cbv zeta;
    repeat (rewrite set_px_inside by (cbn [width height frames channels new_image with_data]; lia));
    eexists; eexists; (split; [reflexivity|]); repeat split.
Qed.

(** A loop whose body has a result wherever the invariant holds has one. *)
Lemma for_loopO_inv {S : Type} (Inv : S -> Prop) (lo hi : Z)
    (body : Z -> S -> option S) (s : S) :
  Inv s ->
  (forall k s', lo <= k < hi -> Inv s' -> exists s'', body k s' = Some s'' /\ Inv s'') ->
  exists s', for_loopO lo hi body s = Some s' /\ Inv s'.
Proof.
  intros Hs Hstep. unfold for_loopO.
  apply (for_loop_inv (fun acc : option S => exists s', acc = Some s' /\ Inv s')).
  - exists s. split; [reflexivity | exact Hs].
  - intros k acc Hk (s' & -> & I). apply Hstep; assumption.
Qed.

(** A loop with a round whose body has no result has none. *)
Lemma for_loopO_fails {S : Type} (lo hi k : Z) (body : Z -> S -> option S) (s : S) :
  lo <= k < hi -> (forall s', body k s' = None) -> for_loopO lo hi body s = None.
Proof.
  intros Hk Hf. unfold for_loopO.
  apply (for_loop_inv_idx (fun i (acc : option S) => k < i -> acc = None) lo hi
           (fun i acc => match acc with Some s' => body i s' | None => None end) (Some s));
    [lia | lia | | lia].
  intros j acc Hj IH Hlt. destruct acc as [s0|]; [|reflexivity].
  destruct (Z.eq_dec j k) as [-> | Hne]; [apply Hf|].
  discriminate (IH ltac:(lia)).
Qed.

(** On a canvas of one row the second tap of the vertical difference
    (index 3) is stored below the image: the [switch] has no result. *)
Lemma stencil_undefined_one_row (w h : Z) :
  h <= 1 -> cho_stencil 3 (new_image w h 1 2) = None.
Proof.
  intros Hh. unfold cho_stencil. cbv zeta.
  match goal with
  | |- context [set_px ?im0 0 0 0 0 ?v] => destruct (set_px im0 0 0 0 0 v) as [im|] eqn:E
  end; [|reflexivity].
  assert (Sh : height im = h).
  { unfold set_px in E. destruct (has_px _ _ _ _ _); inversion E. reflexivity. }
  rewrite (set_px_outside im 0 1 0 0) by lia. reflexivity.
Qed.

(** A blurred image of one row is padded to a canvas of one row. *)
Lemma canvas_one_row (Blurred : Image F) :
  height Blurred = 1 -> height (applyPadding Blurred) = 1.
Proof.
  intros H1. unfold applyPadding. cbn [width height Crop].
  rewrite padding_y_spec. unfold spec_pad, spec_alpha. rewrite H1.
  change (1 ÷ 2) with 0. change (1 ÷ 3) with 0. lia.
Qed.

(** On a canvas at least 3 x 3 the closed-form pipeline has a result, of
    the extent of the transposed, complex canvas. *)
Lemma cho_spectrum_defined (B K : Image F) :
  3 <= width B -> 3 <= height B ->
  exists FB,
    cho_spectrum B K = Some FB /\
    width FB = width B /\ height FB = height B /\
    frames FB = channels B /\ channels FB = 2 * frames B.
Proof.
  intros Hw Hh. unfold cho_spectrum. cbv zeta.
  destruct (for_loopO_inv (fun _ : Image F * Image F => True) 0 6
              (cho_accumulate (width B) (height B))
              (new_image (width B) (height B) 1 2, new_image (width B) (height B) 1 2) I)
    as (sums & E & _).
  { intros k s' Hk _. unfold cho_accumulate. cbv zeta.
    destruct (stencil_defined (width B) (height B) k Hw Hh ltac:(lia))
      as (w_i & FD & Es & _).
    rewrite Es. eexists. split; [reflexivity | exact I]. }
  rewrite E. eexists. split; [reflexivity|]. repeat split.
Qed.

(** The closed-form solver on accepted arguments and a canvas at least
    3 x 3: one file, and the result is a crop to the extent of the blurred
    image. *)
Lemma applyCho2009_runs (Blurred K : Image F) files :
  kernel_is_odd K = true -> single_framed Blurred K = true ->
  let B := applyPadding Blurred in
  3 <= width B -> 3 <= height B ->
  exists FB,
    cho_spectrum B K = Some FB /\
    width FB = width B /\ height FB = height B /\
    frames FB = channels B /\ channels FB = 2 * frames B /\
    applyCho2009 Blurred K files
    = (Done (Crop (Transpose_c_t (ComplexReal (IFFT FB true true false)))
                  ((width B - width Blurred) ÷ 2) ((height B - height Blurred) ÷ 2) 0
                  (width Blurred) (height Blurred) (frames Blurred)),
       files ++ ["padded.tmp"%string]).
Proof.
  intros O S B Hw Hh.
  destruct (cho_spectrum_defined B K Hw Hh) as (FB & E & Sw & Sh & Sf & Sc).
  exists FB. repeat (split; [assumption|]).
  unfold applyCho2009, bind, assert_, FileTMP_save, ret, defined.
  rewrite O, S. fold B. rewrite E. reflexivity.
Qed.

(** An image at least 3 x 3 has a padded canvas at least 3 x 3. *)
Lemma canvas_roomy (Blurred : Image F) :
  3 <= width Blurred -> 3 <= height Blurred ->
  3 <= width (applyPadding Blurred) /\ 3 <= height (applyPadding Blurred).
Proof.
  intros Hw Hh.
  destruct (padding_margins Blurred ltac:(lia) ltac:(lia)) as (Ha & Hx & Hy).
  unfold applyPadding. cbn [width height Crop]. lia.
Qed.

(** On a canvas at least 3 x 3 the loop over the six filters of the
    iterative solver has a result, and it keeps the shape of the running
    sums. *)
Lemma shan_bank_defined (B_large K_large FK2 : Image F) (st : ShanBank F) :
  3 <= width B_large -> 3 <= height B_large ->
  exists bank,
    for_loopO 0 6 (shan_accumulate B_large K_large FK2) st = Some bank /\
    width (numerator_base bank) = width (numerator_base st) /\
    height (numerator_base bank) = height (numerator_base st) /\
    frames (numerator_base bank) = frames (numerator_base st) /\
    channels (numerator_base bank) = channels (numerator_base st).
Proof.
  intros Hw Hh.
  apply (for_loopO_inv (fun b : ShanBank F =>
    width (numerator_base b) = width (numerator_base st) /\
    height (numerator_base b) = height (numerator_base st) /\
    frames (numerator_base b) = frames (numerator_base st) /\
    channels (numerator_base b) = channels (numerator_base st))).
  - repeat split.
  - intros k s' Hk IH. unfold shan_accumulate. cbv zeta.
    destruct (stencil_defined (width B_large) (height B_large) k Hw Hh ltac:(lia))
      as (w_i & FD & Es & _).
    rewrite stencils_agree, Es. eexists. split; [reflexivity | exact IH].
Qed.

End ShapeFacts.

Section ShapeTheorems.
Context {F : Type} {SF : Scalar F} {CO : Collab F}.

(** The iterative solver on accepted arguments and a canvas at least 3 x 3:
    two checkpoint files, and the result is the last [L] cropped to the
    extent of the blurred image. *)
Lemma applyShan2008_runs (B K : Image F) files :
  kernel_is_odd K = true -> single_framed B K = true ->
  3 <= width (shan_canvas B) -> 3 <= height (shan_canvas B) ->
  exists Lfinal : Image F,
    applyShan2008 B K files
    = (Done (Crop4 Lfinal ((width (shan_canvas B) - width B) ÷ 2)
                   ((height (shan_canvas B) - height B) ÷ 2) (width B) (height B)),
       files ++ ["output01.tmp"; "output02.tmp"]%string) /\
    width Lfinal = width (shan_canvas B) /\
    height Lfinal = height (shan_canvas B) /\
    frames Lfinal = 1 /\ channels Lfinal = 1.
Proof.
  intros O S Hw Hh. unfold applyShan2008.
  unfold bind at 1. unfold assert_ at 1. rewrite S.
  unfold bind at 1. unfold assert_ at 1. rewrite O.
  cbv zeta.
  match goal with
  | |- context [for_loopO 0 6 (shan_accumulate ?BL ?KL ?FK2) ?st0] =>
      destruct (shan_bank_defined BL KL FK2 st0 Hw Hh)
        as (bank & Eb & Sw & Sh' & Sf & Sc)
  end.
  rewrite Eb. unfold defined at 1. unfold bind at 1.
  match goal with
  | |- context [for_loopM 1 (MAX_ITERATION + 1) (shan_round ?BL ?sm ?dx ?dy ?bk) ?st] =>
      destruct (shan_rounds_run BL sm dx dy bk st files)
        as (st' & E & _ & Dw & Dh & Df & Dc)
  end.
  exists (L st'). split.
  - rewrite (bind_Done _ _ _ _ _ E). reflexivity.
  - rewrite Dw, Dh, Df, Dc, Sw, Sh', Sf, Sc. cbn. repeat split.
Qed.

(** On a blurred image of one row the closed-form solver writes
    [padded.tmp] and then stores the vertical difference below its buffer:
    the run has no result. *)
Theorem applyCho2009_flat (Blurred K : Image F) files :
  valid_input Blurred K -> height Blurred = 1 ->
  applyCho2009 Blurred K files = (Undefined, files ++ ["padded.tmp"%string]).
Proof.
  intros V H1. destruct (valid_input_accepted _ _ V) as (O & S).
  unfold applyCho2009, bind, assert_, FileTMP_save, defined. rewrite O, S.
  unfold cho_spectrum. cbv zeta.
  rewrite (for_loopO_fails 0 6 3); [reflexivity | lia |].
  intros s'. unfold cho_accumulate. cbv zeta.
  rewrite stencil_undefined_one_row; [reflexivity|].
  pose proof (canvas_one_row Blurred H1) as C1. cbv beta zeta. lia.
Qed.

(** On a blurred image of one row the iterative solver stores the vertical
    difference below its buffer before the first round: the run has no
    result and no checkpoint. *)
Theorem applyShan2008_flat (B K : Image F) files :
  valid_input B K -> height B = 1 ->
  applyShan2008 B K files = (Undefined, files).
Proof.
  intros V H1. destruct (valid_input_accepted _ _ V) as (O & S).
  unfold applyShan2008.
  unfold bind at 1. unfold assert_ at 1. rewrite S.
  unfold bind at 1. unfold assert_ at 1. rewrite O.
  cbv zeta.
  rewrite (for_loopO_fails 0 6 3); [reflexivity | lia |].
  intros s'. unfold shan_accumulate. cbv zeta.
  rewrite stencils_agree.
  cbn [width height FourierTransform RealComplex].
  rewrite stencil_undefined_one_row; [reflexivity|].
  assert (C1 : height (applyPadding (shan_gray B)) = 1).
  { apply canvas_one_row. unfold shan_gray. destruct (channels B =? 3); [cbn|]; exact H1. }
  change (height (applyPadding (shan_gray B)) <= 1). lia.
Qed.

(** C4. Both solvers reject a kernel with an even width or height, a kernel
    with more than one channel or frame, and a blurred image with more than
    one frame; they stop at the assertion, before any other step: no result
    is produced and the list of files written is the one they started with
    (no [padded.tmp], no [output<NN>.tmp]). *)
Theorem solvers_reject_before_work (Blurred K : Image F) (files : list string) :
  rejected_input Blurred K ->
  (exists msg, applyCho2009 Blurred K files = (Panic msg, files)) /\
  (exists msg, applyShan2008 Blurred K files = (Panic msg, files)).
Proof.
  intros R. apply rejected_input_refused in R.
  unfold applyCho2009, applyShan2008, bind, assert_.
  destruct (kernel_is_odd K), (single_framed Blurred K);
    try (destruct R; discriminate);
    split; eexists; reflexivity.
Qed.

(** C5. For every valid input of at least 3 x 3 pixels the image returned
    by the closed-form solver has the width and height of the blurred image,
    and its channel and frame counts.  (On an image of one row the filter
    bank is stored outside its buffer and the run has no result.) *)
Theorem applyCho2009_shape (Blurred K : Image F) (files : list string) :
  valid_input Blurred K -> 3 <= width Blurred -> 3 <= height Blurred ->
  exists im files',
    applyCho2009 Blurred K files = (Done im, files') /\
    width im = width Blurred /\ height im = height Blurred /\
    channels im = channels Blurred /\ frames im = frames Blurred.
Proof.
  intros V Hw Hh. destruct (valid_input_accepted _ _ V) as (O & S).
  destruct (canvas_roomy Blurred Hw Hh) as (Cw & Ch).
  destruct (applyCho2009_runs Blurred K files O S Cw Ch)
    as (FB & _ & _ & _ & Sf & Sc & E).
  eexists. eexists. split; [exact E|].
  cbn [width height frames channels Crop]. repeat split.
  cbn. rewrite Sf. reflexivity.
Qed.

(** C10. For every valid 3-channel blurred input of at least 3 x 3 pixels
    the iterative solver returns an image with exactly one channel, not
    three: the canvas it pads is the single-channel luma, the rounds rebuild
    a single-channel [L], and the final crop keeps the channels of [L]; the
    spatial extent is that of the input.  (On an image of one row the filter
    bank is stored outside its buffer and the run has no result.) *)
Theorem applyShan2008_single_channel (B K : Image F) (files : list string) :
  valid_input B K -> channels B = 3 -> 3 <= width B -> 3 <= height B ->
  exists im files',
    applyShan2008 B K files = (Done im, files') /\
    channels (shan_canvas B) = 1 /\
    channels im = 1 /\ channels im <> channels B /\
    width im = width B /\ height im = height B /\ frames im = 1.
Proof.
  intros V C3 Hw Hh. destruct (valid_input_accepted _ _ V) as (O & S).
  assert (Cw : 3 <= width (shan_canvas B) /\ 3 <= height (shan_canvas B)).
  { unfold shan_canvas. apply canvas_roomy; unfold shan_gray; rewrite C3; assumption. }
  destruct (applyShan2008_runs B K files O S (proj1 Cw) (proj2 Cw))
    as (Lf & E & Dw & Dh & Df & Dc).
  eexists. eexists. split; [exact E|].
  split.
  { unfold shan_canvas, shan_gray. rewrite C3. reflexivity. }
  cbn. rewrite Dc, Df, C3. repeat split. lia.
Qed.

End ShapeTheorems.

(* ===================================================================== *)
(** ** The closed-form solver, bin by bin *)
(* ===================================================================== *)

Section ComplexFacts.
Context {F : Type} {SF : Scalar F} {CO : Collab F}.

Lemma cplx_at_re (d : Z -> F) m : cplx_at d (2 * m) = cbin d m.
Proof.
  unfold cplx_at, cbin. cbv zeta.
  replace (2 * m / 2) with m by (apply (Z.div_unique _ 2 m 0); lia).
  reflexivity.
Qed.

Lemma cplx_at_im (d : Z -> F) m : cplx_at d (2 * m + 1) = cbin d m.
Proof.
  unfold cplx_at, cbin. cbv zeta.
  replace ((2 * m + 1) / 2) with m by (apply (Z.div_unique _ 2 m 1); lia).
  reflexivity.
Qed.

Lemma part_re m (z : F * F) : part (2 * m) z = fst z.
Proof. unfold part. rewrite Z.even_mul. reflexivity. Qed.

Lemma part_im m (z : F * F) : part (2 * m + 1) z = snd z.
Proof. unfold part. rewrite Z.add_comm, Z.even_add_mul_2. reflexivity. Qed.

Lemma cbin_ComplexMultiply (a b : Image F) (c : bool) m :
  cbin (data (ComplexMultiply a b c)) m
  = cmul (cbin (data a) m) (if c then cconj (cbin (data b) m) else cbin (data b) m).
Proof.
  unfold ComplexMultiply, cbin at 1. cbn [data with_data].
  rewrite !cplx_at_re, !cplx_at_im, part_re, part_im.
  symmetry. apply surjective_pairing.
Qed.

Lemma cbin_ComplexDivide (a b : Image F) (c : bool) m :
  cbin (data (ComplexDivide a b c)) m
  = cdiv (cbin (data a) m) (if c then cconj (cbin (data b) m) else cbin (data b) m).
Proof.
  unfold ComplexDivide, cbin at 1. cbn [data with_data].
  rewrite !cplx_at_re, !cplx_at_im, part_re, part_im.
  symmetry. apply surjective_pairing.
Qed.

Lemma cbin_ComplexConjugate (a : Image F) m :
  cbin (data (ComplexConjugate a)) m = cconj (cbin (data a) m).
Proof.
  unfold ComplexConjugate, cbin at 1. cbn [data with_data].
  rewrite !cplx_at_re, !cplx_at_im, part_re, part_im.
  symmetry. apply surjective_pairing.
Qed.

Lemma cbin_Add (a b : Image F) m :
  cbin (data (Add a b)) m = cadd (cbin (data a) m) (cbin (data b) m).
Proof. reflexivity. Qed.

Lemma cbin_Scale (a : Image F) (w : F) m :
  cbin (data (Scale a w)) m = cscale w (cbin (data a) m).
Proof. reflexivity. Qed.

Lemma cbin_new_image w h f c m : cbin (data (new_image w h f c)) m = czero.
Proof. reflexivity. Qed.

(** A bin of a two-channel image is a complex sample of its buffer. *)
Lemma bin_cbin (im : Image F) x y t :
  channels im = 2 ->
  bin im x y t = cbin (data im) ((t * height im + y) * width im + x).
Proof.
  intros C2. unfold bin, px, cbin.
  replace (at3 im x y t) with (2 * ((t * height im + y) * width im + x))
    by (unfold at3, tstride, ystride, xstride; rewrite C2; ring).
  rewrite Z.add_0_r. reflexivity.
Qed.

(** *** The loops that apply the factor *)

Section FactorLoop.
Variables B FB FK : Image F.
Hypothesis FB_width : width FB = width B.
Hypothesis FB_height : height FB = height B.
Hypothesis FB_channels : channels FB = 2.

Let body_x (t y x : Z) (d : Z -> F) : Z -> F :=
  let re := at3 FB x y t + 0 in
  let im := at3 FB x y t + 1 in
  let kre := at2 FK x y + 0 in
  let kim := at2 FK x y + 1 in
  let tmp := (d re * data FK kre - d im * data FK kim)%sc in
  let d := upd d im (d re * data FK kim + d im * data FK kre)%sc in
  upd d re tmp.

Let body_y (t y : Z) (d : Z -> F) : Z -> F := for_loop 0 (width B) (body_x t y) d.
Let body_t (t : Z) (d : Z -> F) : Z -> F := for_loop 0 (height B) (body_y t) d.

Let own_x (t y x : Z) : Z -> Prop := bin_cells FB x y t.
Let own_y (t y : Z) : Z -> Prop := fun j => exists x, 0 <= x < width B /\ own_x t y x j.
Let own_t (t : Z) : Z -> Prop := fun j => exists y, 0 <= y < height B /\ own_y t y j.

Lemma bin_cells_inj x y t x' y' t' j :
  0 <= x < width B -> 0 <= y < height B ->
  0 <= x' < width B -> 0 <= y' < height B ->
  bin_cells FB x y t j -> bin_cells FB x' y' t' j ->
  x = x' /\ y = y' /\ t = t'.
Proof.
  intros Hx Hy Hx' Hy' C C'.
  unfold bin_cells in *. rewrite !at3_flat, FB_width, FB_height, FB_channels in *.
  assert (E : exists k k', 0 <= k < 2 /\ 0 <= k' < 2 /\
              flat (width B) (height B) 2 x y t k = flat (width B) (height B) 2 x' y' t' k').
  { destruct C as [-> | ->], C' as [E | E];
      [exists 0, 0 | exists 0, 1 | exists 1, 0 | exists 1, 1]; repeat split; try lia; exact E. }
  destruct E as (k & k' & Hk & Hk' & E).
  apply flat_inj in E; lia.
Qed.

Lemma body_x_local t y x : local_update (own_x t y x) (body_x t y x).
Proof.
  unfold own_x, bin_cells, body_x. split.
  - intros d j Hno. cbv zeta.
    rewrite !upd_other by (intros ->; apply Hno; auto). reflexivity.
  - intros d d' j Ho Ag. cbv zeta.
    rewrite (Ag (at3 FB x y t + 0)), (Ag (at3 FB x y t + 1)) by auto.
    unfold upd. destruct Ho as [-> | ->].
    + rewrite Z.eqb_refl. reflexivity.
    + destruct (at3 FB x y t + 1 =? at3 FB x y t + 0); [reflexivity|].
      rewrite Z.eqb_refl. reflexivity.
Qed.

Lemma body_y_local t y : 0 <= y < height B -> local_update (own_y t y) (body_y t y).
Proof.
  intros Hy. unfold own_y, body_y. apply for_loop_local.
  - intros x _. apply body_x_local.
  - intros x x' j Hx Hx' O O'.
    destruct (bin_cells_inj x y t x' y t j Hx Hy Hx' Hy O O') as (E & _). exact E.
Qed.

Lemma body_t_local t : local_update (own_t t) (body_t t).
Proof.
  unfold own_t, body_t. apply for_loop_local.
  - intros y Hy. apply body_y_local, Hy.
  - intros y y' j Hy Hy' (x & Hx & O) (x' & Hx' & O').
    destruct (bin_cells_inj x y t x' y' t j Hx Hy Hx' Hy' O O') as (_ & E & _). exact E.
Qed.

Lemma own_t_disjoint t t' j : own_t t j -> own_t t' j -> t = t'.
Proof.
  intros (y & Hy & x & Hx & O) (y' & Hy' & x' & Hx' & O').
  destruct (bin_cells_inj x y t x' y' t' j Hx Hy Hx' Hy' O O') as (_ & _ & E). exact E.
Qed.

(** After the three loops every bin of [FB] is its product with the bin of
    [FK] at the same place. *)
Lemma cho_apply_factor_bin x y t :
  0 <= x < width B -> 0 <= y < height B -> 0 <= t < channels B ->
  bin (cho_apply_factor B FB FK) x y t = cmul (bin FB x y t) (bin FK x y 0).
Proof.
  intros Hx Hy Ht.
  assert (Cell : forall j, own_x t y x j ->
            data (cho_apply_factor B FB FK) j = body_x t y x (data FB) j).
  { intros j O. unfold cho_apply_factor. cbn [data with_data].
    change (for_loop 0 (channels B) body_t (data FB) j = body_x t y x (data FB) j).
    rewrite (proj1 (for_loop_cells own_t body_t 0 (channels B)
                      (fun k _ => body_t_local k)
                      (fun k k' j' _ _ => own_t_disjoint k k' j') (data FB)) t j Ht)
      by (exists y; split; [exact Hy | exists x; split; [exact Hx | exact O]]).
    unfold body_t.
    rewrite (proj1 (for_loop_cells (own_y t) (body_y t) 0 (height B)
                      (fun k Hk => body_y_local t k Hk)
                      (fun k k' j' Hk Hk' O1 O2 =>
                         match O1, O2 with
                         | ex_intro _ x1 (conj Hx1 P1), ex_intro _ x2 (conj Hx2 P2) =>
                             proj1 (proj2 (bin_cells_inj x1 k t x2 k' t j' Hx1 Hk Hx2 Hk' P1 P2))
                         end) (data FB)) y j Hy)
      by (exists x; split; [exact Hx | exact O]).
    unfold body_y.
    rewrite (proj1 (for_loop_cells (own_x t y) (body_x t y) 0 (width B)
                      (fun k _ => body_x_local t y k)
                      (fun k k' j' Hk Hk' O1 O2 =>
                         proj1 (bin_cells_inj k y t k' y t j' Hk Hy Hk' Hy O1 O2))
                      (data FB)) x j Hx O).
    reflexivity. }
  unfold bin, px.
  rewrite (Cell (at3 (cho_apply_factor B FB FK) x y t + 0)) by (left; reflexivity).
  rewrite (Cell (at3 (cho_apply_factor B FB FK) x y t + 1)) by (right; reflexivity).
  change (at3 (cho_apply_factor B FB FK) x y t) with (at3 FB x y t).
  unfold body_x. cbv zeta.
  rewrite upd_same.
  rewrite upd_other by lia. rewrite upd_same.
  reflexivity.
Qed.

End FactorLoop.

End ComplexFacts.

(* ===================================================================== *)
(** ** The filter bank of the code and the table of the specification *)
(* ===================================================================== *)

(** A flat index is the cell of channel 0, frame 0 of the pixel [(x, y)]
    exactly when its four coordinates say so. *)
Lemma decode_cell (w h x y j : Z) :
  0 <= x < w -> 0 <= y < h ->
  (j =? flat w h 2 x y 0 0)
  = (chan_of 2 j =? 0) && (frame_of w h 2 j =? 0) &&
    ((col_of w 2 j =? x) && (row_of w h 2 j =? y)).
Proof.
  intros Hx Hy.
  destruct (Z.eqb_spec j (flat w h 2 x y 0 0)) as [-> | N].
  - rewrite chan_of_flat, frame_of_flat, col_of_flat, row_of_flat by lia.
    rewrite !Z.eqb_refl. reflexivity.
  - symmetry.
    destruct (Z.eqb_spec (chan_of 2 j) 0) as [C|]; [|reflexivity].
    destruct (Z.eqb_spec (frame_of w h 2 j) 0) as [T|]; [|reflexivity].
    destruct (Z.eqb_spec (col_of w 2 j) x) as [X|]; [|reflexivity].
    destruct (Z.eqb_spec (row_of w h 2 j) y) as [Y|]; [|reflexivity].
    exfalso. apply N.
    unfold chan_of, frame_of, col_of, row_of in *.
    pose proof (Z.div_mod j 2 ltac:(lia)) as D1.
    pose proof (Z.div_mod (j / 2) w ltac:(lia)) as D2.
    pose proof (Z.div_mod (j / 2 / w) h ltac:(lia)) as D3.
    rewrite C in D1. rewrite X in D2. rewrite T, Y in D3.
    unfold flat. rewrite D1, D2, D3. ring.
Qed.

Section TableBank.
Context {CO : Collab R}.

(** On a canvas at least 3 x 3 and in exact arithmetic, the [switch] of the
    code builds filter [i] of the table and gives it the weight of the
    table. *)
Lemma stencil_table (w h i : Z) :
  3 <= w -> 3 <= h -> 0 <= i <= 5 ->
  @cho_stencil R _ i (new_image w h 1 2) = Some (table_weight i, table_stencil w h i).
Proof.
  intros Hw Hh Hi.
  destruct (index_cases i Hi) as [-> | [-> | [-> | [-> | [-> | ->]]]]];
    unfold cho_stencil; cbv zeta;
    repeat (rewrite set_px_inside
              by (cbn [width height frames channels new_image with_data]; lia));
    (f_equal; f_equal;
     [ unfold table_weight, lit; cbn [bank_weight fst snd of_int fdiv real_scalar]; field
     | unfold table_stencil, with_data, new_image;
       cbn [width height frames channels data]; f_equal;
       apply functional_extensionality; intros j;
       unfold upd; rewrite !at3_flat; cbn [width height frames channels];
       rewrite !(decode_cell w h) by lia;
       unfold tap_at; cbn [bank_taps fold_left];
       generalize (chan_of 2 j) (frame_of w h 2 j) (col_of w 2 j) (row_of w h 2 j);
       intros ch fr cx ry;
       destruct (Z.eqb_spec ch 0); cbn [andb]; [|reflexivity];
       destruct (Z.eqb_spec fr 0); cbn [andb]; [|reflexivity];
       repeat (match goal with
               | |- context [Z.eqb ?a ?b] => destruct (Z.eqb_spec a b); try lia
               end; cbn [andb]);
       reflexivity ]).
Qed.

End TableBank.

Section ClosedForm.
Context {CO : Collab R}.

Lemma for_loop_6 {S : Type} (body : Z -> S -> S) (s : S) :
  for_loop 0 6 body s = body 5 (body 4 (body 3 (body 2 (body 1 (body 0 s))))).
Proof. reflexivity. Qed.

(** On a canvas at least 3 x 3 the loop over the six filters has a result,
    and its two running sums are, at every complex sample of the canvas,
    the sums of the specification over the filters of its table. *)
Lemma cho_sums_cbin (w h : Z) :
  3 <= w -> 3 <= h ->
  exists sums,
    for_loopO 0 6 (cho_accumulate w h) (new_image w h 1 2, new_image w h 1 2)
    = Some sums /\
    forall x y,
      let m := (0 * h + y) * w + x in
      cbin (data (fst sums)) m = sum_deriv w h x y /\
      cbin (data (snd sums)) m = sum_grad w h x y.
Proof.
  intros Hw Hh. unfold for_loopO. rewrite for_loop_6.
  cbv beta iota. unfold cho_accumulate.
  rewrite !(stencil_table w h) by lia.
  cbv beta iota zeta. cbn [fst snd Z.eqb orb Pos.eqb].
  eexists. split; [reflexivity|].
  intros x y. cbv zeta.
  unfold sum_deriv, sum_grad, bank_spectrum, bank_w.
  cbn [fold_left fst snd].
  rewrite !bin_cbin by reflexivity.
  rewrite !cbin_Add, !cbin_Scale, !cbin_ComplexMultiply.
  unfold copy. split; reflexivity.
Qed.

(** Every bin of the spectrum handed to the inverse transform is the bin of
    [F(B)] of that channel times the kernel-dependent factor of that place,
    the same for all channels. *)
Lemma cho_spectrum_bin (B K FL : Image R) (x y t : Z) :
  frames B = 1 -> 3 <= width B -> 3 <= height B ->
  cho_spectrum B K = Some FL ->
  0 <= x < width B -> 0 <= y < height B -> 0 <= t < channels B ->
  bin FL x y t
  = cmul (bin (FFT (RealComplex (Transpose_c_t B)) true true false) x y t)
         (kernel_factor B K x y).
Proof.
  intros Fr Hw Hh E Hx Hy Ht.
  unfold cho_spectrum in E. cbv zeta in E.
  destruct (cho_sums_cbin (width B) (height B) Hw Hh) as (sums & Es & Hs).
  rewrite Es in E. injection E as <-.
  rewrite cho_apply_factor_bin;
    [ | reflexivity | reflexivity | cbn; rewrite Fr; reflexivity
      | assumption | assumption | assumption ].
  f_equal.
  rewrite bin_cbin by reflexivity.
  cbn [width height FFT ComplexDivide ComplexMultiply ComplexConjugate Add Scale
       with_data EnlargeKernel copy].
  change (cbin
    (data (ComplexDivide
             (ComplexMultiply
                (ComplexConjugate (FFT (EnlargeKernel K (width B) (height B)) true true false))
                (fst sums) false)
             (Add
                (ComplexMultiply
                   (ComplexMultiply
                      (copy (FFT (EnlargeKernel K (width B) (height B)) true true false))
                      (FFT (EnlargeKernel K (width B) (height B)) true true false) true)
                   (fst sums) false)
                (Scale (snd sums) cho_alpha))
             false))
    ((0 * height B + y) * width B + x)
    = kernel_factor B K x y).
  rewrite cbin_ComplexDivide, cbin_Add, cbin_Scale, !cbin_ComplexMultiply,
    cbin_ComplexConjugate.
  destruct (Hs x y) as (ES & EG).
  cbv zeta in ES, EG. rewrite ES, EG.
  unfold kernel_factor. cbv zeta.
  rewrite bin_cbin by reflexivity.
  reflexivity.
Qed.

End ClosedForm.
(** In exact arithmetic the order of the products does not matter. *)
Lemma closed_form_factor (CO : Collab R) (B K : Image R) (x y t : Z) :
  closed_form B K x y t
  = cmul (bin (FFT (RealComplex (Transpose_c_t B)) true true false) x y t)
         (kernel_factor B K x y).
Proof.
  unfold closed_form, kernel_factor. cbv zeta.
  generalize (bin (FFT (EnlargeKernel K (width B) (height B)) true true false) x y 0).
  generalize (bin (FFT (RealComplex (Transpose_c_t B)) true true false) x y t).
  generalize (sum_deriv (width B) (height B) x y).
  generalize (sum_grad (width B) (height B) x y).
  generalize (@cho_alpha R _).
  intros al [g1 g2] [s1 s2] [b1 b2] [k1 k2].
  unfold cdiv, cmul, cnorm2, cconj, cadd, cscale.
  cbn [fst snd fadd fsub fmul fdiv fopp real_scalar].
  unfold Rdiv. f_equal; ring.
Qed.

(** C1. For every valid input of at least 3 x 3 pixels the closed-form
    solver pads the blurred image, saves it, and returns the crop of the
    real part of the inverse transform of the spectrum [FL] which, in exact
    arithmetic, is at every frequency bin of every channel
    [F(K)^T F(B) sum_i w_i |F(deriv_i)|^2 /
     (|F(K)|^2 sum_i w_i |F(deriv_i)|^2 + alpha (|F(dx)|^2 + |F(dy)|^2))]
    with [alpha = 1], the six filters and weights being those of the table
    of the specification; the kernel-dependent factor is the same for all
    channels and multiplies the bin of [F(B)] of each channel.  (On an image
    of one row the filter bank is stored outside its buffer and the run has
    no result.) *)
Theorem cho_closed_form (CO : Collab R) (Blurred K : Image R) (files : list string) :
  valid_input Blurred K -> 3 <= width Blurred -> 3 <= height Blurred ->
  let B := applyPadding Blurred in
  @cho_alpha R _ = 1%R /\
  exists FL,
    cho_spectrum B K = Some FL /\
    applyCho2009 Blurred K files
    = (Done (Crop (Transpose_c_t (ComplexReal (IFFT FL true true false)))
                  ((width B - width Blurred) ÷ 2) ((height B - height Blurred) ÷ 2) 0
                  (width Blurred) (height Blurred) (frames Blurred)),
       files ++ ["padded.tmp"%string]) /\
    forall x y t,
      0 <= x < width B -> 0 <= y < height B -> 0 <= t < channels B ->
      bin FL x y t = closed_form B K x y t /\
      bin FL x y t
      = cmul (bin (FFT (RealComplex (Transpose_c_t B)) true true false) x y t)
             (kernel_factor B K x y).
Proof.
  intros V Hw Hh. cbv zeta. split; [reflexivity|].
  destruct (valid_input_accepted _ _ V) as (O & S).
  destruct (canvas_roomy Blurred Hw Hh) as (Cw & Ch).
  destruct (applyCho2009_runs Blurred K files O S Cw Ch)
    as (FL & E & _ & _ & _ & _ & Run).
  exists FL. split; [exact E|]. split; [exact Run|].
  intros x y t Hx Hy Ht.
  assert (Fr : frames (applyPadding Blurred) = 1).
  { destruct V as (_ & _ & _ & _ & _ & _ & Fb). exact Fb. }
  rewrite closed_form_factor.
  split; apply (cho_spectrum_bin _ K); assumption.
Qed.
(* ===================================================================== *)
(** ** The theorems at concrete inputs *)
(* ===================================================================== *)

Ltac valid_sample := unfold valid_input; cbn; repeat split; reflexivity.

Lemma cho_closed_form_witness :
  let CO := @sample_collab R _ in
  let Blurred := @ramp R _ 3 3 1 2 in
  let B := applyPadding Blurred in
  @cho_alpha R _ = 1%R /\
  exists FL,
    cho_spectrum B unit_kernel = Some FL /\
    applyCho2009 Blurred unit_kernel []
    = (Done (Crop (Transpose_c_t (ComplexReal (IFFT FL true true false)))
                  ((width B - width Blurred) ÷ 2) ((height B - height Blurred) ÷ 2) 0
                  (width Blurred) (height Blurred) (frames Blurred)),
       [] ++ ["padded.tmp"%string]) /\
    forall x y t,
      0 <= x < width B -> 0 <= y < height B -> 0 <= t < channels B ->
      bin FL x y t = closed_form B unit_kernel x y t /\
      bin FL x y t
      = cmul (bin (FFT (RealComplex (Transpose_c_t B)) true true false) x y t)
             (kernel_factor B unit_kernel x y).
Proof.
  intros CO Blurred B. apply (cho_closed_form CO Blurred unit_kernel []).
  - valid_sample.
  - unfold Blurred, ramp. cbn [width]. lia.
  - unfold Blurred, ramp. cbn [height]. lia.
Defined.

Lemma solvers_reject_before_work_witness :
  let CO := @sample_collab float32 _ in
  (exists msg, applyCho2009 (@ramp float32 _ 4 4 1 3) even_kernel [] = (Panic msg, [])) /\
  (exists msg, applyShan2008 (@ramp float32 _ 4 4 1 3) even_kernel [] = (Panic msg, [])).
Proof.
  intros CO. apply solvers_reject_before_work. left. reflexivity.
Defined.

Lemma applyCho2009_shape_witness :
  let CO := @sample_collab float32 _ in
  exists im files',
    applyCho2009 (@ramp float32 _ 4 3 1 3) unit_kernel [] = (Done im, files') /\
    width im = 4 /\ height im = 3 /\ channels im = 3 /\ frames im = 1.
Proof.
  intros CO. apply (applyCho2009_shape (ramp 4 3 1 3) unit_kernel []).
  - valid_sample.
  - unfold ramp. cbn [width]. lia.
  - unfold ramp. cbn [height]. lia.
Defined.

Lemma applyPadding_crop_roundtrip_witness :
  let CO := @sample_collab float32 _ in
  let B := @ramp float32 _ 6 6 1 1 in
  px (Crop (applyPadding B) (padding_origin_x B) (padding_origin_y B) 0
           (width B) (height B) (frames B)) 2 3 0 0
  = px B 2 3 0 0 /\
  px (padding_filled B) (padding_x B + 2) (padding_y B + 3) 0 0
  = px (padding_canvas B) (padding_x B + 2) (padding_y B + 3) 0 0.
Proof.
  intros CO B. apply applyPadding_crop_roundtrip; cbn; lia.
Defined.

Lemma applyShan2008_single_channel_witness :
  let CO := @sample_collab float32 _ in
  exists im files',
    applyShan2008 (@ramp float32 _ 4 3 1 3) unit_kernel [] = (Done im, files') /\
    channels (shan_canvas (@ramp float32 _ 4 3 1 3)) = 1 /\
    channels im = 1 /\ channels im <> 3 /\
    width im = 4 /\ height im = 3 /\ frames im = 1.
Proof.
  intros CO. apply (applyShan2008_single_channel (ramp 4 3 1 3) unit_kernel []).
  - valid_sample.
  - reflexivity.
  - unfold ramp. cbn [width]. lia.
  - unfold ramp. cbn [height]. lia.
Defined.

(** *** Runs of the model on small inputs *)

Example dxx_stencil :
  match @cho_stencil float32 _ 2 (new_image 4 4 1 2) with
  | Some (w_i, FDeriv) =>
      map (fun x => px FDeriv x 0 0 0) [0; 1; 2; 3] = map of_int [1; -2; 1; 0] /\
      w_i = lit 25 2
  | None => False
  end.
Proof. vm_compute. split; reflexivity. Qed.

(** On the 7 x 1 canvas of a 5 x 1 image the horizontal filters fit and the
    three filters with a tap in row 1 or 2 do not. *)
Example stencils_on_one_row :
  map (fun i => match @cho_stencil float32 _ i (new_image 7 1 1 2) with
                | Some _ => true
                | None => false
                end) [0; 1; 2; 3; 4; 5]
  = [true; true; true; false; false; false].
Proof. vm_compute. reflexivity. Qed.

(** A valid 5 x 1 image: the closed-form solver saves the padded image and
    has no result; the iterative solver has none before its first round. *)
Lemma applyCho2009_one_row :
  let CO := @sample_collab float32 _ in
  applyCho2009 (@ramp float32 _ 5 1 1 1) unit_kernel []
  = (Undefined, ["padded.tmp"%string]).
Proof.
  intros CO.
  exact (applyCho2009_flat (ramp 5 1 1 1) unit_kernel [] ltac:(valid_sample) eq_refl).
Defined.

Lemma applyShan2008_one_row :
  let CO := @sample_collab float32 _ in
  applyShan2008 (@ramp float32 _ 5 1 1 3) unit_kernel [] = (Undefined, []).
Proof.
  intros CO.
  exact (applyShan2008_flat (ramp 5 1 1 3) unit_kernel [] ltac:(valid_sample) eq_refl).
Defined.

Example psi_pixel_small_gradient :
  let sch := @schedule_after float32 _ 0 in
  ans (psi_pixel sch (lit 1 100) (of_int 0) (of_int 0) unset_choice) = fopp prior_lt.
Proof. vm_compute. reflexivity. Qed.

Example applyPadding_3x3 :
  let CO := @sample_collab float32 _ in
  let P := applyPadding (@ramp float32 _ 3 3 1 1) in
  (width P, height P, frames P, channels P) = (6, 6, 1, 1) /\
  map (fun x => px P x 2 0 0) [1; 2; 3; 4] = map of_int [1; 1; 2; 3] /\
  map (fun x => px P x 3 0 0) [2; 3; 4] = map of_int [4; 5; 6].
Proof. vm_compute. repeat split. Qed.

Example applyShan2008_files :
  let CO := @sample_collab float32 _ in
  snd (applyShan2008 (@ramp float32 _ 3 3 1 3) unit_kernel [])
  = ["output01.tmp"; "output02.tmp"]%string.
Proof. vm_compute. reflexivity. Qed.

Example applyCho2009_files :
  let CO := @sample_collab float32 _ in
  snd (applyCho2009 (@ramp float32 _ 3 3 1 3) unit_kernel []) = ["padded.tmp"%string].
Proof. vm_compute. reflexivity. Qed.

(** The solvers crop back at [(canvas - original) / 2]; that is the place of
    the embedded image when the margin is even, and one less when it is odd
    (a 6 x 6 image has margin 3: the image lies at 2, the crop starts at 1). *)
Remark crop_back_offset_even {F} `{Scalar F} `{Collab F} (B : Image F) :
  0 <= width B -> 0 <= height B -> Z.even (padding_x B) = true ->
  (width (applyPadding B) - width B) ÷ 2 = padding_origin_x B.
Proof.
  intros HW HH E.
  destruct (padding_margins B HW HH) as (Ha & Hx & _).
  unfold padding_origin_x, applyPadding. cbn [width Crop].
  replace (width B + padding_x B - width B) with (padding_x B) by lia.
  apply Z.even_spec in E. destruct E as [m E]. rewrite E.
  rewrite (Z.mul_comm 2 m), Z.quot_mul by lia. lia.
Qed.

Example crop_back_offset_odd :
  let CO := @sample_collab float32 _ in
  let B := @ramp float32 _ 6 6 1 1 in
  padding_x B = 3 /\ padding_origin_x B = 2 /\
  (width (applyPadding B) - width B) ÷ 2 = 1.
Proof. vm_compute. repeat split. Qed.


(* ===================================================================== *)
(** ** What the solvers accept, report and write *)
(* ===================================================================== *)

Section Acceptance.
Context {F : Type} {SF : Scalar F} {CO : Collab F}.

Lemma kernel_is_odd_iff (K : Image F) :
  kernel_is_odd K = true <-> Z.rem (width K) 2 = 1 /\ Z.rem (height K) 2 = 1.
Proof.
  unfold kernel_is_odd, c_mod. rewrite andb_true_iff, !Z.eqb_eq. reflexivity.
Qed.

Lemma single_framed_iff (B K : Image F) :
  single_framed B K = true <-> channels K = 1 /\ frames K = 1 /\ frames B = 1.
Proof.
  unfold single_framed. rewrite !andb_true_iff, !Z.eqb_eq. tauto.
Qed.

Lemma applyCho2009_refuses (Blurred K : Image F) files :
  kernel_is_odd K = false \/ single_framed Blurred K = false ->
  exists msg, applyCho2009 Blurred K files = (Panic msg, files).
Proof.
  intros R. unfold applyCho2009, bind, assert_.
  destruct (kernel_is_odd K), (single_framed Blurred K);
    try (destruct R; discriminate); eexists; reflexivity.
Qed.

Lemma applyShan2008_refuses (B K : Image F) files :
  kernel_is_odd K = false \/ single_framed B K = false ->
  exists msg, applyShan2008 B K files = (Panic msg, files).
Proof.
  intros R. unfold applyShan2008, bind, assert_.
  destruct (kernel_is_odd K), (single_framed B K);
    try (destruct R; discriminate); eexists; reflexivity.
Qed.

(** The iterative solver on accepted arguments: either the filter bank does
    not fit the canvas and the run has no result, or the two rounds run. *)
Lemma applyShan2008_accepted (B K : Image F) files :
  kernel_is_odd K = true -> single_framed B K = true ->
  applyShan2008 B K files = (Undefined, files) \/
  exists r, applyShan2008 B K files
            = (Done r, files ++ ["output01.tmp"; "output02.tmp"]%string).
Proof.
  intros O S. unfold applyShan2008, bind, assert_, defined, ret.
  rewrite S, O. cbv beta iota zeta.
  match goal with
  | |- context [for_loopO 0 6 ?body ?st0] => destruct (for_loopO 0 6 body st0) as [bank|]
  end; [right | left; reflexivity].
  match goal with
  | |- context [for_loopM 1 (MAX_ITERATION + 1) (shan_round ?BL ?sm ?dx ?dy ?bk) ?st] =>
      destruct (shan_rounds_run BL sm dx dy bk st files) as (st' & E & _)
  end.
  eexists. rewrite E. reflexivity.
Qed.

Lemma applyCho2009_accepted (Blurred K : Image F) files :
  kernel_is_odd K = true -> single_framed Blurred K = true ->
  applyCho2009 Blurred K files = (Undefined, files ++ ["padded.tmp"%string]) \/
  exists r, applyCho2009 Blurred K files = (Done r, files ++ ["padded.tmp"%string]).
Proof.
  intros O S. unfold applyCho2009, bind, assert_, FileTMP_save, defined, ret.
  rewrite O, S.
  destruct (cho_spectrum (applyPadding Blurred) K); [right; eexists | left]; reflexivity.
Qed.

(** Each solver stops at an assertion exactly when the test of the code
    fails: the kernel's width or height does not leave remainder 1 on
    division by 2 (C's [%]), or the kernel has not one channel and one
    frame, or the blurred image has not one frame.  Nothing else is checked:
    not the size of the blurred image, not its channel count.  On an image
    of at least 3 x 3 pixels each solver returns an image exactly when the
    test passes. *)
Theorem solvers_accept_exactly (Blurred K : Image F) (files : list string) :
  let accepted :=
    Z.rem (width K) 2 = 1 /\ Z.rem (height K) 2 = 1 /\
    channels K = 1 /\ frames K = 1 /\ frames Blurred = 1 in
  ((exists msg files', applyCho2009 Blurred K files = (Panic msg, files')) <-> ~ accepted) /\
  ((exists msg files', applyShan2008 Blurred K files = (Panic msg, files')) <-> ~ accepted) /\
  (3 <= width Blurred -> 3 <= height Blurred ->
   ((exists im files', applyCho2009 Blurred K files = (Done im, files')) <-> accepted) /\
   ((exists im files', applyShan2008 Blurred K files = (Done im, files')) <-> accepted)).
Proof.
  cbv zeta.
  assert (A : kernel_is_odd K = true /\ single_framed Blurred K = true <->
              Z.rem (width K) 2 = 1 /\ Z.rem (height K) 2 = 1 /\
              channels K = 1 /\ frames K = 1 /\ frames Blurred = 1).
  { rewrite kernel_is_odd_iff, single_framed_iff. tauto. }
  assert (Rc : ~ (kernel_is_odd K = true /\ single_framed Blurred K = true) ->
               exists msg, applyCho2009 Blurred K files = (Panic msg, files)).
  { intros N. apply applyCho2009_refuses.
    destruct (kernel_is_odd K), (single_framed Blurred K); auto. exfalso; auto. }
  assert (Rs : ~ (kernel_is_odd K = true /\ single_framed Blurred K = true) ->
               exists msg, applyShan2008 Blurred K files = (Panic msg, files)).
  { intros N. apply applyShan2008_refuses.
    destruct (kernel_is_odd K), (single_framed Blurred K); auto. exfalso; auto. }
  assert (Nc : kernel_is_odd K = true /\ single_framed Blurred K = true ->
               ~ exists msg files', applyCho2009 Blurred K files = (Panic msg, files')).
  { intros (O & S) (msg & files' & E).
    destruct (applyCho2009_accepted Blurred K files O S) as [E' | (r & E')];
      rewrite E' in E; discriminate. }
  assert (Ns : kernel_is_odd K = true /\ single_framed Blurred K = true ->
               ~ exists msg files', applyShan2008 Blurred K files = (Panic msg, files')).
  { intros (O & S) (msg & files' & E).
    destruct (applyShan2008_accepted Blurred K files O S) as [E' | (r & E')];
      rewrite E' in E; discriminate. }
  split; [|split].
  - split.
    + intros P Acc. apply A in Acc. exact (Nc Acc P).
    + intros N. destruct (Rc (fun H => N (proj1 A H))) as (msg & E). eauto.
  - split.
    + intros P Acc. apply A in Acc. exact (Ns Acc P).
    + intros N. destruct (Rs (fun H => N (proj1 A H))) as (msg & E). eauto.
  - intros Hw Hh. split; split.
    + intros (im & files' & E). apply A.
      destruct (kernel_is_odd K) eqn:O, (single_framed Blurred K) eqn:S;
        [split; reflexivity | | |];
        (destruct Rc as (msg & E'); [intros (X & Y); discriminate
                                    | rewrite E' in E; discriminate]).
    + intros Acc. apply A in Acc. destruct Acc as (O & S).
      destruct (canvas_roomy Blurred Hw Hh) as (Cw & Ch).
      destruct (applyCho2009_runs Blurred K files O S Cw Ch) as (FB & _ & _ & _ & _ & _ & E).
      eexists. eexists. exact E.
    + intros (im & files' & E). apply A.
      destruct (kernel_is_odd K) eqn:O, (single_framed Blurred K) eqn:S;
        [split; reflexivity | | |];
        (destruct Rs as (msg & E'); [intros (X & Y); discriminate
                                    | rewrite E' in E; discriminate]).
    + intros Acc. apply A in Acc. destruct Acc as (O & S).
      assert (Cw : 3 <= width (shan_canvas Blurred) /\ 3 <= height (shan_canvas Blurred)).
      { unfold shan_canvas. apply canvas_roomy; unfold shan_gray;
          destruct (channels Blurred =? 3); assumption. }
      destruct (applyShan2008_runs Blurred K files O S (proj1 Cw) (proj2 Cw))
        as (Lf & E & _).
      eexists. eexists. exact E.
Qed.

(** The two solvers check their arguments in opposite orders: when the
    kernel has an even dimension and the frame or channel counts are wrong as
    well, the closed-form solver reports the odd-dimension message and the
    iterative solver the single-channel, single-frame message. *)
Theorem solvers_first_failed_assertion (Blurred K : Image F) (files : list string) :
  kernel_is_odd K = false -> single_framed Blurred K = false ->
  applyCho2009 Blurred K files = (Panic msg_odd, files) /\
  applyShan2008 Blurred K files = (Panic msg_shape, files) /\
  msg_odd <> msg_shape.
Proof.
  intros O S. unfold applyCho2009, applyShan2008, bind, assert_.
  rewrite O, S. repeat split. discriminate.
Qed.

(** What the solvers write.  On accepted arguments the closed-form solver
    writes [padded.tmp] before it builds its filter bank, so the file is
    there whether or not the run has a result; the iterative solver builds
    the bank first and writes [output01.tmp] then [output02.tmp], one at the
    end of each round, only when the bank fits the canvas.  On an image of
    at least 3 x 3 pixels both runs have a result.  The files are added
    after those written before, in that order, and nothing else is
    written. *)
Theorem solvers_checkpoint_files (Blurred K : Image F) (files : list string) :
  valid_input Blurred K ->
  snd (applyCho2009 Blurred K files) = files ++ ["padded.tmp"%string] /\
  (snd (applyShan2008 Blurred K files) = files \/
   snd (applyShan2008 Blurred K files) = files ++ ["output01.tmp"; "output02.tmp"]%string) /\
  (3 <= width Blurred -> 3 <= height Blurred ->
   snd (applyShan2008 Blurred K files) = files ++ ["output01.tmp"; "output02.tmp"]%string).
Proof.
  intros V. destruct (valid_input_accepted _ _ V) as (O & S). split; [|split].
  - destruct (applyCho2009_accepted Blurred K files O S) as [E | (r & E)];
      rewrite E; reflexivity.
  - destruct (applyShan2008_accepted Blurred K files O S) as [E | (r & E)];
      rewrite E; [left | right]; reflexivity.
  - intros Hw Hh.
    assert (Cw : 3 <= width (shan_canvas Blurred) /\ 3 <= height (shan_canvas Blurred)).
    { unfold shan_canvas. apply canvas_roomy; unfold shan_gray;
        destruct (channels Blurred =? 3); assumption. }
    destruct (applyShan2008_runs Blurred K files O S (proj1 Cw) (proj2 Cw)) as (Lf & E & _).
    rewrite E. reflexivity.
Qed.

End Acceptance.

(* ===================================================================== *)
(** ** Where the solvers crop their result *)
(* ===================================================================== *)

Section CropBack.
Context {F : Type} {SF : Scalar F} {CO : Collab F}.

Lemma half_margin (n : Z) : 0 <= n -> n ÷ 2 = n - n ÷ 2 - Z.rem n 2 /\ 0 <= n ÷ 2 <= n.
Proof.
  intros Hn. pose proof (Z.quot_rem' n 2) as E.
  pose proof (Z.rem_bound_pos n 2 Hn ltac:(lia)). lia.
Qed.

(** The closed-form solver takes sample [(x, y)] of its result from the
    deconvolved canvas at [(x + x_padding / 2, y + y_padding / 2)], while
    [applyPadding] put sample [(x, y)] of the blurred image at
    [(x + x_padding - x_padding / 2, y + y_padding - y_padding / 2)].  The
    two places are the same when the margin is even; when it is odd the
    result is read one column (one row) before the place of the input. *)
Theorem applyCho2009_crop_alignment (Blurred K : Image F) (files : list string)
    (x y c : Z) :
  valid_input Blurred K -> 3 <= width Blurred -> 3 <= height Blurred ->
  0 <= x < width Blurred -> 0 <= y < height Blurred -> 0 <= c < channels Blurred ->
  let B := applyPadding Blurred in
  exists FL im files',
    cho_spectrum B K = Some FL /\
    applyCho2009 Blurred K files = (Done im, files') /\
    px im x y 0 c
    = px (Transpose_c_t (ComplexReal (IFFT FL true true false)))
         (x + padding_x Blurred ÷ 2) (y + padding_y Blurred ÷ 2) 0 c /\
    padding_x Blurred ÷ 2 = padding_origin_x Blurred - Z.rem (padding_x Blurred) 2 /\
    padding_y Blurred ÷ 2 = padding_origin_y Blurred - Z.rem (padding_y Blurred) 2.
Proof.
  intros V Hw Hh Hx Hy Hc. cbv zeta.
  destruct (valid_input_accepted _ _ V) as (O & S).
  destruct V as (_ & _ & _ & _ & _ & _ & Fb).
  destruct (padding_margins Blurred ltac:(lia) ltac:(lia)) as (Ha & Hpx & Hpy).
  destruct (half_margin (padding_x Blurred) ltac:(lia)) as (Ex & Bx).
  destruct (half_margin (padding_y Blurred) ltac:(lia)) as (Ey & By).
  destruct (canvas_roomy Blurred Hw Hh) as (Cw & Ch).
  destruct (applyCho2009_runs Blurred K files O S Cw Ch)
    as (FL & E & Sw & Sh & Sf & Sc & Run).
  exists FL. eexists. eexists. split; [exact E|]. split; [exact Run|].
  split; [|unfold padding_origin_x, padding_origin_y; lia].
  assert (Ew : width (applyPadding Blurred) = width Blurred + padding_x Blurred)
    by reflexivity.
  assert (Eh : height (applyPadding Blurred) = height Blurred + padding_y Blurred)
    by reflexivity.
  rewrite Ew, Eh.
  replace (width Blurred + padding_x Blurred - width Blurred) with (padding_x Blurred) by lia.
  replace (height Blurred + padding_y Blurred - height Blurred) with (padding_y Blurred) by lia.
  rewrite px_Crop.
  - f_equal.
  - lia.
  - lia.
  - change (channels (Transpose_c_t _)) with (frames FL). rewrite Sf. exact Hc.
  - change (width (Transpose_c_t _)) with (width FL). rewrite Sw, Ew. lia.
  - change (height (Transpose_c_t _)) with (height FL). rewrite Sh, Eh. lia.
  - change (frames (Transpose_c_t _)) with (channels FL / 2).
    rewrite Sc. change (frames (applyPadding Blurred)) with (frames Blurred).
    rewrite Fb. cbn. lia.
Qed.

End CropBack.

(* ===================================================================== *)
(** ** [parse]: arguments, dispatch and the stack *)
(* ===================================================================== *)

Section ParseFacts.
Context {F : Type} {SF : Scalar F} {CO : Collab F}.

(** With no argument, or with more than one, [parse] stops at its first
    assertion, whatever the stack holds: the stack is not read, no solver
    runs and no file is written. *)
Theorem parse_wrong_argument_count (underflow : Run (Image F)) (args : list string)
    (s : list (Image F)) (files : list string) :
  List.length args <> 1%nat ->
  parse underflow args s files = (Panic msg_args, files).
Proof.
  intros H. unfold parse, bind, assert_.
  replace (List.length args =? 1)%nat with false; [reflexivity|].
  symmetry. apply Nat.eqb_neq. exact H.
Qed.

(** A method name other than [cho] and [shan] is refused with a message that
    quotes it; no solver runs, no file is written. *)
Theorem parse_unknown_method (underflow : Run (Image F)) (method : string)
    (kernel im : Image F) (rest : list (Image F)) (files : list string) :
  method <> "cho"%string -> method <> "shan"%string ->
  parse underflow [method] (kernel :: im :: rest) files
  = (Panic (msg_unknown method), files).
Proof.
  intros Hc Hs. unfold parse, bind, assert_, stack, ret, panic. cbn.
  apply String.eqb_neq in Hc, Hs. rewrite Hc, Hs. reflexivity.
Qed.

(** [parse] takes the kernel from the top of the stack and the blurred image
    from the place below, runs the solver the argument names on that pair,
    and pushes the result: the stack it leaves is the result on top of the
    unchanged stack, so both inputs are still there.  The files written are
    those of the solver. *)
Theorem parse_dispatch (underflow : Run (Image F)) (kernel im : Image F)
    (rest : list (Image F)) (files : list string) :
  valid_input im kernel -> 3 <= width im -> 3 <= height im ->
  (exists r,
      applyCho2009 im kernel files = (Done r, files ++ ["padded.tmp"%string]) /\
      parse underflow ["cho"%string] (kernel :: im :: rest) files
      = (Done (r :: kernel :: im :: rest), files ++ ["padded.tmp"%string]) /\
      width r = width im /\ height r = height im) /\
  (exists r,
      applyShan2008 im kernel files
      = (Done r, files ++ ["output01.tmp"; "output02.tmp"]%string) /\
      parse underflow ["shan"%string] (kernel :: im :: rest) files
      = (Done (r :: kernel :: im :: rest),
         files ++ ["output01.tmp"; "output02.tmp"]%string) /\
      width r = width im /\ height r = height im).
Proof.
  intros V Hw Hh. destruct (valid_input_accepted _ _ V) as (O & S). split.
  - destruct (canvas_roomy im Hw Hh) as (Cw & Ch).
    destruct (applyCho2009_runs im kernel files O S Cw Ch) as (FL & _ & _ & _ & _ & _ & E).
    eexists. split; [exact E|].
    split; [|split; reflexivity].
    unfold parse, bind at 1 2 3, assert_, stack, ret. cbn [List.length Nat.eqb nth_error nth].
    cbn [String.eqb Ascii.eqb Bool.eqb andb].
    unfold bind. rewrite E. reflexivity.
  - assert (Cw : 3 <= width (shan_canvas im) /\ 3 <= height (shan_canvas im)).
    { unfold shan_canvas. apply canvas_roomy; unfold shan_gray;
        destruct (channels im =? 3); assumption. }
    destruct (applyShan2008_runs im kernel files O S (proj1 Cw) (proj2 Cw)) as (Lf & E & _).
    eexists. split; [exact E|].
    split; [|split; reflexivity].
    unfold parse, bind at 1 2 3, assert_, stack, ret. cbn [List.length Nat.eqb nth_error nth].
    cbn [String.eqb Ascii.eqb Bool.eqb andb].
    unfold bind. rewrite E. reflexivity.
Qed.

End ParseFacts.

(* ===================================================================== *)
(** ** The Psi update: what a pixel is given *)
(* ===================================================================== *)

Section CandidateFacts.
Context {F : Type} {SF : Scalar F}.

Lemma consider_infeasible (tmp tmpscore : F) (s : Choice F) :
  consider false tmp tmpscore s = s.
Proof. reflexivity. Qed.

(** The six blocks are one pass over the list of candidates. *)
Lemma psi_pixel_fold (sch : Schedule F) (dL dI sm : F) (s : Choice F) :
  psi_pixel sch dL dI sm s
  = fold_left offer (candidates sch dL dI sm) (mkChoice (fscore s) (ans s) false).
Proof.
  unfold psi_pixel, candidates. cbv zeta.
  unfold try_minus_lt, try_plus_lt, try_zero, try_neg_linear, try_pos_linear, try_quadratic.
  destruct (quadratic_feasible sch dL dI sm), (pos_linear_feasible sch dL dI sm),
    (neg_linear_feasible sch dL dI sm); reflexivity.
Qed.

Lemma offer_valid (s : Choice F) (q : F * F) : fscore_valid (offer s q) = true.
Proof.
  unfold offer, consider, takes. cbn [andb].
  destruct (fscore_valid s) eqn:V; cbn [negb orb]; [|reflexivity].
  destruct (fgtb (fscore s) (snd q)); [reflexivity | exact V].
Qed.

Lemma fold_offer_valid (l : list (F * F)) (s : Choice F) :
  fscore_valid s = true -> fscore_valid (fold_left offer l s) = true.
Proof.
  revert s. induction l as [|q l IH]; intros s V; cbn [fold_left]; [exact V|].
  apply IH, offer_valid.
Qed.

(** The candidate kept after a pass over [l] is an entry of [l], unless the
    pass started with one and kept it. *)
Lemma fold_offer_member (l : list (F * F)) :
  forall (s : Choice F) (pre : list (F * F)),
    (fscore_valid s = true -> In (ans s, fscore s) pre) ->
    fscore_valid (fold_left offer l s) = true ->
    In (ans (fold_left offer l s), fscore (fold_left offer l s)) (pre ++ l).
Proof.
  induction l as [|q l IH]; intros s pre Hs V; cbn [fold_left] in *.
  - rewrite app_nil_r. apply Hs, V.
  - replace (pre ++ q :: l) with ((pre ++ [q]) ++ l) by (rewrite <- app_assoc; reflexivity).
    apply IH; [|exact V]. intros _.
    unfold offer, consider. destruct (takes true (snd q) s) eqn:T.
    + cbn [ans fscore]. apply in_or_app. right. left. apply surjective_pairing.
    + apply in_or_app. left. apply Hs.
      unfold takes in T. cbn [andb] in T.
      destruct (fscore_valid s); [reflexivity | discriminate].
Qed.

(** The value a pixel is given is one of the candidates put forward for it,
    and the score kept with it is that candidate's: never the value or the
    score the locals held before, never a candidate that failed its test. *)
Theorem psi_pixel_selects_candidate (sch : Schedule F) (dL dI sm : F) (s : Choice F) :
  let r := psi_pixel sch dL dI sm s in
  fscore_valid r = true /\ In (ans r, fscore r) (candidates sch dL dI sm).
Proof.
  cbv zeta. rewrite psi_pixel_fold.
  assert (V : fscore_valid (fold_left offer (candidates sch dL dI sm)
                              (mkChoice (fscore s) (ans s) false)) = true).
  { unfold candidates.
    rewrite !fold_left_app. cbn [fold_left]. apply offer_valid. }
  split; [exact V|].
  apply (fold_offer_member _ _ []); [discriminate | exact V].
Qed.

End CandidateFacts.

(** *** In exact arithmetic the value given is a minimiser *)

Section Minimiser.
Local Open Scope R_scope.

Lemma offer_first (s : Choice R) (q : R * R) :
  fscore_valid s = false -> first_least [q] (offer s q).
Proof.
  intros V. unfold offer, consider, takes. rewrite V. cbn.
  split; [reflexivity|]. exists [], []. cbn. rewrite <- surjective_pairing.
  split; [reflexivity|]. split; intros q' [].
Qed.

Lemma offer_step (l : list (R * R)) (s : Choice R) (q : R * R) :
  first_least l s -> first_least (l ++ [q]) (offer s q).
Proof.
  intros (V & l1 & l2 & E & H1 & H2).
  unfold offer, consider, takes. rewrite V. cbn [andb negb orb].
  unfold fgtb. cbn [fltb real_scalar]. unfold Rltb.
  destruct (Rlt_dec (snd q) (fscore s)) as [Lt | Ge].
  - split; [reflexivity|]. cbn [ans fscore].
    exists l, []. rewrite <- surjective_pairing.
    split; [reflexivity|]. split; [|intros q' []].
    intros q' Hq. rewrite E in Hq. apply in_app_or in Hq.
    destruct Hq as [Hq | [<- | Hq]].
    + exact (Rlt_trans _ _ _ Lt (H1 q' Hq)).
    + cbn [snd]. exact Lt.
    + exact (Rlt_le_trans _ _ _ Lt (H2 q' Hq)).
  - split; [exact V|].
    exists l1, (l2 ++ [q]). split; [rewrite E, <- app_assoc; reflexivity|].
    split; [exact H1|].
    intros q' Hq. apply in_app_or in Hq. destruct Hq as [Hq | [<- | []]].
    + apply H2, Hq.
    + apply Rnot_lt_le, Ge.
Qed.

Lemma fold_offer_first_least (l : list (R * R)) :
  forall (pre : list (R * R)) (s : Choice R),
    first_least pre s -> first_least (pre ++ l) (fold_left offer l s).
Proof.
  induction l as [|q l IH]; intros pre s H; cbn [fold_left].
  - rewrite app_nil_r. exact H.
  - replace (pre ++ q :: l) with ((pre ++ [q]) ++ l) by (rewrite <- app_assoc; reflexivity).
    apply IH, offer_step, H.
Qed.

(** In exact arithmetic the value a pixel is given is the candidate with the
    least score among those put forward, and of several with that score the
    one the source tries first: every candidate tried before it scores
    strictly higher, every later one at least as high. *)
Theorem psi_pixel_minimises (sch : Schedule R) (dL dI sm : R) (s : Choice R) :
  let r := psi_pixel sch dL dI sm s in
  exists before after,
    candidates sch dL dI sm = before ++ (ans r, fscore r) :: after /\
    (forall p score, In (p, score) before -> fscore r < score) /\
    (forall p score, In (p, score) after -> fscore r <= score).
Proof.
  cbv zeta. rewrite psi_pixel_fold.
  destruct (candidates sch dL dI sm) as [|q l] eqn:E.
  { exfalso. unfold candidates in E.
    destruct (quadratic_feasible sch dL dI sm), (pos_linear_feasible sch dL dI sm),
      (neg_linear_feasible sch dL dI sm); discriminate. }
  cbn [fold_left].
  destruct (fold_offer_first_least l [q] (offer (mkChoice (fscore s) (ans s) false) q)
              (offer_first (mkChoice (fscore s) (ans s) false) q eq_refl))
    as (_ & l1 & l2 & E' & H1 & H2).
  exists l1, l2. split; [exact E'|].
  split; intros p score Hq; [apply (H1 _ Hq) | apply (H2 _ Hq)].
Qed.

End Minimiser.

(* ===================================================================== *)
(** ** The Psi pass: what it reads and what it writes *)
(* ===================================================================== *)

Section PsiPassFacts.
Context {F : Type} {SF : Scalar F}.

(** The image a Psi pass leaves does not depend on what the locals
    [fscore], [ans] and [fscore_valid] held when it started: the source
    declares them without a value, and the Psi_y loop inherits those of the
    Psi_x loop, but every pixel resets [fscore_valid] and the zero candidate
    is always taken before [fscore] is compared. *)
Theorem psi_pass_ignores_locals (sch : Schedule F)
    (B_large dL dI smoothness_map Psi : Image F) (s s' : Choice F) :
  fst (psi_pass sch B_large dL dI smoothness_map Psi s)
  = fst (psi_pass sch B_large dL dI smoothness_map Psi s').
Proof.
  set (unset := mkChoice (of_int 0) (of_int 0) false : Choice F).
  set (store_x := fun (y x : Z) (d : Z -> F) =>
         upd d (at2 Psi x y + 0)
             (ans (psi_pixel sch (data dL (at2 dL x y + 0)) (data dI (at2 dI x y + 0))
                     (data smoothness_map (at2 smoothness_map x y + 0)) unset))).
  set (store_y := fun (y : Z) (d : Z -> F) => for_loop 0 (width B_large) (store_x y) d).
  assert (G : forall s0 : Choice F,
    fst (psi_pass sch B_large dL dI smoothness_map Psi s0)
    = with_data Psi (for_loop 0 (height B_large) store_y (data Psi))).
  { intros s0. unfold psi_pass. cbv zeta. cbn [fst]. f_equal.
    rewrite (for_loop_fst _ store_y); [reflexivity|].
    intros y st. rewrite (for_loop_fst _ (store_x y)); [reflexivity|].
    intros x st'. cbn [fst]. unfold store_x. f_equal. f_equal.
    apply psi_pixel_locals_irrelevant. }
  rewrite (G s), (G s'). reflexivity.
Qed.

(** A Psi pass stores into channel 0 of the pixels of the canvas and nowhere
    else: the other channel of the two-channel image [Psi] (the imaginary
    part, zero since the allocation) keeps its value. *)
Theorem psi_pass_keeps_other_channels (sch : Schedule F)
    (B_large dL dI smoothness_map Psi : Image F) (s : Choice F) (x y c : Z) :
  width Psi = width B_large -> height Psi = height B_large ->
  0 <= x < width B_large -> 0 <= y < height B_large -> 1 <= c < channels Psi ->
  px (fst (psi_pass sch B_large dL dI smoothness_map Psi s)) x y 0 c = px Psi x y 0 c.
Proof.
  intros Pw Ph Hx Hy Hc. unfold psi_pass. cbv zeta. cbn [fst]. unfold px.
  cbn [data with_data]. change (at3 (with_data Psi ?d) x y 0) with (at3 Psi x y 0).
  apply (for_loop_inv (fun st : (Z -> F) * Choice F =>
           fst st (at3 Psi x y 0 + c) = data Psi (at3 Psi x y 0 + c))).
  - reflexivity.
  - intros y' st Hy' I.
    apply for_loop_inv; [exact I|].
    intros x' st' Hx' I'. cbv zeta. cbn [fst].
    rewrite upd_other; [exact I'|].
    unfold at2. rewrite !at3_flat. intros E.
    apply flat_inj in E; lia.
Qed.

End PsiPassFacts.

(* ===================================================================== *)
(** ** [applyPadding]: where each pass writes *)
(* ===================================================================== *)

Lemma for_from_last {S : Type} (body : Z -> S -> S) :
  forall n i s,
    for_from (Datatypes.S n) i body s = body (i + Z.of_nat n) (for_from n i body s).
Proof.
  induction n as [|n IH]; intros i s.
  - cbn [for_from]. replace (i + Z.of_nat 0) with i by lia. reflexivity.
  - change (for_from (Datatypes.S (Datatypes.S n)) i body s)
      with (for_from (Datatypes.S n) (i + 1) body (body i s)).
    rewrite IH. cbn [for_from]. f_equal. lia.
Qed.

(** A loop that runs at least once ends with its last iteration. *)
Lemma for_loop_last {S : Type} (lo hi : Z) (body : Z -> S -> S) (s : S) :
  lo < hi -> for_loop lo hi body s = body (hi - 1) (for_loop lo (hi - 1) body s).
Proof.
  intros H. unfold for_loop.
  replace (Z.to_nat (hi - lo)) with (Datatypes.S (Z.to_nat (hi - 1 - lo))) by lia.
  rewrite for_from_last. f_equal. lia.
Qed.

Section PaddingWrites.
Context {F : Type} {SF : Scalar F} {CO : Collab F}.
Variable B : Image F.
Variable cv : Image F.
Variables alpha x_padding y_padding : Z.
Hypothesis cv_channels : channels cv = channels B.
Hypothesis W_pos : 0 <= width B.
Hypothesis x_padding_pos : 0 <= x_padding.

Lemma pres_refl (P : Z -> Prop) (st : PadState F) : pres P st st.
Proof. intros j _. reflexivity. Qed.

Lemma pres_trans (P : Z -> Prop) (st0 st1 st2 : PadState F) :
  pres P st0 st1 -> pres P st1 st2 -> pres P st0 st2.
Proof. intros H1 H2 j Hj. rewrite (H2 j Hj). apply H1, Hj. Qed.

Lemma avoids_sub (P : Z -> Prop) t (R R' : Z -> Z -> Prop) :
  (forall x y, R' x y -> R x y) -> avoids cv P t R -> avoids cv P t R'.
Proof. intros Sub A x y c Hr Hc. apply A; auto. Qed.

Section OnePass.
Variable P : Z -> Prop.
Variable t : Z.
Variable st0 : PadState F.

Lemma set_prev_pres st c v : pres P st0 st -> pres P st0 (set_prev st c v).
Proof. intros K. exact K. Qed.

Lemma set_ret_pres (R : Z -> Z -> Prop) st x y c v :
  avoids cv P t R -> R x y -> 0 <= c < channels B ->
  pres P st0 st -> pres P st0 (set_ret st (at3 cv x y t + c) v).
Proof.
  intros A Hr Hc K j Hj. unfold set_ret; cbn [ret_buf].
  rewrite upd_other; [apply K, Hj|].
  intros ->. apply (A x y c Hr); [rewrite cv_channels; exact Hc | exact Hj].
Qed.

(** A cell of a row segment of [m] pixels from column [x]. *)
Lemma row_segment_cell x y m j :
  0 <= m ->
  at3 cv x y t <= j < at3 cv x y t + channels B * m ->
  exists q r, 0 <= q < m /\ 0 <= r < channels B /\ j = at3 cv (x + q) y t + r.
Proof.
  intros Hm Hj.
  assert (HC : 0 < channels B) by nia.
  set (dst := at3 cv x y t) in *.
  pose proof (Z.div_mod (j - dst) (channels B) ltac:(lia)) as D.
  pose proof (Z.mod_pos_bound (j - dst) (channels B) HC) as Hr.
  assert (Hq : 0 <= (j - dst) / channels B < m).
  { split; [apply Z.div_pos; lia|]. apply Z.div_lt_upper_bound; lia. }
  exists ((j - dst) / channels B), ((j - dst) mod channels B).
  split; [exact Hq|]. split; [exact Hr|].
  replace (at3 cv (x + (j - dst) / channels B) y t)
    with (dst + channels B * ((j - dst) / channels B))
    by (unfold dst, at3, xstride; rewrite cv_channels; ring).
  lia.
Qed.

Lemma copy_row_pres (R : Z -> Z -> Prop) st x y src m :
  0 <= m -> avoids cv P t R -> (forall x', x <= x' < x + m -> R x' y) ->
  pres P st0 st -> pres P st0 (copy_ret st (at3 cv x y t) src (channels B * m)).
Proof.
  intros Hm A Hr K j Hj. unfold copy_ret; cbn [ret_buf].
  destruct (Z_lt_dec j (at3 cv x y t)) as [L|L];
    [rewrite memcpy_other by (left; exact L); apply K, Hj|].
  destruct (Z_le_dec (at3 cv x y t + channels B * m) j) as [U|U];
    [rewrite memcpy_other by (right; exact U); apply K, Hj|].
  exfalso.
  destruct (row_segment_cell x y m j Hm ltac:(lia)) as (q & r & Hq & Hr' & ->).
  apply (A (x + q) y r); [apply Hr; lia | rewrite cv_channels; exact Hr' | exact Hj].
Qed.

(** What a row copy leaves in the destination. *)
Lemma copy_row_hit (st : PadState F) x y x' y' m i c :
  0 <= i < m -> 0 <= c < channels B ->
  ret_buf (copy_ret st (at3 cv x y t) (at3 cv x' y' t) (channels B * m))
          (at3 cv (x + i) y t + c)
  = ret_buf st (at3 cv (x' + i) y' t + c).
Proof.
  intros Hi Hc. unfold copy_ret, memcpy; cbn [ret_buf].
  replace (at3 cv (x + i) y t) with (at3 cv x y t + channels B * i)
    by (unfold at3, xstride; rewrite cv_channels; ring).
  replace (at3 cv (x' + i) y' t) with (at3 cv x' y' t + channels B * i)
    by (unfold at3, xstride; rewrite cv_channels; ring).
  assert (0 <= channels B * i) by nia.
  assert (channels B * i + c < channels B * m) by nia.
  destruct (Z.leb_spec (at3 cv x y t) (at3 cv x y t + channels B * i + c)); [|lia].
  destruct (Z.ltb_spec (at3 cv x y t + channels B * i + c)
                       (at3 cv x y t + channels B * m)); [|lia].
  cbn [andb]. f_equal. lia.
Qed.

Let W := width B.
Let H := height B.

Lemma pad_top_copy_pres st :
  avoids cv P t (fun x y => x_padding <= x < x_padding + W /\
                            (0 <= y < alpha \/ y_padding - alpha <= y < y_padding)) ->
  pres P st0 st -> pres P st0 (pad_top_copy B cv alpha x_padding y_padding t st).
Proof.
  intros A K. unfold pad_top_copy.
  apply for_loop_inv; [exact K | intros y s Hy Ks]. cbv zeta.
  eapply copy_row_pres; [exact W_pos | exact A | intros; cbv beta; subst W; lia |].
  eapply copy_row_pres; [exact W_pos | exact A | intros; cbv beta; subst W; lia | exact Ks].
Qed.

Lemma pad_top_blend_pres st :
  avoids cv P t (fun x y => x_padding <= x < x_padding + W /\
                            alpha <= y < y_padding - alpha) ->
  pres P st0 st -> pres P st0 (pad_top_blend B cv alpha x_padding y_padding t st).
Proof.
  intros A K. unfold pad_top_blend.
  apply for_loop_inv; [exact K | intros y s Hy Ks]. cbv zeta.
  apply for_loop_inv.
  - apply for_loop_inv.
    + apply for_loop_inv; [exact Ks | intros x s1 Hx K1].
      apply for_loop_inv; [exact K1 | intros c s2 Hc K2].
      eapply set_ret_pres; [exact A | cbv beta; subst W; lia | exact Hc | exact K2].
    + intros c s1 Hc K1. apply set_prev_pres, K1.
  - intros x s1 Hx K1.
    apply for_loop_inv; [exact K1 | intros c s2 Hc K2]. cbv zeta.
    apply set_prev_pres.
    eapply set_ret_pres; [exact A | cbv beta; subst W; lia | exact Hc | exact K2].
Qed.

Lemma pad_left_copy_pres st :
  avoids cv P t (fun x y => (0 <= x < alpha \/ x_padding - alpha <= x < x_padding) /\
                            0 <= y < H + y_padding * 2) ->
  pres P st0 st -> pres P st0 (pad_left_copy B cv alpha x_padding y_padding t st).
Proof.
  intros A K. unfold pad_left_copy.
  apply for_loop_inv; [exact K | intros y s Hy Ks].
  apply for_loop_inv; [exact Ks | intros x s1 Hx K1]. cbv zeta.
  apply for_loop_inv; [exact K1 | intros c s2 Hc K2]. cbv zeta.
  eapply set_ret_pres; [exact A | cbv beta; subst H; lia | exact Hc |].
  eapply set_ret_pres; [exact A | cbv beta; subst H; lia | exact Hc | exact K2].
Qed.

Lemma pad_left_blend_pres st :
  avoids cv P t (fun x y => alpha <= x < x_padding - alpha /\
                            0 <= y < H + y_padding * 2) ->
  pres P st0 st -> pres P st0 (pad_left_blend B cv alpha x_padding y_padding t st).
Proof.
  intros A K. unfold pad_left_blend.
  apply for_loop_inv; [exact K | intros x s Hx Ks]. cbv zeta.
  apply for_loop_inv.
  - apply for_loop_inv.
    + apply for_loop_inv; [exact Ks | intros y s1 Hy K1].
      apply for_loop_inv; [exact K1 | intros c s2 Hc K2].
      eapply set_ret_pres; [exact A | cbv beta; subst H; lia | exact Hc | exact K2].
    + intros c s1 Hc K1. apply set_prev_pres, K1.
  - intros y s1 Hy K1.
    apply for_loop_inv; [exact K1 | intros c s2 Hc K2]. cbv zeta.
    apply set_prev_pres.
    eapply set_ret_pres; [exact A | cbv beta; subst H; lia | exact Hc | exact K2].
Qed.

Lemma pad_right_copy_pres st :
  avoids cv P t (fun x y => W + x_padding <= x < W + x_padding * 2 /\
                            0 <= y < H + y_padding * 2) ->
  pres P st0 st -> pres P st0 (pad_right_copy B cv x_padding y_padding t st).
Proof.
  intros A K. unfold pad_right_copy.
  apply for_loop_inv; [exact K | intros y s Hy Ks].
  eapply copy_row_pres;
    [exact x_padding_pos | exact A | intros; cbv beta; subst W H; lia | exact Ks].
Qed.

End OnePass.

End PaddingWrites.

Section PaddingRegions.
Context {F : Type} {SF : Scalar F} {CO : Collab F}.
Variable B : Image F.
Variable cv : Image F.
Variables alpha x_padding y_padding : Z.

Hypothesis cv_width : width cv = width B + x_padding * 2.
Hypothesis cv_height : height cv = height B + y_padding * 2.
Hypothesis cv_channels : channels cv = channels B.
Hypothesis alpha_pos : 0 <= alpha.
Hypothesis alpha_x : alpha <= x_padding.
Hypothesis alpha_y : alpha <= y_padding.
Hypothesis W_pos : 0 <= width B.
Hypothesis H_pos : 0 <= height B.

Let top := top_margin B x_padding y_padding.
Let bottom := bottom_margin B x_padding y_padding.
Let side := side_margin B x_padding y_padding.

(** Two samples of the canvas at different coordinates are different cells. *)
Lemma cell_neq x y t c x' y' t' c' :
  0 <= x < width cv -> 0 <= y < height cv -> 0 <= c < channels B ->
  0 <= x' < width cv -> 0 <= y' < height cv -> 0 <= c' < channels B ->
  x <> x' \/ y <> y' \/ t <> t' \/ c <> c' ->
  at3 cv x y t + c <> at3 cv x' y' t' + c'.
Proof.
  intros Hx Hy Hc Hx' Hy' Hc' Ne E.
  rewrite !at3_flat, cv_channels in E. apply flat_inj in E; lia.
Qed.

Section Frame.
Variable P : Z -> Prop.
Variable t : Z.
Variable st0 : PadState F.

(** The three column passes write in the side margins only. *)
Lemma pad_columns_pres st :
  avoids cv P t side ->
  pres P st0 st ->
  pres P st0 (pad_right_copy B cv x_padding y_padding t
                (pad_left_blend B cv alpha x_padding y_padding t
                   (pad_left_copy B cv alpha x_padding y_padding t st))).
Proof.
  intros A K.
  apply pad_right_copy_pres; try assumption; try lia.
  { eapply avoids_sub; [|exact A]. subst side; unfold side_margin; cbv beta; lia. }
  apply pad_left_blend_pres; try assumption; try lia.
  { eapply avoids_sub; [|exact A]. subst side; unfold side_margin; cbv beta; lia. }
  apply pad_left_copy_pres; try assumption; try lia.
  { eapply avoids_sub; [|exact A]. subst side; unfold side_margin; cbv beta; lia. }
Qed.

(** The bottom loop writes in the bottom margin and the side margins. *)
Lemma pad_bottom_pres st :
  avoids cv P t side -> avoids cv P t bottom ->
  pres P st0 st -> pres P st0 (pad_bottom B cv alpha x_padding y_padding t st).
Proof.
  intros As Ab K. unfold pad_bottom.
  apply for_loop_inv; [exact K | intros y s Hy Ks]. cbv zeta.
  apply pad_columns_pres; [exact As|].
  eapply copy_row_pres; try eassumption; try lia.
  intros x' Hx'. subst bottom. unfold bottom_margin. lia.
Qed.

(** The two top passes write in the top margin. *)
Lemma pad_top_pres st :
  avoids cv P t top ->
  pres P st0 st ->
  pres P st0 (pad_top_blend B cv alpha x_padding y_padding t
                (pad_top_copy B cv alpha x_padding y_padding t st)).
Proof.
  intros A K.
  apply pad_top_blend_pres; try assumption; try lia.
  { eapply avoids_sub; [|exact A]. subst top; unfold top_margin; cbv beta; lia. }
  apply pad_top_copy_pres; try assumption; try lia.
  { eapply avoids_sub; [|exact A]. subst top; unfold top_margin; cbv beta; lia. }
Qed.

(** The passes of one frame write in the margins of that frame. *)
Lemma pad_frame_pres st :
  avoids cv P t top -> avoids cv P t side -> avoids cv P t bottom ->
  pres P st0 st -> pres P st0 (pad_frame B cv alpha x_padding y_padding t st).
Proof.
  intros At As Ab K. unfold pad_frame.
  apply pad_bottom_pres; [exact As | exact Ab |].
  apply pad_top_pres; assumption.
Qed.

End Frame.

(** The passes of frame [t] leave every sample of another frame alone. *)
Lemma pad_frame_other_frame t st x y t' c :
  0 <= x < width cv -> 0 <= y < height cv -> 0 <= c < channels B -> t' <> t ->
  canvas_at cv (pad_frame B cv alpha x_padding y_padding t st) x y t' c
  = canvas_at cv st x y t' c.
Proof.
  intros Hx Hy Hc Ht. unfold canvas_at.
  apply (pad_frame_pres (fun j => j = at3 cv x y t' + c) t st st);
    [ | | | apply pres_refl | reflexivity];
    intros x0 y0 c0 R Hc0; cbv beta;
    (apply cell_neq; [| | rewrite <- cv_channels; exact Hc0 | | | |];
     try assumption; try lia;
     subst top side bottom; unfold top_margin, side_margin, bottom_margin in R; lia).
Qed.

End PaddingRegions.

(* ===================================================================== *)
(** ** [applyPadding]: what the copies leave in the margins *)
(* ===================================================================== *)

Section PaddingEffects.
Context {F : Type} {SF : Scalar F} {CO : Collab F}.
Variable B : Image F.
Variable cv : Image F.
Variables alpha x_padding y_padding : Z.

Hypothesis cv_width : width cv = width B + x_padding * 2.
Hypothesis cv_height : height cv = height B + y_padding * 2.
Hypothesis cv_channels : channels cv = channels B.
Hypothesis alpha_pos : 0 <= alpha.
Hypothesis alpha_x : alpha <= x_padding.
Hypothesis alpha_y : alpha <= y_padding.
Hypothesis W_pos : 0 <= width B.
Hypothesis H_pos : 0 <= height B.

(** A row copy leaves a sample outside its destination alone. *)
Lemma copy_row_miss (st : PadState F) t x y src m x' y' t' c' :
  0 <= m -> 0 <= x -> x + m <= width cv -> 0 <= y < height cv ->
  0 <= x' < width cv -> 0 <= y' < height cv -> 0 <= c' < channels B ->
  (x' < x \/ x + m <= x' \/ y' <> y \/ t' <> t) ->
  canvas_at cv (copy_ret st (at3 cv x y t) src (channels B * m)) x' y' t' c'
  = canvas_at cv st x' y' t' c'.
Proof.
  intros Hm Hx Hxm Hy Hx' Hy' Hc' Out. unfold canvas_at.
  apply (copy_row_pres B cv cv_channels (fun j => j = at3 cv x' y' t' + c') t st
           (fun x0 y0 => x <= x0 < x + m /\ y0 = y) st x y src m Hm);
    [ | intros; lia | apply pres_refl | reflexivity].
  intros x0 y0 c0 (Hx0 & ->) Hc0. cbv beta.
  apply (cell_neq B cv cv_channels); try assumption; lia.
Qed.

(** After the right-hand copy the right margin of frame [t] repeats the
    left margin, which the copy does not change. *)
Lemma pad_right_copy_wraps t (st : PadState F) y i c :
  0 <= x_padding ->
  0 <= y < height B + y_padding * 2 -> 0 <= i < x_padding -> 0 <= c < channels B ->
  let st' := pad_right_copy B cv x_padding y_padding t st in
  canvas_at cv st' (width B + x_padding + i) y t c = canvas_at cv st i y t c /\
  canvas_at cv st' i y t c = canvas_at cv st i y t c.
Proof.
  intros Hxp Hy Hi Hc. cbv zeta. unfold pad_right_copy.
  pose (Inv := fun (k : Z) (s : PadState F) =>
    (y < k -> canvas_at cv s (width B + x_padding + i) y t c = canvas_at cv st i y t c) /\
    canvas_at cv s i y t c = canvas_at cv st i y t c).
  assert (R : Inv (height B + y_padding * 2)
                (for_loop 0 (height B + y_padding * 2)
                   (fun y0 st1 =>
                      copy_ret st1 (at3 cv (width B + x_padding) y0 t) (at3 cv 0 y0 t)
                               (channels B * x_padding)) st)).
  { apply for_loop_inv_idx; [lia | split; [lia | reflexivity] |].
    intros k s Hk (I1 & I2). split.
    - intros Hlt. destruct (Z.eq_dec y k) as [-> | Hne].
      + unfold canvas_at. rewrite copy_row_hit by assumption.
        exact I2.
      + rewrite copy_row_miss by lia. apply I1. lia.
    - rewrite copy_row_miss by lia. exact I2. }
  destruct R as (R1 & R2). split; [apply R1; lia | exact R2].
Qed.

(** The column passes leave the columns of the image alone. *)
Lemma pad_columns_miss t (st : PadState F) x y t' c :
  x_padding <= x < x_padding + width B -> 0 <= y < height cv -> 0 <= c < channels B ->
  canvas_at cv (pad_right_copy B cv x_padding y_padding t
                  (pad_left_blend B cv alpha x_padding y_padding t
                     (pad_left_copy B cv alpha x_padding y_padding t st))) x y t' c
  = canvas_at cv st x y t' c.
Proof.
  intros Hx Hy Hc. unfold canvas_at.
  apply (pad_columns_pres B cv alpha x_padding y_padding cv_channels alpha_pos alpha_x
           W_pos (fun j => j = at3 cv x y t' + c) t st st);
    [ | apply pres_refl | reflexivity].
  intros x0 y0 c0 R Hc0. cbv beta. unfold side_margin in R.
  apply (cell_neq B cv cv_channels); try assumption; lia.
Qed.

(** After the bottom loop the bottom margin of frame [t] repeats the rows
    above the image, column by column. *)
Lemma pad_bottom_wraps t (st : PadState F) x y c :
  0 <= x < width B -> 0 <= y < y_padding -> 0 <= c < channels B ->
  let st' := pad_bottom B cv alpha x_padding y_padding t st in
  canvas_at cv st' (x_padding + x) (y + height B + y_padding) t c
  = canvas_at cv st' (x_padding + x) y t c.
Proof.
  intros Hx Hy Hc. cbv zeta. unfold pad_bottom.
  pose (Inv := fun (k : Z) (s : PadState F) =>
    y < k -> canvas_at cv s (x_padding + x) (y + height B + y_padding) t c
             = canvas_at cv s (x_padding + x) y t c).
  assert (R : Inv y_padding
    (for_loop 0 y_padding
       (fun y0 st1 =>
          let st2 := copy_ret st1 (at3 cv x_padding (y0 + height B + y_padding) t)
                              (at3 cv x_padding y0 t) (channels B * width B) in
          let st3 := pad_left_copy B cv alpha x_padding y_padding t st2 in
          let st4 := pad_left_blend B cv alpha x_padding y_padding t st3 in
          pad_right_copy B cv x_padding y_padding t st4) st)).
  { apply for_loop_inv_idx; [lia | unfold Inv; lia | unfold Inv].
    intros k s Hk I Hlt. cbv zeta.
    rewrite !pad_columns_miss by lia.
    destruct (Z.eq_dec y k) as [-> | Hne].
    - unfold canvas_at at 1. rewrite copy_row_hit by lia.
      rewrite copy_row_miss by lia. reflexivity.
    - rewrite !copy_row_miss by lia. apply I. lia. }
  apply R. lia.
Qed.

(** The bottom loop leaves the rows above the bottom margin alone, in the
    columns of the image. *)
Lemma pad_bottom_miss t (st : PadState F) x y t' c :
  x_padding <= x < x_padding + width B -> 0 <= y < height B + y_padding ->
  0 <= c < channels B ->
  canvas_at cv (pad_bottom B cv alpha x_padding y_padding t st) x y t' c
  = canvas_at cv st x y t' c.
Proof.
  intros Hx Hy Hc. unfold canvas_at.
  apply (pad_bottom_pres B cv alpha x_padding y_padding cv_channels alpha_pos alpha_x
           W_pos (fun j => j = at3 cv x y t' + c) t st st);
    [ | | apply pres_refl | reflexivity];
    intros x0 y0 c0 R Hc0; cbv beta; unfold side_margin, bottom_margin in R;
    (apply (cell_neq B cv cv_channels); try assumption; lia).
Qed.

(** When the image has a margin above it, the bottom loop runs and ends
    with the right-hand copy: the right margin repeats the left one. *)
Lemma pad_bottom_wraps_x t (st : PadState F) y i c :
  0 < y_padding ->
  0 <= y < height B + y_padding * 2 -> 0 <= i < x_padding -> 0 <= c < channels B ->
  let st' := pad_bottom B cv alpha x_padding y_padding t st in
  canvas_at cv st' (width B + x_padding + i) y t c = canvas_at cv st' i y t c.
Proof.
  intros Hyp Hy Hi Hc. cbv zeta. unfold pad_bottom.
  rewrite for_loop_last by lia. cbv zeta.
  match goal with
  | |- context [pad_right_copy B cv x_padding y_padding t ?s] =>
      destruct (pad_right_copy_wraps t s y i c ltac:(lia) Hy Hi Hc) as (E1 & E2)
  end.
  rewrite E1, E2. reflexivity.
Qed.

End PaddingEffects.

(* ===================================================================== *)
(** ** [applyPadding]: the margins it synthesises *)
(* ===================================================================== *)

Section PaddingMargins.
Context {F : Type} {SF : Scalar F} {CO : Collab F}.

Lemma padding_filled_at (B : Image F) x y t c :
  px (padding_filled B) x y t c = canvas_at (padding_canvas B) (padding_state B) x y t c.
Proof. reflexivity. Qed.

(** A property of frame [t] of the canvas that the passes of frame [t]
    establish and the passes of the other frames keep holds at the end. *)
Lemma padding_state_frames (B : Image F) (Q : Z -> PadState F -> Prop) :
  (forall t st, 0 <= t < frames B ->
     Q t (pad_frame B (padding_canvas B) (padding_alpha B) (padding_x B) (padding_y B) t st)) ->
  (forall t t' st, 0 <= t' < frames B -> t <> t' -> Q t st ->
     Q t (pad_frame B (padding_canvas B) (padding_alpha B) (padding_x B) (padding_y B) t' st)) ->
  forall t, 0 <= t < frames B -> Q t (padding_state B).
Proof.
  intros Est Keep t Ht. unfold padding_state.
  pose (Inv := fun (k : Z) (s : PadState F) => forall t0, 0 <= t0 < k -> Q t0 s).
  assert (R : Inv (frames B)
                (for_loop 0 (frames B)
                   (fun t0 st => pad_frame B (padding_canvas B) (padding_alpha B)
                                   (padding_x B) (padding_y B) t0 st)
                   (mkPad (data (padding_canvas B)) (fun _ => of_int 0)))).
  { apply for_loop_inv_idx; [lia | unfold Inv; intros; lia | unfold Inv].
    intros k s Hk I t0 Ht0.
    destruct (Z.eq_dec t0 k) as [-> | Hne].
    - apply Est. lia.
    - apply Keep; [lia | exact Hne | apply I; lia]. }
  apply R, Ht.
Qed.

Lemma canvas_shape (B : Image F) :
  width (padding_canvas B) = width B + padding_x B * 2 /\
  height (padding_canvas B) = height B + padding_y B * 2 /\
  channels (padding_canvas B) = channels B.
Proof. repeat split. Qed.

(** For an image at least two rows high, the right margin of the filled
    canvas repeats its left margin, sample by sample, over the full height:
    the last pass of every frame copies the one onto the other. *)
Theorem padding_right_margin_repeats_left (B : Image F) (i y t c : Z) :
  0 <= width B -> 2 <= height B ->
  0 <= i < padding_x B -> 0 <= y < height B + padding_y B * 2 ->
  0 <= t < frames B -> 0 <= c < channels B ->
  px (padding_filled B) (width B + padding_x B + i) y t c
  = px (padding_filled B) i y t c.
Proof.
  intros HW HH Hi Hy Ht Hc.
  destruct (padding_margins B ltac:(lia) ltac:(lia)) as (Ha & Hpx & Hpy).
  destruct (canvas_shape B) as (Cw & Ch & Cc).
  assert (Yp : 0 < padding_y B).
  { rewrite padding_y_spec. unfold spec_pad.
    assert (1 <= height B ÷ 2) by (apply Z.quot_le_lower_bound; lia). lia. }
  rewrite !padding_filled_at.
  apply (padding_state_frames B (fun t0 st =>
           canvas_at (padding_canvas B) st (width B + padding_x B + i) y t0 c
           = canvas_at (padding_canvas B) st i y t0 c)); [ | | exact Ht].
  - intros t0 st Ht0. unfold pad_frame.
    apply (pad_bottom_wraps_x B (padding_canvas B) (padding_alpha B) (padding_x B)
             (padding_y B)); try assumption; lia.
  - intros t0 t' st Ht' Hne E.
    rewrite !(pad_frame_other_frame B (padding_canvas B) (padding_alpha B) (padding_x B)
                (padding_y B)) by (try assumption; lia).
    exact E.
Qed.

(** The bottom margin of the filled canvas repeats the rows above the
    image: in the columns of the image, row [y] below the image holds what
    row [y] of the canvas holds. *)
Theorem padding_bottom_margin_repeats_top (B : Image F) (x y t c : Z) :
  0 <= x < width B -> 0 <= height B -> 0 <= y < padding_y B ->
  0 <= t < frames B -> 0 <= c < channels B ->
  px (padding_filled B) (padding_x B + x) (y + height B + padding_y B) t c
  = px (padding_filled B) (padding_x B + x) y t c.
Proof.
  intros Hx HH Hy Ht Hc.
  destruct (padding_margins B ltac:(lia) ltac:(lia)) as (Ha & Hpx & Hpy).
  destruct (canvas_shape B) as (Cw & Ch & Cc).
  rewrite !padding_filled_at.
  apply (padding_state_frames B (fun t0 st =>
           canvas_at (padding_canvas B) st (padding_x B + x) (y + height B + padding_y B) t0 c
           = canvas_at (padding_canvas B) st (padding_x B + x) y t0 c)); [ | | exact Ht].
  - intros t0 st Ht0. unfold pad_frame.
    apply (pad_bottom_wraps B (padding_canvas B) (padding_alpha B) (padding_x B)
             (padding_y B)); try assumption; lia.
  - intros t0 t' st Ht' Hne E.
    rewrite !(pad_frame_other_frame B (padding_canvas B) (padding_alpha B) (padding_x B)
                (padding_y B)) by (try assumption; lia).
    exact E.
Qed.

End PaddingMargins.

(* ===================================================================== *)
(** ** [applyPadding]: the edges of the image in the margins *)
(* ===================================================================== *)

Lemma for_loop_one {S : Type} (lo : Z) (body : Z -> S -> S) (s : S) :
  for_loop lo (lo + 1) body s = body lo s.
Proof.
  unfold for_loop. replace (Z.to_nat (lo + 1 - lo)) with 1%nat by lia. reflexivity.
Qed.

(** A loop one of whose iterations establishes [Goal], while every
    iteration keeps [Inv] and the later ones keep [Goal]. *)
Lemma for_loop_establish {S : Type} (Inv Goal : S -> Prop) (lo hi k : Z)
    (body : Z -> S -> S) (s : S) :
  lo <= k < hi ->
  Inv s ->
  (forall j s', lo <= j < hi -> Inv s' -> Inv (body j s')) ->
  (forall s', Inv s' -> Goal (body k s')) ->
  (forall j s', k < j < hi -> Inv s' -> Goal s' -> Goal (body j s')) ->
  Goal (for_loop lo hi body s).
Proof.
  intros Hk Hs HInv HEst HKeep.
  assert (R : (fun (i : Z) (s' : S) => Inv s' /\ (k < i -> Goal s')) hi
                (for_loop lo hi body s)).
  { apply for_loop_inv_idx; [lia | split; [exact Hs | lia] |].
    intros j s' Hj (I & G). split; [apply HInv; assumption|].
    intros Hlt. destruct (Z.eq_dec j k) as [-> | Hne].
    - apply HEst, I.
    - apply HKeep; [lia | exact I | apply G; lia]. }
  apply R. lia.
Qed.

Section PaddingEdges.
Context {F : Type} {SF : Scalar F} {CO : Collab F}.
Variable B : Image F.
Variable cv : Image F.
Variables x_padding y_padding : Z.

Hypothesis cv_width : width cv = width B + x_padding * 2.
Hypothesis cv_height : height cv = height B + y_padding * 2.
Hypothesis cv_channels : channels cv = channels B.
Hypothesis x_padding_3 : 3 <= x_padding.
Hypothesis y_padding_3 : 3 <= y_padding.
Hypothesis W_pos : 1 <= width B.
Hypothesis H_pos : 1 <= height B.

Lemma set_ret_hit (st : PadState F) i v : ret_buf (set_ret st i v) i = v.
Proof. unfold set_ret; cbn [ret_buf]. apply upd_same. Qed.

Lemma set_ret_miss (st : PadState F) x y t c v x' y' t' c' :
  0 <= x < width cv -> 0 <= y < height cv -> 0 <= c < channels B ->
  0 <= x' < width cv -> 0 <= y' < height cv -> 0 <= c' < channels B ->
  x <> x' \/ y <> y' \/ t <> t' \/ c <> c' ->
  canvas_at cv (set_ret st (at3 cv x y t + c) v) x' y' t' c' = canvas_at cv st x' y' t' c'.
Proof.
  intros Hx Hy Hc Hx' Hy' Hc' Ne. unfold canvas_at, set_ret; cbn [ret_buf].
  apply upd_other. apply (cell_neq B cv cv_channels); try assumption. lia.
Qed.

(** With [alpha = 1] the first pass copies the last row of the image into
    the top row of the canvas and the first row of the image into the row
    above it. *)
Lemma pad_top_copy_edges t (st : PadState F) x c :
  0 <= x < width B -> 0 <= c < channels B ->
  let st' := pad_top_copy B cv 1 x_padding y_padding t st in
  canvas_at cv st' (x_padding + x) 0 t c
  = canvas_at cv st (x_padding + x) (y_padding + (height B - 1)) t c /\
  canvas_at cv st' (x_padding + x) (y_padding - 1) t c
  = canvas_at cv st (x_padding + x) (y_padding + 0) t c.
Proof.
  intros Hx Hc. cbv zeta. unfold pad_top_copy.
  rewrite (for_loop_one 0). cbv beta zeta. split.
  - rewrite (copy_row_miss B cv cv_channels) by lia.
    unfold canvas_at. match goal with
    | |- context [copy_ret ?s _ _ _] => rewrite (copy_row_hit B cv cv_channels t s) by lia
    end.
    do 2 f_equal. unfold at3. lia.
  - unfold canvas_at at 1.
    replace (at3 cv (x_padding + x) (y_padding - 1) t)
      with (at3 cv (x_padding + x) (y_padding - 1 + 0) t) by (f_equal; lia). match goal with
    | |- context [copy_ret ?s _ _ _] => rewrite (copy_row_hit B cv cv_channels t s) by lia
    end.
    change (ret_buf ?s (at3 cv ?a ?b t + c)) with (canvas_at cv s a b t c).
    rewrite (copy_row_miss B cv cv_channels) by lia.
    f_equal; lia.
Qed.

(** The interpolation pass above the image leaves its first and last row
    (and every sample outside the rows it fills) alone. *)
Lemma pad_top_blend_miss t (st : PadState F) x y t' c :
  0 <= x < width cv -> 0 <= y < height cv -> 0 <= c < channels B ->
  (y < 1 \/ y_padding - 1 <= y \/ x < x_padding \/ x_padding + width B <= x \/ t' <> t) ->
  canvas_at cv (pad_top_blend B cv 1 x_padding y_padding t st) x y t' c
  = canvas_at cv st x y t' c.
Proof.
  intros Hx Hy Hc Out. unfold canvas_at.
  apply (pad_top_blend_pres B cv 1 x_padding y_padding cv_channels
           (fun j => j = at3 cv x y t' + c) t st st);
    [ | apply pres_refl | reflexivity].
  intros x0 y0 c0 R Hc0. cbv beta.
  apply (cell_neq B cv cv_channels); try assumption; lia.
Qed.

(** One frame: the rows next to the image and the outermost rows. *)
Lemma pad_frame_rows t (st : PadState F) x c :
  0 <= x < width B -> 0 <= c < channels B ->
  let st' := pad_frame B cv 1 x_padding y_padding t st in
  canvas_at cv st' (x_padding + x) (y_padding - 1) t c
  = canvas_at cv st (x_padding + x) (y_padding + 0) t c /\
  canvas_at cv st' (x_padding + x) 0 t c
  = canvas_at cv st (x_padding + x) (y_padding + (height B - 1)) t c /\
  canvas_at cv st' (x_padding + x) (height B + y_padding) t c
  = canvas_at cv st (x_padding + x) (y_padding + (height B - 1)) t c /\
  canvas_at cv st' (x_padding + x) (height B + y_padding * 2 - 1) t c
  = canvas_at cv st (x_padding + x) (y_padding + 0) t c.
Proof.
  intros Hx Hc. cbv zeta. unfold pad_frame.
  destruct (pad_top_copy_edges t st x c Hx Hc) as (E0 & E1).
  assert (A1 : canvas_at cv
                 (pad_bottom B cv 1 x_padding y_padding t
                    (pad_top_blend B cv 1 x_padding y_padding t
                       (pad_top_copy B cv 1 x_padding y_padding t st)))
                 (x_padding + x) (y_padding - 1) t c
               = canvas_at cv st (x_padding + x) (y_padding + 0) t c).
  { rewrite (pad_bottom_miss B cv 1 x_padding y_padding) by (try assumption; lia).
    rewrite pad_top_blend_miss by lia. exact E1. }
  assert (A0 : canvas_at cv
                 (pad_bottom B cv 1 x_padding y_padding t
                    (pad_top_blend B cv 1 x_padding y_padding t
                       (pad_top_copy B cv 1 x_padding y_padding t st)))
                 (x_padding + x) 0 t c
               = canvas_at cv st (x_padding + x) (y_padding + (height B - 1)) t c).
  { rewrite (pad_bottom_miss B cv 1 x_padding y_padding) by (try assumption; lia).
    rewrite pad_top_blend_miss by lia. exact E0. }
  split; [exact A1|]. split; [exact A0|]. split.
  - replace (height B + y_padding) with (0 + height B + y_padding) by lia.
    rewrite (pad_bottom_wraps B cv 1 x_padding y_padding) by (try assumption; lia).
    exact A0.
  - replace (height B + y_padding * 2 - 1) with (y_padding - 1 + height B + y_padding) by lia.
    rewrite (pad_bottom_wraps B cv 1 x_padding y_padding) by (try assumption; lia).
    exact A1.
Qed.

End PaddingEdges.

Section PaddingEdgeTheorems.
Context {F : Type} {SF : Scalar F} {CO : Collab F}.

(** The passes of any frame leave the samples of the embedded image alone. *)
Lemma pad_frame_holds_image (B : Image F) t st :
  0 <= width B -> 0 <= height B ->
  holds_image B st ->
  holds_image B (pad_frame B (padding_canvas B) (padding_alpha B) (padding_x B)
                   (padding_y B) t st).
Proof.
  intros HW HH K x y t' c Hx Hy Ht Hc.
  destruct (padding_margins B HW HH) as (Ha & Hpx & Hpy).
  destruct (canvas_shape B) as (Cw & Ch & Cc).
  rewrite <- (K x y t' c Hx Hy Ht Hc). unfold canvas_at.
  apply (pad_frame_pres B (padding_canvas B) (padding_alpha B) (padding_x B) (padding_y B)
           Cc ltac:(lia) ltac:(lia) ltac:(lia) HW
           (fun j => j = at3 (padding_canvas B) (padding_x B + x) (padding_y B + y) t' + c)
           t st st);
    [ | | | apply pres_refl | reflexivity];
    intros x0 y0 c0 R Hc0; cbv beta;
    unfold top_margin, side_margin, bottom_margin in R;
    (apply (cell_neq B (padding_canvas B) Cc); try assumption; lia).
Qed.

(** As [padding_state_frames], for a property established on a canvas that
    holds the image. *)
Lemma padding_state_frames_image (B : Image F) (Q : Z -> PadState F -> Prop) :
  0 <= width B -> 0 <= height B ->
  (forall t st, 0 <= t < frames B -> holds_image B st ->
     Q t (pad_frame B (padding_canvas B) (padding_alpha B) (padding_x B) (padding_y B) t st)) ->
  (forall t t' st, 0 <= t' < frames B -> t <> t' -> Q t st ->
     Q t (pad_frame B (padding_canvas B) (padding_alpha B) (padding_x B) (padding_y B) t' st)) ->
  forall t, 0 <= t < frames B -> Q t (padding_state B).
Proof.
  intros HW HH Est Keep t Ht. unfold padding_state.
  pose (Inv := fun (k : Z) (s : PadState F) =>
                 holds_image B s /\ forall t0, 0 <= t0 < k -> Q t0 s).
  assert (R : Inv (frames B)
                (for_loop 0 (frames B)
                   (fun t0 st => pad_frame B (padding_canvas B) (padding_alpha B)
                                   (padding_x B) (padding_y B) t0 st)
                   (mkPad (data (padding_canvas B)) (fun _ => of_int 0)))).
  { apply for_loop_inv_idx; [lia | unfold Inv | unfold Inv].
    - split; [|intros; lia].
      intros x y t0 c Hx Hy Ht0 Hc.
      apply padding_canvas_interior; assumption.
    - intros k s Hk (K & I). split; [apply pad_frame_holds_image; assumption|].
      intros t0 Ht0. destruct (Z.eq_dec t0 k) as [-> | Hne].
      + apply Est; [lia | exact K].
      + apply Keep; [lia | exact Hne | apply I; lia]. }
  apply R, Ht.
Qed.

Lemma padding_alpha_one (B : Image F) :
  3 <= width B -> 3 <= height B ->
  padding_alpha B = 1 /\ 3 <= padding_x B /\ 3 <= padding_y B.
Proof.
  intros HW HH.
  assert (1 <= width B ÷ 3) by (apply Z.quot_le_lower_bound; lia).
  assert (1 <= height B ÷ 3) by (apply Z.quot_le_lower_bound; lia).
  assert (A : padding_alpha B = 1).
  { rewrite padding_alpha_spec. unfold spec_alpha. lia. }
  destruct (padding_margins B ltac:(lia) ltac:(lia)) as (_ & Hx & Hy).
  rewrite A in Hx, Hy. lia.
Qed.

(** For an image at least 3 x 3, in the columns of the image: the row of the
    canvas just above the image repeats the first row of the image and the
    top row of the canvas repeats its last row; below the image the same
    two rows come again, the last row of the image just below it and the
    first row at the bottom of the canvas. *)
Theorem padding_replicates_rows (B : Image F) (x t c : Z) :
  3 <= width B -> 3 <= height B ->
  0 <= x < width B -> 0 <= t < frames B -> 0 <= c < channels B ->
  let P := padding_filled B in
  let xp := padding_x B in
  let yp := padding_y B in
  px P (xp + x) (yp - 1) t c = px B x 0 t c /\
  px P (xp + x) 0 t c = px B x (height B - 1) t c /\
  px P (xp + x) (height B + yp) t c = px B x (height B - 1) t c /\
  px P (xp + x) (height B + yp * 2 - 1) t c = px B x 0 t c.
Proof.
  intros HW HH Hx Ht Hc. cbv zeta.
  destruct (padding_alpha_one B HW HH) as (A & Hpx & Hpy).
  destruct (canvas_shape B) as (Cw & Ch & Cc).
  rewrite !padding_filled_at.
  apply (padding_state_frames_image B (fun t0 st =>
    canvas_at (padding_canvas B) st (padding_x B + x) (padding_y B - 1) t0 c
    = px B x 0 t0 c /\
    canvas_at (padding_canvas B) st (padding_x B + x) 0 t0 c
    = px B x (height B - 1) t0 c /\
    canvas_at (padding_canvas B) st (padding_x B + x) (height B + padding_y B) t0 c
    = px B x (height B - 1) t0 c /\
    canvas_at (padding_canvas B) st (padding_x B + x) (height B + padding_y B * 2 - 1) t0 c
    = px B x 0 t0 c)); [lia | lia | | | exact Ht].
  - intros t0 st Ht0 K. rewrite A.
    destruct (pad_frame_rows B (padding_canvas B) (padding_x B) (padding_y B)
                Cw Ch Cc Hpx Hpy ltac:(lia) ltac:(lia) t0 st x c Hx Hc)
      as (E1 & E2 & E3 & E4).
    rewrite E1, E2, E3, E4.
    rewrite !K by lia. repeat split.
  - intros t0 t' st Ht' Hne E.
    rewrite !(pad_frame_other_frame B (padding_canvas B) (padding_alpha B) (padding_x B)
                (padding_y B)) by (try assumption; lia).
    exact E.
Qed.

End PaddingEdgeTheorems.

Section PaddingColumns.
Context {F : Type} {SF : Scalar F} {CO : Collab F}.
Variable B : Image F.
Variable cv : Image F.
Variables x_padding y_padding : Z.

Hypothesis cv_width : width cv = width B + x_padding * 2.
Hypothesis cv_height : height cv = height B + y_padding * 2.
Hypothesis cv_channels : channels cv = channels B.
Hypothesis x_padding_3 : 3 <= x_padding.
Hypothesis y_padding_3 : 3 <= y_padding.
Hypothesis W_pos : 1 <= width B.
Hypothesis H_pos : 1 <= height B.

(** One iteration of the innermost loop of the left-hand copy, for
    [alpha = 1] and [x = 0]. *)
Let copy_cell (t y c : Z) (st : PadState F) : PadState F :=
  let st := set_ret st (at3 cv 0 y t + c)
              (ret_buf st (at3 cv (width B + x_padding - 1 + 0) y t + c)) in
  set_ret st (at3 cv (x_padding - 1 + 0) y t + c)
          (ret_buf st (at3 cv (x_padding + 0) y t + c)).

Lemma copy_cell_miss t y c (st : PadState F) x' y' t' c' :
  0 <= y < height cv -> 0 <= c < channels B ->
  0 <= x' < width cv -> 0 <= y' < height cv -> 0 <= c' < channels B ->
  (x' <> 0 /\ x' <> x_padding - 1) \/ y' <> y \/ t' <> t \/ c' <> c ->
  canvas_at cv (copy_cell t y c st) x' y' t' c' = canvas_at cv st x' y' t' c'.
Proof.
  intros Hy Hc Hx' Hy' Hc' Out. unfold copy_cell. cbv zeta.
  rewrite !(set_ret_miss B cv cv_channels) by lia. reflexivity.
Qed.

Lemma copy_cell_hit t y c (st : PadState F) :
  0 <= y < height cv -> 0 <= c < channels B ->
  canvas_at cv (copy_cell t y c st) 0 y t c
  = canvas_at cv st (width B + x_padding - 1) y t c /\
  canvas_at cv (copy_cell t y c st) (x_padding - 1) y t c
  = canvas_at cv st x_padding y t c.
Proof.
  intros Hy Hc. unfold copy_cell. cbv zeta.
  replace (width B + x_padding - 1 + 0) with (width B + x_padding - 1) by lia.
  replace (x_padding - 1 + 0) with (x_padding - 1) by lia.
  replace (x_padding + 0) with x_padding by lia.
  split.
  - rewrite (set_ret_miss B cv cv_channels) by lia.
    unfold canvas_at. apply set_ret_hit.
  - unfold canvas_at at 1. rewrite set_ret_hit.
    change (ret_buf ?s (at3 cv ?a ?b t + c)) with (canvas_at cv s a b t c).
    rewrite (set_ret_miss B cv cv_channels) by lia. reflexivity.
Qed.

Lemma pad_left_copy_rows t (st : PadState F) :
  pad_left_copy B cv 1 x_padding y_padding t st
  = for_loop 0 (height B + y_padding * 2)
      (fun y st => for_loop 0 (channels B) (copy_cell t y) st) st.
Proof.
  unfold pad_left_copy. f_equal.
Qed.

(** With [alpha = 1] the left-hand copy puts the last column of the image
    into the first column of the canvas and the first column of the image
    into the column before it, in every row of the canvas. *)
Lemma pad_left_copy_edges t (st : PadState F) y c :
  0 <= y < height B + y_padding * 2 -> 0 <= c < channels B ->
  let st' := pad_left_copy B cv 1 x_padding y_padding t st in
  canvas_at cv st' 0 y t c = canvas_at cv st (width B + x_padding - 1) y t c /\
  canvas_at cv st' (x_padding - 1) y t c = canvas_at cv st x_padding y t c.
Proof.
  intros Hy Hc. cbv zeta. rewrite pad_left_copy_rows.
  pose (mid := fun s : PadState F =>
    forall x' y' c', x_padding <= x' < x_padding + width B -> 0 <= y' < height cv ->
                     0 <= c' < channels B ->
                     canvas_at cv s x' y' t c' = canvas_at cv st x' y' t c').
  pose (T := fun s : PadState F =>
    canvas_at cv s 0 y t c = canvas_at cv st (width B + x_padding - 1) y t c /\
    canvas_at cv s (x_padding - 1) y t c = canvas_at cv st x_padding y t c).
  assert (Mid : forall j s, 0 <= j < height B + y_padding * 2 -> mid s ->
                  mid (for_loop 0 (channels B) (copy_cell t j) s)).
  { intros j s Hj M. apply for_loop_inv; [exact M|].
    intros k s' Hk M' x' y' c' Hx' Hy' Hc'.
    rewrite copy_cell_miss by lia. apply M'; assumption. }
  apply (for_loop_establish mid T 0 (height B + y_padding * 2) y); try assumption.
  - intros x' y' c' _ _ _. reflexivity.
  - intros s M.
    apply (for_loop_establish mid T 0 (channels B) c); try assumption.
    + intros k s' Hk M' x' y' c' Hx' Hy' Hc'.
      rewrite copy_cell_miss by lia. apply M'; assumption.
    + intros s' M'. destruct (copy_cell_hit t y c s' ltac:(lia) Hc) as (E1 & E2).
      unfold T. rewrite E1, E2. split; apply M'; lia.
    + intros k s' Hk M' (T1 & T2). unfold T.
      rewrite !copy_cell_miss by lia. split; assumption.
  - intros j s Hj M (T1 & T2).
    apply for_loop_inv; [split; assumption|].
    intros k s' Hk (T1' & T2'). unfold T.
    rewrite !copy_cell_miss by lia. split; assumption.
Qed.

(** The interpolation pass of the left margin leaves its first and last
    column alone. *)
Lemma pad_left_blend_miss t (st : PadState F) x y t' c :
  0 <= x < width cv -> 0 <= y < height cv -> 0 <= c < channels B ->
  (x < 1 \/ x_padding - 1 <= x \/ t' <> t) ->
  canvas_at cv (pad_left_blend B cv 1 x_padding y_padding t st) x y t' c
  = canvas_at cv st x y t' c.
Proof.
  intros Hx Hy Hc Out. unfold canvas_at.
  apply (pad_left_blend_pres B cv 1 x_padding y_padding cv_channels
           (fun j => j = at3 cv x y t' + c) t st st);
    [ | apply pres_refl | reflexivity].
  intros x0 y0 c0 R Hc0. cbv beta.
  apply (cell_neq B cv cv_channels); try assumption; lia.
Qed.

(** One frame: the columns next to the image and the outermost columns. *)
Lemma pad_frame_columns t (st : PadState F) y c :
  0 <= y < height B + y_padding * 2 -> 0 <= c < channels B ->
  let st' := pad_frame B cv 1 x_padding y_padding t st in
  canvas_at cv st' (x_padding - 1) y t c = canvas_at cv st' x_padding y t c /\
  canvas_at cv st' 0 y t c = canvas_at cv st' (width B + x_padding - 1) y t c /\
  canvas_at cv st' (width B + x_padding) y t c
  = canvas_at cv st' (width B + x_padding - 1) y t c /\
  canvas_at cv st' (width B + x_padding * 2 - 1) y t c = canvas_at cv st' x_padding y t c.
Proof.
  intros Hy Hc. cbv zeta. unfold pad_frame, pad_bottom.
  rewrite for_loop_last by lia. cbv beta zeta.
  match goal with
  | |- context [pad_left_copy B cv 1 x_padding y_padding t ?s] => set (s2 := s)
  end.
  set (sL := pad_left_copy B cv 1 x_padding y_padding t s2).
  set (sB := pad_left_blend B cv 1 x_padding y_padding t sL).
  destruct (pad_left_copy_edges t s2 y c Hy Hc) as (L0 & L1). fold sL in L0, L1.
  assert (M : forall x, x_padding <= x < x_padding + width B ->
                canvas_at cv (pad_right_copy B cv x_padding y_padding t sB) x y t c
                = canvas_at cv s2 x y t c).
  { intros x Hx. unfold sB, sL.
    apply (pad_columns_miss B cv 1 x_padding y_padding); try assumption; lia. }
  destruct (pad_right_copy_wraps B cv x_padding y_padding cv_width cv_height cv_channels
              ltac:(lia) t sB y 0 c ltac:(lia) Hy ltac:(lia) Hc) as (R0 & R0').
  destruct (pad_right_copy_wraps B cv x_padding y_padding cv_width cv_height cv_channels
              ltac:(lia) t sB y (x_padding - 1) c ltac:(lia) Hy ltac:(lia) Hc) as (R1 & R1').
  cbv zeta in R0, R0', R1, R1'.
  replace (width B + x_padding + 0) with (width B + x_padding) in R0 by lia.
  replace (width B + x_padding + (x_padding - 1)) with (width B + x_padding * 2 - 1) in R1 by lia.
  assert (B0 : canvas_at cv sB 0 y t c = canvas_at cv s2 (width B + x_padding - 1) y t c).
  { unfold sB. rewrite pad_left_blend_miss by lia. exact L0. }
  assert (B1 : canvas_at cv sB (x_padding - 1) y t c = canvas_at cv s2 x_padding y t c).
  { unfold sB. rewrite pad_left_blend_miss by lia. exact L1. }
  rewrite R0, R0', R1, R1', !M by lia.
  rewrite B0, B1. repeat split.
Qed.

End PaddingColumns.

Section PaddingColumnTheorems.
Context {F : Type} {SF : Scalar F} {CO : Collab F}.

(** After all the frames the canvas still holds the image. *)
Lemma padding_state_holds_image (B : Image F) :
  0 <= width B -> 0 <= height B -> holds_image B (padding_state B).
Proof.
  intros HW HH. unfold padding_state. apply for_loop_inv.
  - intros x y t c Hx Hy Ht Hc. apply padding_canvas_interior; assumption.
  - intros t s _ K. apply pad_frame_holds_image; assumption.
Qed.

(** For an image at least 3 x 3, in the rows of the image: the column of the
    canvas just left of the image repeats the first column of the image and
    the first column of the canvas repeats its last column; right of the
    image the same two columns come again, the last column of the image
    just after it and the first column at the right end of the canvas. *)
Theorem padding_replicates_columns (B : Image F) (y t c : Z) :
  3 <= width B -> 3 <= height B ->
  0 <= y < height B -> 0 <= t < frames B -> 0 <= c < channels B ->
  let P := padding_filled B in
  let xp := padding_x B in
  let yp := padding_y B in
  px P (xp - 1) (yp + y) t c = px B 0 y t c /\
  px P 0 (yp + y) t c = px B (width B - 1) y t c /\
  px P (width B + xp) (yp + y) t c = px B (width B - 1) y t c /\
  px P (width B + xp * 2 - 1) (yp + y) t c = px B 0 y t c.
Proof.
  intros HW HH Hy Ht Hc. cbv zeta.
  destruct (padding_alpha_one B HW HH) as (A & Hpx & Hpy).
  destruct (canvas_shape B) as (Cw & Ch & Cc).
  pose proof (padding_state_holds_image B ltac:(lia) ltac:(lia)) as K.
  rewrite !padding_filled_at.
  assert (Q : 
    canvas_at (padding_canvas B) (padding_state B) (padding_x B - 1) (padding_y B + y) t c
    = canvas_at (padding_canvas B) (padding_state B) (padding_x B) (padding_y B + y) t c /\
    canvas_at (padding_canvas B) (padding_state B) 0 (padding_y B + y) t c
    = canvas_at (padding_canvas B) (padding_state B) (width B + padding_x B - 1)
        (padding_y B + y) t c /\
    canvas_at (padding_canvas B) (padding_state B) (width B + padding_x B)
      (padding_y B + y) t c
    = canvas_at (padding_canvas B) (padding_state B) (width B + padding_x B - 1)
        (padding_y B + y) t c /\
    canvas_at (padding_canvas B) (padding_state B) (width B + padding_x B * 2 - 1)
      (padding_y B + y) t c
    = canvas_at (padding_canvas B) (padding_state B) (padding_x B) (padding_y B + y) t c).
  { apply (padding_state_frames B (fun t0 st =>
      canvas_at (padding_canvas B) st (padding_x B - 1) (padding_y B + y) t0 c
      = canvas_at (padding_canvas B) st (padding_x B) (padding_y B + y) t0 c /\
      canvas_at (padding_canvas B) st 0 (padding_y B + y) t0 c
      = canvas_at (padding_canvas B) st (width B + padding_x B - 1) (padding_y B + y) t0 c /\
      canvas_at (padding_canvas B) st (width B + padding_x B) (padding_y B + y) t0 c
      = canvas_at (padding_canvas B) st (width B + padding_x B - 1) (padding_y B + y) t0 c /\
      canvas_at (padding_canvas B) st (width B + padding_x B * 2 - 1) (padding_y B + y) t0 c
      = canvas_at (padding_canvas B) st (padding_x B) (padding_y B + y) t0 c));
      [ | | exact Ht].
    - intros t0 st Ht0. rewrite A.
      apply (pad_frame_columns B (padding_canvas B) (padding_x B) (padding_y B));
        try assumption; lia.
    - intros t0 t' st Ht' Hne E.
      rewrite !(pad_frame_other_frame B (padding_canvas B) (padding_alpha B) (padding_x B)
                  (padding_y B)) by (try assumption; lia).
      exact E. }
  destruct Q as (Q1 & Q2 & Q3 & Q4).
  pose proof (K 0 y t c ltac:(lia) Hy Ht Hc) as K0.
  pose proof (K (width B - 1) y t c ltac:(lia) Hy Ht Hc) as K1.
  replace (padding_x B + 0) with (padding_x B) in K0 by lia.
  replace (padding_x B + (width B - 1)) with (width B + padding_x B - 1) in K1 by lia.
  rewrite Q1, Q2, Q3, Q4, K0, K1. repeat split.
Qed.

(** An image of height 0 or 1 gets no margin above or below, and the loop
    that would fill the side margins is the body of the loop over the rows
    of the bottom margin, which does not run: nothing is synthesised, the
    canvas stays as the first crop allocated it. *)
Theorem padding_of_flat_image (B : Image F) :
  0 <= width B -> 0 <= height B <= 1 ->
  padding_y B = 0 /\
  padding_filled B = padding_canvas B /\
  applyPadding B
  = Crop (padding_canvas B) (padding_x B ÷ 2) 0 0
         (width B + padding_x B) (height B) (frames B).
Proof.
  intros HW HH.
  assert (A : padding_alpha B = 0).
  { rewrite padding_alpha_spec. unfold spec_alpha.
    assert (height B ÷ 3 = 0) by (apply Z.quot_small; lia).
    pose proof (quot_nonneg (width B) 3 HW ltac:(lia)). lia. }
  assert (Y : padding_y B = 0).
  { unfold padding_y. rewrite A. cbv zeta.
    assert (E : height B ÷ 2 = 0) by (apply Z.quot_small; lia).
    rewrite E. reflexivity. }
  assert (S : padding_state B = mkPad (data (padding_canvas B)) (fun _ => of_int 0)).
  { unfold padding_state. apply for_loop_inv; [reflexivity|].
    intros t s _ ->. unfold pad_frame, pad_bottom, pad_top_blend, pad_top_copy.
    rewrite A, Y. rewrite !for_loop_empty by lia. reflexivity. }
  assert (E : padding_filled B = padding_canvas B).
  { change (padding_filled B)
      with (with_data (padding_canvas B) (ret_buf (padding_state B))).
    rewrite S. reflexivity. }
  split; [exact Y|]. split; [exact E|].
  unfold applyPadding. cbv zeta. rewrite E, Y.
  f_equal. lia.
Qed.

End PaddingColumnTheorems.

(* ===================================================================== *)
(** ** [applyPadding]: every store is inside the canvas *)
(* ===================================================================== *)

Lemma flat_bounds (w h c T x y t k : Z) :
  0 <= x < w -> 0 <= y < h -> 0 <= k < c -> 0 <= t < T ->
  0 <= flat w h c x y t k < w * h * T * c.
Proof.
  intros Hx Hy Hk Ht. unfold flat.
  assert (A : 0 <= t * h + y <= T * h - 1) by nia.
  assert (A2 : 0 <= (t * h + y) * w + x <= T * h * w - 1) by nia.
  nia.
Qed.

Section PaddingBounds.
Context {F : Type} {SF : Scalar F} {CO : Collab F}.

(** The passes store only into the buffer of the canvas: a cell before its
    start or after its end (width x height x frames x channels samples) is
    never written. *)
Theorem padding_writes_inside_canvas (B : Image F) (j : Z) :
  0 <= width B -> 0 <= height B ->
  let cv := padding_canvas B in
  j < 0 \/ width cv * height cv * frames cv * channels cv <= j ->
  data (padding_filled B) j = data cv j.
Proof.
  intros HW HH cv Hj.
  destruct (padding_margins B HW HH) as (Ha & Hpx & Hpy).
  destruct (canvas_shape B) as (Cw & Ch & Cc).
  change (data (padding_filled B) j) with (ret_buf (padding_state B) j).
  set (st0 := mkPad (data (padding_canvas B)) (fun _ => of_int 0) : PadState F).
  change (data cv j) with (ret_buf st0 j).
  set (P := fun i : Z =>
              i < 0 \/ width cv * height cv * frames cv * channels cv <= i).
  assert (K : pres P st0 (padding_state B)).
  { unfold padding_state. fold st0. apply for_loop_inv; [apply pres_refl|].
    intros t s Ht Ks.
    apply (pad_frame_pres B (padding_canvas B) (padding_alpha B) (padding_x B)
             (padding_y B) Cc ltac:(lia) ltac:(lia) ltac:(lia) HW P t st0 s);
      try exact Ks;
      intros x0 y0 c0 R Hc0; unfold P; fold cv;
      unfold top_margin, side_margin, bottom_margin in R;
      rewrite at3_flat;
      (assert (Bd : 0 <= flat (width cv) (height cv) (channels cv) x0 y0 t c0
                    < width cv * height cv * frames cv * channels cv)
         by (apply flat_bounds; subst cv; rewrite ?Cw, ?Ch; try assumption;
             try (change (frames (padding_canvas B)) with (frames B)); lia));
      lia. }
  apply K. exact Hj.
Qed.

End PaddingBounds.

(* ===================================================================== *)
(** ** The iterative solver: the L update, bin by bin *)
(* ===================================================================== *)

Lemma for_from_snd {A S : Type} (body : Z -> A * S -> A * S) (g : Z -> S -> S) :
  (forall k st, snd (body k st) = g k (snd st)) ->
  forall n i st, snd (for_from n i body st) = for_from n i g (snd st).
Proof.
  intros Hb. induction n as [|n IH]; intros i st; cbn [for_from].
  - reflexivity.
  - rewrite IH, Hb. reflexivity.
Qed.

Lemma for_loop_snd {A S : Type} (body : Z -> A * S -> A * S) (g : Z -> S -> S) lo hi st :
  (forall k st, snd (body k st) = g k (snd st)) ->
  snd (for_loop lo hi body st) = for_loop lo hi g (snd st).
Proof. intros Hb. unfold for_loop. apply for_from_snd, Hb. Qed.

Section PixelLoops.
Context {F : Type}.
Variable im : Image F.
Variables w h : Z.
Variable f : Z -> Z -> (Z -> F) -> (Z -> F).
Hypothesis im_width : width im = w.
Hypothesis im_height : height im = h.
Hypothesis im_channels : 0 < channels im.
Hypothesis f_local : forall y x, local_update (fun j => j = at2 im x y + 0) (f y x).

(** Two loops over the pixels of [im], each iteration updating channel 0 of
    its pixel from that sample alone: the sample of a pixel ends as one
    application of the body to the initial buffer makes it, and a cell that
    is not channel 0 of a pixel is unchanged. *)
Lemma pixel_loop_cells (d0 : Z -> F) :
  (forall x y, 0 <= x < w -> 0 <= y < h ->
     for_loop 0 h (fun y d => for_loop 0 w (f y) d) d0 (at2 im x y + 0)
     = f y x d0 (at2 im x y + 0)) /\
  (forall j, (forall x y, 0 <= x < w -> 0 <= y < h -> j <> at2 im x y + 0) ->
     for_loop 0 h (fun y d => for_loop 0 w (f y) d) d0 j = d0 j).
Proof.
  assert (Inj : forall x y x' y', 0 <= x < w -> 0 <= y < h -> 0 <= x' < w -> 0 <= y' < h ->
                  at2 im x y + 0 = at2 im x' y' + 0 -> x = x' /\ y = y').
  { intros x y x' y' Hx Hy Hx' Hy' E.
    apply (psi_cell_inj (mkImage w h 1 1 (data im)) im im_width im_height im_channels
             x y x' y'); assumption. }
  pose (own_x := fun (y x j : Z) => j = at2 im x y + 0).
  pose (own_y := fun (y j : Z) => exists x, 0 <= x < w /\ own_x y x j).
  assert (Lx : forall y, 0 <= y < h ->
                 local_update (own_y y) (for_loop 0 w (f y))).
  { intros y Hy. apply (for_loop_local (own_x y)).
    - intros x _. apply f_local.
    - intros x x' j Hx Hx' O1 O2. unfold own_x in O1, O2. rewrite O1 in O2.
      apply (Inj x y x' y Hx Hy Hx' Hy O2). }
  assert (Dy : forall y y' j, 0 <= y < h -> 0 <= y' < h -> own_y y j -> own_y y' j -> y = y').
  { intros y y' j Hy Hy' (x & Hx & O1) (x' & Hx' & O2).
    unfold own_x in O1, O2. rewrite O1 in O2.
    apply (Inj x y x' y' Hx Hy Hx' Hy' O2). }
  pose proof (for_loop_cells own_y (fun y d => for_loop 0 w (f y) d) 0 h Lx Dy d0)
    as (Cy & Ny).
  split.
  - intros x y Hx Hy.
    rewrite (Cy y (at2 im x y + 0) Hy) by (exists x; split; [exact Hx | reflexivity]).
    apply (proj1 (for_loop_cells (own_x y) (f y) 0 w (fun k _ => f_local y k)
                    (fun k k' j Hk Hk' O1 O2 =>
                       proj1 (Inj k y k' y Hk Hy Hk' Hy (eq_trans (eq_sym O1) O2)))
                    d0) x (at2 im x y + 0) Hx eq_refl).
  - intros j Hj. apply Ny. intros y Hy (x & Hx & O). exact (Hj x y Hx Hy O).
Qed.

End PixelLoops.

Section VariableTerms.
Context {F : Type} {SF : Scalar F} {CO : Collab F}.

(** A cell increased twice in place. *)
Lemma add_twice_local (i : Z) (a b : F) :
  local_update (fun j => j = i)
    (fun d : Z -> F => upd (upd d i (d i + a)%sc) i (upd d i (d i + a)%sc i + b)%sc).
Proof.
  split.
  - intros d j Hne. rewrite !upd_other by exact Hne. reflexivity.
  - intros d d' j -> Agree. rewrite !upd_same. rewrite (Agree i eq_refl). reflexivity.
Qed.

(** The loop that appends the variable terms adds them to the real part of
    every bin of the numerator and of the denominator, and leaves the
    imaginary parts as they were:
    [Re N += gamma Re (FD1 FPsi_x) + gamma Re (FD3 FPsi_y)] and
    [Re D += gamma |FD1|^2 + gamma |FD3|^2], where [FD1], [FD3] are what the
    bank holds for dx and dy. *)
Lemma shan_variable_terms_bin (gamma : F)
    (B_large FD1 FD3 FPsi_x FPsi_y numerator denominator : Image F) (x y : Z) :
  width numerator = width B_large -> height numerator = height B_large ->
  channels numerator = 2 ->
  width denominator = width B_large -> height denominator = height B_large ->
  channels denominator = 2 ->
  0 <= x < width B_large -> 0 <= y < height B_large ->
  let nd := shan_variable_terms gamma B_large FD1 FD3 FPsi_x FPsi_y
              (data numerator, data denominator) numerator denominator in
  let d1 := bin FD1 x y 0 in
  let d3 := bin FD3 x y 0 in
  let psi_x := bin FPsi_x x y 0 in
  let psi_y := bin FPsi_y x y 0 in
  bin (with_data numerator (fst nd)) x y 0
  = ((fst (bin numerator x y 0)
      + gamma * (fst d1 * fst psi_x - snd d1 * snd psi_x)
      + gamma * (fst d3 * fst psi_y - snd d3 * snd psi_y))%sc,
     snd (bin numerator x y 0)) /\
  bin (with_data denominator (snd nd)) x y 0
  = ((fst (bin denominator x y 0)
      + gamma * (fst d1 * fst d1 + snd d1 * snd d1)
      + gamma * (fst d3 * fst d3 + snd d3 * snd d3))%sc,
     snd (bin denominator x y 0)).
Proof.
  intros Nw Nh Nc Dw Dh Dc Hx Hy. cbv zeta.
  set (num_x := fun (y x : Z) (d : Z -> F) =>
    let i := at2 numerator x y + 0 in
    let d' := upd d i
                (d i + gamma * (data FD1 (at2 FD1 x y + 0) * data FPsi_x (at2 FPsi_x x y + 0)
                                - data FD1 (at2 FD1 x y + 1) * data FPsi_x (at2 FPsi_x x y + 1)))%sc in
    upd d' i
      (d' i + gamma * (data FD3 (at2 FD3 x y + 0) * data FPsi_y (at2 FPsi_y x y + 0)
                       - data FD3 (at2 FD3 x y + 1) * data FPsi_y (at2 FPsi_y x y + 1)))%sc).
  set (den_x := fun (y x : Z) (d : Z -> F) =>
    let i := at2 denominator x y + 0 in
    let d' := upd d i
                (d i + gamma * (data FD1 (at2 FD1 x y + 0) * data FD1 (at2 FD1 x y + 0)
                                + data FD1 (at2 FD1 x y + 1) * data FD1 (at2 FD1 x y + 1)))%sc in
    upd d' i
      (d' i + gamma * (data FD3 (at2 FD3 x y + 0) * data FD3 (at2 FD3 x y + 0)
                       + data FD3 (at2 FD3 x y + 1) * data FD3 (at2 FD3 x y + 1)))%sc).
  assert (EN : fst (shan_variable_terms gamma B_large FD1 FD3 FPsi_x FPsi_y
                      (data numerator, data denominator) numerator denominator)
               = for_loop 0 (height B_large)
                   (fun y d => for_loop 0 (width B_large) (num_x y) d) (data numerator)).
  { unfold shan_variable_terms.
    rewrite (for_loop_fst _ (fun y d => for_loop 0 (width B_large) (num_x y) d));
      [reflexivity|].
    intros k st. rewrite (for_loop_fst _ (num_x k)); [reflexivity|].
    intros k' st'. reflexivity. }
  assert (ED : snd (shan_variable_terms gamma B_large FD1 FD3 FPsi_x FPsi_y
                      (data numerator, data denominator) numerator denominator)
               = for_loop 0 (height B_large)
                   (fun y d => for_loop 0 (width B_large) (den_x y) d) (data denominator)).
  { unfold shan_variable_terms.
    rewrite (for_loop_snd _ (fun y d => for_loop 0 (width B_large) (den_x y) d));
      [reflexivity|].
    intros k st. rewrite (for_loop_snd _ (den_x k)); [reflexivity|].
    intros k' st'. reflexivity. }
  destruct (pixel_loop_cells numerator (width B_large) (height B_large) num_x Nw Nh
              ltac:(lia) (fun y0 x0 => add_twice_local _ _ _) (data numerator)) as (CN & UN).
  destruct (pixel_loop_cells denominator (width B_large) (height B_large) den_x Dw Dh
              ltac:(lia) (fun y0 x0 => add_twice_local _ _ _) (data denominator)) as (CD & UD).
  assert (Off : forall (im : Image F) x' y', width im = width B_large ->
                  height im = height B_large -> channels im = 2 ->
                  0 <= x' < width B_large -> 0 <= y' < height B_large ->
                  at3 im x y 0 + 1 <> at2 im x' y' + 0).
  { intros im x' y' Iw Ih Ic Hx' Hy' E. unfold at2 in E. rewrite !at3_flat in E.
    rewrite Iw, Ih, Ic in E. apply flat_inj in E; lia. }
  unfold bin, px. cbn [data with_data fst snd].
  change (at3 (with_data numerator ?d) x y 0) with (at3 numerator x y 0).
  change (at3 (with_data denominator ?d) x y 0) with (at3 denominator x y 0).
  rewrite EN, ED.
  change (at3 numerator x y 0) with (at2 numerator x y).
  change (at3 denominator x y 0) with (at2 denominator x y).
  rewrite (CN x y Hx Hy), (CD x y Hx Hy).
  rewrite UN by (intros x' y' Hx' Hy'; apply (Off numerator); assumption).
  rewrite UD by (intros x' y' Hx' Hy'; apply (Off denominator); assumption).
  unfold num_x, den_x. cbv zeta. rewrite !upd_same.
  split; reflexivity.
Qed.

End VariableTerms.

Section ShanUpdate.
Context {F : Type} {SF : Scalar F} {CO : Collab F}.

Lemma cbin_AddScaled (a b : Image F) (w : F) m :
  cbin (data (AddScaled a b w)) m = cadd (cbin (data a) m) (cscale w (cbin (data b) m)).
Proof. reflexivity. Qed.

(** A bin of the quotient of two two-channel images of the same extent. *)
Lemma bin_ComplexDivide (a b : Image F) x y :
  channels a = 2 -> channels b = 2 -> width b = width a -> height b = height a ->
  bin (ComplexDivide a b false) x y 0 = cdiv (bin a x y 0) (bin b x y 0).
Proof.
  intros Ca Cb Wb Hb.
  rewrite (bin_cbin (ComplexDivide a b false)) by exact Ca.
  rewrite cbin_ComplexDivide.
  rewrite (bin_cbin a), (bin_cbin b) by assumption.
  cbn [width height ComplexDivide with_data]. rewrite Wb, Hb. reflexivity.
Qed.

(** The L update of a round.  The round ends with the checkpoint of
    [L = ComplexReal (InverseFourierTransform (numerator))]; the spectrum
    handed to the inverse transform is, at every bin of the canvas, the
    quotient of the numerator by the denominator, where the terms weighted by
    [gamma] were added to the real parts only (the imaginary parts are those
    of the base sums); [FPsi_x] and [FPsi_y] are the transforms of the two
    Psi images the round has just computed. *)
Theorem shan_round_L_update (B_large sm dIdx dIdy : Image F) (bank : ShanBank F)
    (it : Z) (st : ShanState F) (files : list string) (x y : Z) :
  width (numerator_base bank) = width B_large ->
  height (numerator_base bank) = height B_large ->
  channels (numerator_base bank) = 2 ->
  width (denominator_base bank) = width B_large ->
  height (denominator_base bank) = height B_large ->
  channels (denominator_base bank) = 2 ->
  0 <= x < width B_large -> 0 <= y < height B_large ->
  exists st' : ShanState F,
    shan_round B_large sm dIdx dIdy bank it st files
    = (Done st', files ++ [("output" ++ fmt_02d it ++ ".tmp")%string]) /\
    let gamma := gamma (schedule st) in
    let FPsi_x := FourierTransform (Psi_x st') in
    let FPsi_y := FourierTransform (Psi_y st') in
    let FL := shan_L_spectrum gamma B_large bank FPsi_x FPsi_y in
    let d1 := bin (FDeriv bank 1) x y 0 in
    let d3 := bin (FDeriv bank 3) x y 0 in
    let psi_x := bin FPsi_x x y 0 in
    let psi_y := bin FPsi_y x y 0 in
    let n := bin (numerator_base bank) x y 0 in
    let d := bin (denominator_base bank) x y 0 in
    L st' = ComplexReal (InverseFourierTransform FL) /\
    bin FL x y 0
    = cdiv ((fst n + gamma * (fst d1 * fst psi_x - snd d1 * snd psi_x)
                   + gamma * (fst d3 * fst psi_y - snd d3 * snd psi_y))%sc, snd n)
           ((fst d + gamma * (fst d1 * fst d1 + snd d1 * snd d1)
                   + gamma * (fst d3 * fst d3 + snd d3 * snd d3))%sc, snd d).
Proof.
  intros Nw Nh Nc Dw Dh Dc Hx Hy.
  eexists. split; [unfold shan_round; cbv zeta; reflexivity|].
  cbv zeta. cbn [L Psi_x Psi_y]. split; [reflexivity|].
  unfold shan_L_spectrum. cbv zeta. unfold copy.
  rewrite bin_ComplexDivide by (cbn [channels width height with_data]; congruence).
  match goal with
  | |- context [shan_variable_terms ?g ?BL ?F1 ?F3 ?PX ?PY _ _ _] =>
      destruct (shan_variable_terms_bin g BL F1 F3 PX PY (numerator_base bank)
                  (denominator_base bank) x y Nw Nh Nc Dw Dh Dc Hx Hy) as (EN & ED)
  end.
  cbv zeta in EN, ED. rewrite EN, ED. reflexivity.
Qed.

End ShanUpdate.

Section ShanBankSums.
Context {CO : Collab R}.

(** On a canvas at least 3 x 3 and in exact arithmetic, the loop over the
    six filters has a result: it leaves, for each filter of the table of
    the specification, the conjugate of its transform in [FDeriv], and in
    the two base images the weighted sums the comments describe, sample by
    sample; both base images keep the extent of the canvas and their two
    channels. *)
Theorem shan_bank_sums (B_large K_large FK2 : Image R) :
  let w := width B_large in
  let h := height B_large in
  3 <= w -> 3 <= h ->
  exists bank,
    for_loopO 0 6 (shan_accumulate B_large K_large FK2)
      (mkShanBank (fun _ => no_image) (new_image w h 1 2) (new_image w h 1 2))
    = Some bank /\
    (forall i, 0 <= i <= 5 -> FDeriv bank i = ComplexConjugate (shan_filter w h i)) /\
    (forall m,
        cbin (data (denominator_base bank)) m = shan_den_base w h (cbin (data FK2) m) m /\
        cbin (data (numerator_base bank)) m
        = shan_num_base w h (cbin (data K_large) m) (cbin (data B_large) m) m) /\
    (width (denominator_base bank), height (denominator_base bank),
     frames (denominator_base bank), channels (denominator_base bank)) = (w, h, 1, 2) /\
    (width (numerator_base bank), height (numerator_base bank),
     frames (numerator_base bank), channels (numerator_base bank)) = (w, h, 1, 2).
Proof.
  cbv zeta. intros Hw Hh. unfold for_loopO. rewrite for_loop_6.
  cbv beta iota. unfold shan_accumulate.
  rewrite !stencils_agree, !(stencil_table (width B_large) (height B_large)) by lia.
  cbv beta iota zeta. cbn [fst snd].
  eexists. split; [reflexivity|].
  split.
  { intros i Hi.
    destruct (index_cases i Hi) as [-> | [-> | [-> | [-> | [-> | ->]]]]]; reflexivity. }
  split; [|split; reflexivity].
  intros m.
  unfold shan_den_base, shan_num_base, shan_filter.
  cbn [fold_left].
  unfold copy. cbn [denominator_base numerator_base FDeriv].
  rewrite !cbin_AddScaled, !cbin_ComplexMultiply, !cbin_ComplexConjugate.
  split; reflexivity.
Qed.

End ShanBankSums.
(* ===================================================================== *)
(** ** The further theorems at concrete inputs *)
(* ===================================================================== *)

(** Closed comparisons of integers, by evaluation. *)
Ltac by_evaluation :=
  vm_compute; repeat split; solve [reflexivity | discriminate | intro; discriminate].

Lemma solvers_accept_exactly_witness :
  let CO := @sample_collab float32 _ in
  let Blurred := @ramp float32 _ 4 3 1 3 in
  let K := @unit_kernel float32 _ in
  let accepted :=
    Z.rem (width K) 2 = 1 /\ Z.rem (height K) 2 = 1 /\
    channels K = 1 /\ frames K = 1 /\ frames Blurred = 1 in
  (exists im files', applyCho2009 Blurred K [] = (Done im, files')) <-> accepted.
Proof.
  intros CO Blurred K.
  exact (proj1 (proj2 (proj2 (solvers_accept_exactly Blurred K [])) ltac:(by_evaluation)
                 ltac:(by_evaluation))).
Defined.

Lemma solvers_first_failed_assertion_witness :
  let CO := @sample_collab float32 _ in
  applyCho2009 (@ramp float32 _ 4 4 2 3) even_kernel [] = (Panic msg_odd, []) /\
  applyShan2008 (@ramp float32 _ 4 4 2 3) even_kernel [] = (Panic msg_shape, []) /\
  msg_odd <> msg_shape.
Proof.
  intros CO.
  exact (solvers_first_failed_assertion (ramp 4 4 2 3) even_kernel [] eq_refl eq_refl).
Defined.

Lemma solvers_checkpoint_files_witness :
  let CO := @sample_collab float32 _ in
  snd (applyCho2009 (@ramp float32 _ 4 3 1 3) unit_kernel ["kernel.tmp"%string])
  = ["kernel.tmp"%string] ++ ["padded.tmp"%string].
Proof.
  intros CO.
  exact (proj1 (solvers_checkpoint_files (ramp 4 3 1 3) unit_kernel ["kernel.tmp"%string]
                  ltac:(valid_sample))).
Defined.

Lemma applyCho2009_crop_alignment_witness :
  let CO := @sample_collab float32 _ in
  let Blurred := @ramp float32 _ 6 6 1 1 in
  let B := applyPadding Blurred in
  exists FL im files',
    cho_spectrum B unit_kernel = Some FL /\
    applyCho2009 Blurred unit_kernel [] = (Done im, files') /\
    px im 0 0 0 0
    = px (Transpose_c_t (ComplexReal (IFFT FL true true false)))
         (0 + padding_x Blurred ÷ 2) (0 + padding_y Blurred ÷ 2) 0 0 /\
    padding_x Blurred ÷ 2 = padding_origin_x Blurred - Z.rem (padding_x Blurred) 2 /\
    padding_y Blurred ÷ 2 = padding_origin_y Blurred - Z.rem (padding_y Blurred) 2.
Proof.
  intros CO Blurred B.
  exact (applyCho2009_crop_alignment Blurred unit_kernel [] 0 0 0
           ltac:(valid_sample) ltac:(by_evaluation) ltac:(by_evaluation)
           ltac:(by_evaluation) ltac:(by_evaluation) ltac:(by_evaluation)).
Defined.

Lemma parse_wrong_argument_count_witness :
  let CO := @sample_collab float32 _ in
  parse (ret no_image) ["cho"; "shan"]%string [unit_kernel; @ramp float32 _ 4 3 1 3] []
  = (Panic msg_args, []).
Proof.
  intros CO.
  exact (parse_wrong_argument_count (ret no_image) ["cho"; "shan"]%string
           [unit_kernel; ramp 4 3 1 3] [] ltac:(discriminate)).
Defined.

Lemma parse_unknown_method_witness :
  let CO := @sample_collab float32 _ in
  parse (ret no_image) ["Cho"%string] [unit_kernel; @ramp float32 _ 4 3 1 3] []
  = (Panic (msg_unknown "Cho"), []).
Proof.
  intros CO.
  exact (parse_unknown_method (ret no_image) "Cho" unit_kernel (ramp 4 3 1 3) [] []
           ltac:(discriminate) ltac:(discriminate)).
Defined.

Lemma parse_dispatch_witness :
  let CO := @sample_collab float32 _ in
  let kernel := @unit_kernel float32 _ in
  let im := @ramp float32 _ 4 3 1 3 in
  exists r,
    applyCho2009 im kernel [] = (Done r, [] ++ ["padded.tmp"%string]) /\
    parse (ret no_image) ["cho"%string] [kernel; im] []
    = (Done [r; kernel; im], [] ++ ["padded.tmp"%string]) /\
    width r = width im /\ height r = height im.
Proof.
  intros CO kernel im.
  exact (proj1 (parse_dispatch (ret no_image) kernel im [] [] ltac:(valid_sample)
                  ltac:(by_evaluation) ltac:(by_evaluation))).
Defined.

Lemma psi_pass_keeps_other_channels_witness :
  let sch := @schedule_after float32 _ 0 in
  let B_large := @new_image float32 _ 2 2 1 2 in
  let d := @ramp float32 _ 2 2 1 1 in
  px (fst (psi_pass sch B_large d d d (new_image 2 2 1 2) unset_choice)) 1 1 0 1
  = px (@new_image float32 _ 2 2 1 2) 1 1 0 1.
Proof.
  intros sch B_large d.
  exact (psi_pass_keeps_other_channels sch B_large d d d (new_image 2 2 1 2) unset_choice
           1 1 1 eq_refl eq_refl ltac:(by_evaluation) ltac:(by_evaluation)
           ltac:(by_evaluation)).
Defined.

Lemma padding_right_margin_repeats_left_witness :
  let CO := @sample_collab float32 _ in
  let B := @ramp float32 _ 4 3 1 1 in
  px (padding_filled B) (width B + padding_x B + 1) 4 0 0 = px (padding_filled B) 1 4 0 0.
Proof.
  intros CO B.
  exact (padding_right_margin_repeats_left B 1 4 0 0 ltac:(by_evaluation)
           ltac:(by_evaluation) ltac:(by_evaluation) ltac:(by_evaluation)
           ltac:(by_evaluation) ltac:(by_evaluation)).
Defined.

Lemma padding_bottom_margin_repeats_top_witness :
  let CO := @sample_collab float32 _ in
  let B := @ramp float32 _ 4 3 1 1 in
  px (padding_filled B) (padding_x B + 2) (1 + height B + padding_y B) 0 0
  = px (padding_filled B) (padding_x B + 2) 1 0 0.
Proof.
  intros CO B.
  exact (padding_bottom_margin_repeats_top B 2 1 0 0 ltac:(by_evaluation)
           ltac:(by_evaluation) ltac:(by_evaluation) ltac:(by_evaluation)
           ltac:(by_evaluation)).
Defined.

Lemma padding_replicates_rows_witness :
  let CO := @sample_collab float32 _ in
  let B := @ramp float32 _ 4 3 1 1 in
  let P := padding_filled B in
  let xp := padding_x B in
  let yp := padding_y B in
  px P (xp + 2) (yp - 1) 0 0 = px B 2 0 0 0 /\
  px P (xp + 2) 0 0 0 = px B 2 (height B - 1) 0 0 /\
  px P (xp + 2) (height B + yp) 0 0 = px B 2 (height B - 1) 0 0 /\
  px P (xp + 2) (height B + yp * 2 - 1) 0 0 = px B 2 0 0 0.
Proof.
  intros CO B.
  exact (padding_replicates_rows B 2 0 0 ltac:(by_evaluation) ltac:(by_evaluation)
           ltac:(by_evaluation) ltac:(by_evaluation) ltac:(by_evaluation)).
Defined.

Lemma padding_replicates_columns_witness :
  let CO := @sample_collab float32 _ in
  let B := @ramp float32 _ 4 3 1 1 in
  let P := padding_filled B in
  let xp := padding_x B in
  let yp := padding_y B in
  px P (xp - 1) (yp + 1) 0 0 = px B 0 1 0 0 /\
  px P 0 (yp + 1) 0 0 = px B (width B - 1) 1 0 0 /\
  px P (width B + xp) (yp + 1) 0 0 = px B (width B - 1) 1 0 0 /\
  px P (width B + xp * 2 - 1) (yp + 1) 0 0 = px B 0 1 0 0.
Proof.
  intros CO B.
  exact (padding_replicates_columns B 1 0 0 ltac:(by_evaluation) ltac:(by_evaluation)
           ltac:(by_evaluation) ltac:(by_evaluation) ltac:(by_evaluation)).
Defined.

Lemma padding_of_flat_image_witness :
  let CO := @sample_collab float32 _ in
  let B := @ramp float32 _ 4 1 1 1 in
  padding_y B = 0 /\
  padding_filled B = padding_canvas B /\
  applyPadding B
  = Crop (padding_canvas B) (padding_x B ÷ 2) 0 0
         (width B + padding_x B) (height B) (frames B).
Proof.
  intros CO B.
  exact (padding_of_flat_image B ltac:(by_evaluation) ltac:(by_evaluation)).
Defined.

Lemma padding_writes_inside_canvas_witness :
  let CO := @sample_collab float32 _ in
  let B := @ramp float32 _ 4 3 1 1 in
  data (padding_filled B) (-1) = data (padding_canvas B) (-1).
Proof.
  intros CO B.
  assert (H0 : 0 <= width B) by by_evaluation.
  assert (H1 : 0 <= height B) by by_evaluation.
  assert (H2 : -1 < 0) by reflexivity.
  exact (padding_writes_inside_canvas B (-1) H0 H1 (or_introl H2)).
Defined.

Lemma shan_round_L_update_witness :
  let CO := @sample_collab float32 _ in
  let B_large := @ramp float32 _ 3 3 1 2 in
  let bank := mkShanBank (fun _ => B_large) B_large B_large in
  let st := mkShanState no_image (new_image 3 3 1 2) (new_image 3 3 1 2)
              initial_schedule in
  exists st' : ShanState float32,
    shan_round B_large B_large B_large B_large bank 1 st []
    = (Done st', [] ++ [("output" ++ fmt_02d 1 ++ ".tmp")%string]) /\
    let gamma := gamma (schedule st) in
    let FPsi_x := FourierTransform (Psi_x st') in
    let FPsi_y := FourierTransform (Psi_y st') in
    let FL := shan_L_spectrum gamma B_large bank FPsi_x FPsi_y in
    let d1 := bin (FDeriv bank 1) 1 0 0 in
    let d3 := bin (FDeriv bank 3) 1 0 0 in
    let psi_x := bin FPsi_x 1 0 0 in
    let psi_y := bin FPsi_y 1 0 0 in
    let n := bin (numerator_base bank) 1 0 0 in
    let d := bin (denominator_base bank) 1 0 0 in
    L st' = ComplexReal (InverseFourierTransform FL) /\
    bin FL 1 0 0
    = cdiv ((fst n + gamma * (fst d1 * fst psi_x - snd d1 * snd psi_x)
                   + gamma * (fst d3 * fst psi_y - snd d3 * snd psi_y))%sc, snd n)
           ((fst d + gamma * (fst d1 * fst d1 + snd d1 * snd d1)
                   + gamma * (fst d3 * fst d3 + snd d3 * snd d3))%sc, snd d).
Proof.
  intros CO B_large bank st.
  assert (Hx : 0 <= 1 < width B_large) by by_evaluation.
  assert (Hy : 0 <= 0 < height B_large) by by_evaluation.
  exact (shan_round_L_update B_large B_large B_large B_large bank 1 st [] 1 0
           eq_refl eq_refl eq_refl eq_refl eq_refl eq_refl Hx Hy).
Defined.

Lemma shan_bank_sums_witness :
  let CO := @sample_collab R _ in
  let B_large := @ramp R _ 3 3 1 2 in
  exists bank,
    for_loopO 0 6 (shan_accumulate B_large B_large B_large)
      (mkShanBank (fun _ => no_image) (new_image 3 3 1 2) (new_image 3 3 1 2))
    = Some bank.
Proof.
  intros CO B_large.
  assert (Hw : 3 <= width B_large) by (unfold B_large, ramp; cbn [width]; lia).
  assert (Hh : 3 <= height B_large) by (unfold B_large, ramp; cbn [height]; lia).
  destruct (shan_bank_sums B_large B_large B_large Hw Hh) as (bank & E & _).
  exists bank. exact E.
Defined.

